(** * SST NetCDF converters: coordinate normalisation and value encoding

    A shallow embedding of the array pipeline of [process_data.py]
    (NetCDF to uint8 binary), [convert_to_json.py] (NetCDF to JSON) and of
    [download_data], [load_and_process_data] and [create_animation] from
    [sst_animated_map.py].

    Numbers.  A numpy/Python floating-point value is modelled by [fval]:
    NaN, the two infinities, or a finite value carried as a rational.  The
    operations of [Np] compute on finite values exactly; [Ieee] rounds the
    result of an operation to a binary format, to nearest with ties to
    even, as the float32 arrays of the scripts do.  Comparisons, clipping,
    truncation and the NaN mask behave as numpy defines them. *)

From Stdlib Require Import ZArith QArith Qround Qminmax Qabs Qpower Qreduction
  Lqa Lia.
From stdpp Require Import base option list sorting strings gmap.

Local Open Scope Z_scope.

(** ** Floating-point values and the numpy primitives the scripts call *)

Module Np.

Inductive fval : Type :=
  | NaN
  | NInf
  | PInf
  | Fin (q : Q).

Definition isnan (x : fval) : bool :=
  match x with NaN => true | _ => false end.

(** [x - c] for a finite scalar [c]. *)
Definition fsub (x : fval) (c : Q) : fval :=
  match x with
  | Fin q => Fin (q - c)
  | other => other
  end.

(** [x * c] for a finite scalar [c]. *)
Definition fmul (x : fval) (c : Q) : fval :=
  match x with
  | NaN => NaN
  | Fin q => Fin (q * c)
  | PInf => match (c ?= 0)%Q with Gt => PInf | Lt => NInf | Eq => NaN end
  | NInf => match (c ?= 0)%Q with Gt => NInf | Lt => PInf | Eq => NaN end
  end.

(** [x / c] for a finite scalar [c]; division by zero follows IEEE 754. *)
Definition fdiv (x : fval) (c : Q) : fval :=
  match x with
  | NaN => NaN
  | Fin q =>
      match (c ?= 0)%Q with
      | Eq => match (q ?= 0)%Q with Gt => PInf | Lt => NInf | Eq => NaN end
      | _ => Fin (q / c)
      end
  | PInf => match (c ?= 0)%Q with Lt => NInf | _ => PInf end
  | NInf => match (c ?= 0)%Q with Lt => PInf | _ => NInf end
  end.

(** [np.clip(x, lo, hi)], that is [minimum(maximum(x, lo), hi)]; NaN
    propagates. *)
Definition clip (x : fval) (lo hi : Q) : fval :=
  match x with
  | NaN => NaN
  | NInf => Fin (Qmin lo hi)
  | PInf => Fin hi
  | Fin q => Fin (Qmin (Qmax q lo) hi)
  end.

(** Truncation toward zero, the float to integer conversion of C. *)
Definition Qtrunc (q : Q) : Z :=
  if Qle_bool 0 q then Qfloor q else Qceiling q.

(** [.astype(np.uint8)]: truncation, reduced to 8 bits.  The conversion of
    NaN and of the infinities is left undefined by numpy; 0 stands for it. *)
Definition astype_uint8 (x : fval) : Z :=
  match x with
  | Fin q => Qtrunc q mod 256
  | _ => 0
  end.

Definition min_int64 : Z := - 2 ^ 63.
Definition max_int64 : Z := 2 ^ 63 - 1.

(** [.astype(int)]: truncation to a 64-bit integer.  A value that does not
    fit (also NaN and the infinities) converts to the "integer indefinite"
    value [-2^63] of the x86-64 conversion instruction. *)
Definition astype_int (x : fval) : Z :=
  match x with
  | Fin q =>
      let z := Qtrunc q in
      if (min_int64 <=? z) && (z <=? max_int64) then z else min_int64
  | _ => min_int64
  end.

(** Rounding of a rational to the nearest integer, ties to even. *)
Definition round_half_even (q : Q) : Z :=
  let f := Qfloor q in
  match (q - inject_Z f ?= 1 # 2)%Q with
  | Lt => f
  | Gt => f + 1
  | Eq => if Z.even f then f else f + 1
  end.

(** [np.round(x)]: the result is still a float. *)
Definition round (x : fval) : fval :=
  match x with
  | Fin q => Fin (inject_Z (round_half_even q))
  | other => other
  end.

(** [np.where(mask, a, b)], element by element. *)
Definition where_ {A} (mask : list bool) (a b : list A) : list A :=
  zip_with (fun (m : bool) (ab : A * A) => if m then ab.1 else ab.2)
           mask (zip a b).

(** Elementwise application over a 2-D array (a list of rows). *)
Definition map2d {A B} (f : A -> B) (a : list (list A)) : list (list B) :=
  (fun row : list A => f <$> row) <$> a.

(** [np.where(mask, v, b)] on 2-D arrays with a scalar [v]. *)
Definition where_scalar {A} (mask : list (list bool)) (v : A)
    (b : list (list A)) : list (list A) :=
  zip_with (zip_with (fun (m : bool) x => if m then v else x)) mask b.

(** [a[mask] = v] on a 2-D array with a boolean mask of the same shape. *)
Definition mask_assign {A} (a : list (list A)) (mask : list (list bool))
    (v : A) : list (list A) :=
  zip_with (zip_with (fun x (m : bool) => if m then v else x)) a mask.

(** Integer-array indexing [a[idx]]: the elements of [a] at the positions
    listed in [idx]; [None] stands for the IndexError numpy raises when a
    position is out of range. *)
Definition take_idx {A} (a : list A) (idx : list nat) : option (list A) :=
  mapM (fun i => a !! i) idx.

(** [a[:, idx]] on a 2-D array. *)
Definition take_cols {A} (a : list (list A)) (idx : list nat)
    : option (list (list A)) :=
  mapM (fun row => take_idx row idx) a.

(** [x > y] on finite values. *)
Definition Qgtb (x y : Q) : bool := negb (Qle_bool x y).

(** Sorting of (key, position) pairs by key.  A key is inserted in front of
    the first key that is not smaller, so equal keys keep their order. *)
Fixpoint insert_by_key (p : Q * nat) (l : list (Q * nat)) : list (Q * nat) :=
  match l with
  | [] => [p]
  | q :: l' =>
      if Qle_bool p.1 q.1 then p :: q :: l' else q :: insert_by_key p l'
  end.

Fixpoint sort_by_key (l : list (Q * nat)) : list (Q * nat) :=
  match l with
  | [] => []
  | p :: l' => insert_by_key p (sort_by_key l')
  end.

Definition key_le (p q : Q * nat) : Prop := (p.1 <= q.1)%Q.
Definition key_lt (p q : Q * nat) : Prop := (p.1 < q.1)%Q.

(** [np.argsort(a)]: the positions of [a] in ascending order of value.
    numpy's default sort does not promise an order for equal values; on
    pairwise distinct values every sorting algorithm returns the same index
    array ([argsort_unique] below), which is the case the scripts rely on. *)
Definition argsort (a : list Q) : list nat :=
  (sort_by_key (zip a (seq 0 (length a)))).*2.

(** The contract of [np.argsort], whatever algorithm numpy picks: a
    permutation of the positions under which the values do not decrease. *)
Definition is_argsort (a : list Q) (idx : list nat) : Prop :=
  idx ≡ₚ seq 0 (length a) /\
  exists out, take_idx a idx = Some out /\ StronglySorted Qle out.

(** No two positions hold the same number. *)
Fixpoint distinctb (a : list Q) : bool :=
  match a with
  | [] => true
  | x :: r => forallb (fun y => negb (Qeq_bool x y)) r && distinctb r
  end.

Definition pairwise_distinct (a : list Q) : Prop := distinctb a = true.


(** Element [(i, j)] of a 2-D array. *)
Definition cell {A} (a : list (list A)) (i j : nat) : option A :=
  a !! i ≫= fun row => row !! j.

(** Python's [min] and [max] of a list; [None] stands for the ValueError
    raised on an empty list.  The first extremal element is returned. *)
Definition py_min (a : list Q) : option Q :=
  match a with
  | [] => None
  | x :: r => Some (fold_left (fun m y => if Qgtb m y then y else m) r x)
  end.

Definition py_max (a : list Q) : option Q :=
  match a with
  | [] => None
  | x :: r => Some (fold_left (fun m y => if Qgtb y m then y else m) r x)
  end.

(** [a[::step]]: every [step]-th element, starting with the first. *)
Fixpoint stride_from {A} (step skip : nat) (a : list A) : list A :=
  match a with
  | [] => []
  | x :: r =>
      match skip with
      | O => x :: stride_from step (step - 1) r
      | S k => stride_from step k r
      end
  end.

Definition stride {A} (step : nat) (a : list A) : list A :=
  stride_from step 0 a.

(** [a.tofile(path)] for a 3-D array: the cells in C order, the first
    dimension outermost. *)
Definition tofile {A} (a : list (list (list A))) : list A :=
  mjoin (mjoin a).

End Np.

(** ** IEEE 754 binary formats: the rounding of an arithmetic result *)

Module Ieee.

(** A binary format: precision in bits, least and greatest exponent of a
    normal number. *)
Record format : Type := { prec : Z; emin : Z; emax : Z }.

Definition binary32 : format := {| prec := 24; emin := -126; emax := 127 |}.
Definition binary64 : format := {| prec := 53; emin := -1022; emax := 1023 |}.

(** A format with at least the precision and the exponent range of
    binary32; binary32 (the [sst] variable of the ERSST file) and binary64
    are such formats. *)
Definition at_least_binary32 (f : format) : Prop :=
  24 <= prec f /\ emin f <= -126 /\ 127 <= emax f.

Definition pow2 (e : Z) : Q := (2 ^ e)%Q.

(** [floor (log2 q)] for a positive [q]. *)
Definition ilog2 (q : Q) : Z :=
  let e0 := Z.log2 (Qnum q) - Z.log2 (Zpos (Qden q)) in
  if Qle_bool (pow2 e0) q then e0 else e0 - 1.

(** The exponent of the unit in the last place at magnitude [q]; below the
    least normal number the spacing stays that of the subnormals. *)
Definition ulp_exp (f : format) (q : Q) : Z :=
  Z.max (ilog2 q) (emin f) - (prec f - 1).

(** A positive magnitude rounded to the nearest multiple of its unit in the
    last place, ties to even. *)
Definition round_mag (f : format) (q : Q) : Q :=
  Qred (inject_Z (Np.round_half_even (q / pow2 (ulp_exp f q)))
        * pow2 (ulp_exp f q)).

(** Round to nearest, ties to even; a result of magnitude [2^(emax+1)] or
    more overflows to an infinity.  The sign of zero is not kept. *)
Definition round (f : format) (q : Q) : Np.fval :=
  match (q ?= 0)%Q with
  | Eq => Np.Fin 0
  | Gt => let r := round_mag f q in
          if Qle_bool (pow2 (emax f + 1)) r then Np.PInf else Np.Fin r
  | Lt => let r := round_mag f (- q) in
          if Qle_bool (pow2 (emax f + 1)) r then Np.NInf else Np.Fin (- r)
  end.

(** The result of an arithmetic operation, rounded to the format. *)
Definition rounded (f : format) (y : Np.fval) : Np.fval :=
  match y with
  | Np.Fin q => round f q
  | other => other
  end.

(** [x - c], [x * c] and [x / c] on an array of format [f] with a Python
    scalar [c]: the result stays in the format of the array. *)
Definition fsub (f : format) (x : Np.fval) (c : Q) : Np.fval :=
  rounded f (Np.fsub x c).
Definition fmul (f : format) (x : Np.fval) (c : Q) : Np.fval :=
  rounded f (Np.fmul x c).
Definition fdiv (f : format) (x : Np.fval) (c : Q) : Np.fval :=
  rounded f (Np.fdiv x c).

End Ieee.

(** ** The dataset and the JSON values the scripts write *)

(** What [xr.open_dataset(DATA_FILE)['sst']] exposes: the coordinate vectors
    and the values, indexed [time][lat][lon].  A time stamp is carried as
    the text [str(t)] gives for it. *)
Record dataset : Type := {
  ds_lon : list Q;
  ds_lat : list Q;
  ds_time : list string;
  ds_sst : list (list (list Np.fval))
}.

(** The shape invariant of a data array: one frame per time stamp, one row
    per latitude, one column per longitude. *)
Definition wf_dataset (ds : dataset) : Prop :=
  length (ds_sst ds) = length (ds_time ds) /\
  Forall (fun frame =>
            length frame = length (ds_lat ds) /\
            Forall (fun row => length row = length (ds_lon ds)) frame)
         (ds_sst ds).

(** A small dataset to run the definitions on: two time stamps, two
    latitudes, three longitudes, one missing value. *)
Definition sample_ds : dataset := {|
  ds_lon := [0; 180; 270]%Q;
  ds_lat := [-10; 10]%Q;
  ds_time := ["1854-01-01T00:00:00.000000000";
              "1854-02-01T00:00:00.000000000"];
  ds_sst := [[[Np.Fin 0; Np.Fin 1; Np.Fin 2]; [Np.Fin 3; Np.NaN; Np.Fin 5]];
             [[Np.Fin 10; Np.Fin 11; Np.Fin 12];
              [Np.Fin 13; Np.Fin 40; Np.Fin (-3)]]]
|}.

#[local] Unset Elimination Schemes.
Inductive json : Type :=
  | JInt (z : Z)
  | JNum (q : Q)
  | JStr (s : string)
  | JArr (a : list json)
  | JObj (fields : list (string * json)).
#[local] Set Elimination Schemes.

(** The value stored under key [k] of a JSON object. *)
Fixpoint assoc (k : string) (fields : list (string * json)) : option json :=
  match fields with
  | [] => None
  | (k', v) :: r => if String.eqb k k' then Some v else assoc k r
  end.

Definition json_get (k : string) (j : json) : option json :=
  match j with
  | JObj fields => assoc k fields
  | _ => None
  end.

(** [[str(t)[:7] for t in times]]: the YYYY-MM prefix of each time stamp. *)
Definition time_labels (times : list string) : list string :=
  (fun t => String.substring 0 7 t) <$> times.

(** ** xarray: a time step selected by its label *)

Module Xr.

(** What [sst.sel(time=t).values] can be: a 2-D array when the label [t]
    names one position of the time axis, a 3-D array of every matching
    frame when the label occurs more than once. *)
Inductive block (A : Type) : Type :=
  | Block2 (a : list (list A))
  | Block3 (a : list (list (list A))).
Arguments Block2 {A} a.
Arguments Block3 {A} a.

(** The frames stored under the label [t], in the order of the time axis. *)
Definition frames_at {A} (times : list string) (sst : list (list (list A)))
    (t : string) : list (list (list A)) :=
  (filter (fun p : string * list (list A) => p.1 = t) (zip times sst)).*2.

(** [sst.sel(time=t).values]; a label that is not on the axis raises
    KeyError. *)
Definition sel_time {A} (times : list string) (sst : list (list (list A)))
    (t : string) : option (block A) :=
  match frames_at times sst t with
  | [] => None
  | [frame] => Some (Block2 frame)
  | frames => Some (Block3 frames)
  end.

(** [a[:, idx]]: integer-array indexing of the second axis, the longitudes
    of a 2-D frame but the latitudes of a 3-D block. *)
Definition take_axis1 {A} (a : block A) (idx : list nat) : option (block A) :=
  match a with
  | Block2 frame => Block2 <$> Np.take_cols frame idx
  | Block3 frames =>
      Block3 <$> mapM (fun frame : list (list A) => Np.take_idx frame idx)
                      frames
  end.

(** An elementwise operation, applied frame by frame. *)
Definition map_frames {A B} (g : list (list A) -> list (list B))
    (a : block A) : block B :=
  match a with
  | Block2 frame => Block2 (g frame)
  | Block3 frames => Block3 (g <$> frames)
  end.

End Xr.

(** ** process_data.py *)

Module ProcessData.
Import Np.

Definition SST_MIN : Q := -2.
Definition SST_MAX : Q := 32.
Definition SST_RANGE : Q := SST_MAX - SST_MIN.
Definition NODATA : Z := 255.

Definition lons_converted (lons : list Q) : list Q :=
  where_ ((fun x => Qgtb x 180) <$> lons) ((fun x => x - 360)%Q <$> lons) lons.

Definition lon_sort (lons : list Q) : list nat :=
  argsort (lons_converted lons).

Definition lons_sorted (lons : list Q) : option (list Q) :=
  take_idx (lons_converted lons) (lon_sort lons).

Definition lat_flip (lats : list Q) : list nat :=
  argsort (Qopp <$> lats).

Definition lats_sorted (lats : list Q) : option (list Q) :=
  take_idx lats (lat_flip lats).

(** The metadata dictionary.  [a[0]], [a[1]] and [a[-1]] raise on an array
    that is too short. *)
Definition metadata (ds : dataset) : option json :=
  lons_s ← lons_sorted (ds_lon ds);
  lats_s ← lats_sorted (ds_lat ds);
  lon0 ← lons_s !! 0%nat;
  lon1 ← lons_s !! 1%nat;
  lat0 ← lats_s !! 0%nat;
  lat1 ← lats_s !! 1%nat;
  lon_last ← last lons_s;
  lat_last ← last lats_s;
  let half_lon := (Qabs (lon1 - lon0) / 2)%Q in
  let half_lat := (Qabs (lat1 - lat0) / 2)%Q in
  Some (JObj [
    ("nlat", JInt (Z.of_nat (length (ds_lat ds))));
    ("nlon", JInt (Z.of_nat (length (ds_lon ds))));
    ("ntimes", JInt (Z.of_nat (length (ds_time ds))));
    ("times", JArr (JStr <$> time_labels (ds_time ds)));
    ("lats", JArr (JNum <$> lats_s));
    ("lons", JArr (JNum <$> lons_s));
    ("bounds", JObj [
       ("north", JNum (lat0 + half_lat));
       ("south", JNum (lat_last - half_lat));
       ("west", JNum (lon0 - half_lon));
       ("east", JNum (lon_last + half_lon))]);
    ("encoding", JObj [
       ("min", JNum SST_MIN);
       ("max", JNum SST_MAX);
       ("nodata", JInt NODATA);
       ("description",
        JStr "uint8: 0-254 maps to -2°C to 32°C, 255 = no data")])]).

(** The uint8 code of one cell: the composition of the array statements of
    the loop body at a single position, the arithmetic carried out without
    rounding. *)
Definition encode_cell (x : fval) : Z :=
  if isnan x then NODATA
  else astype_uint8 (clip (fmul (fdiv (fsub x SST_MIN) SST_RANGE) 254) 0 254).

(** The same composition with the result of each arithmetic operation
    rounded to the format [f] of the array: the subtraction, the division
    and the product of a float32 array by a Python scalar are float32. *)
Definition encode_cell_in (f : Ieee.format) (x : fval) : Z :=
  if isnan x then NODATA
  else astype_uint8
         (clip (Ieee.fmul f (Ieee.fdiv f (Ieee.fsub f x SST_MIN) SST_RANGE) 254)
               0 254).

(** The value handed to [astype(np.uint8)] for a finite cell [v]. *)
Definition clipped (v : Q) : Q :=
  Qmin (Qmax ((v - SST_MIN) / SST_RANGE * 254) 0) 254.

(** The decoder the encoding description gives to a reader of the file. *)
Definition decode (u : Z) : Q := (inject_Z u / 254 * 34 - 2)%Q.

(** One quantization step, in degrees Celsius. *)
Definition step : Q := 34 / 254.

(** The body of the loop for one frame: reorder, normalise, scale, mask. *)
Definition encode_frame (frame : list (list fval)) (lon_sort lat_flip : list nat)
    : option (list (list Z)) :=
  frame1 ← take_cols frame lon_sort;
  frame2 ← take_idx frame1 lat_flip;
  let normalized := map2d (fun x => fdiv (fsub x SST_MIN) SST_RANGE) frame2 in
  let scaled :=
    map2d (fun x => astype_uint8 (clip (fmul x 254) 0 254)) normalized in
  Some (mask_assign scaled (map2d isnan frame2) NODATA).

(** The body of the loop on an array of format [f]. *)
Definition encode_frame_in (f : Ieee.format) (frame : list (list fval))
    (lon_sort lat_flip : list nat) : option (list (list Z)) :=
  frame1 ← take_cols frame lon_sort;
  frame2 ← take_idx frame1 lat_flip;
  let normalized :=
    map2d (fun x => Ieee.fdiv f (Ieee.fsub f x SST_MIN) SST_RANGE) frame2 in
  let scaled :=
    map2d (fun x => astype_uint8 (clip (Ieee.fmul f x 254) 0 254)) normalized in
  Some (mask_assign scaled (map2d isnan frame2) NODATA).

(** The loop over [range(ntimes)]: [binary_data[i] = scaled].  The block
    assigned has [len(lat_flip)] rows of [len(lon_sort)] cells, the shape of
    the slot it goes to. *)
Fixpoint frames_loop (sst : list (list (list fval)))
    (lon_sort lat_flip : list nat) (todo : list nat)
    (binary_data : list (list (list Z))) : option (list (list (list Z))) :=
  match todo with
  | [] => Some binary_data
  | i :: todo' =>
      frame ← sst !! i;
      scaled ← encode_frame frame lon_sort lat_flip;
      frames_loop sst lon_sort lat_flip todo' (<[i := scaled]> binary_data)
  end.

Record outputs : Type := {
  metadata_json : json;
  sst_data_bin : list Z
}.

(** [process()]: [None] stands for an exception that ends the run.  The
    banner prints [times[0]] and [times[-1]], which needs one time stamp.
    [np.empty] leaves the cells unspecified; they start at 0 here. *)
Definition process (ds : dataset) : option outputs :=
  let lons := ds_lon ds in
  let lats := ds_lat ds in
  let times := ds_time ds in
  _ ← times !! 0%nat;
  let lon_sort := lon_sort lons in
  let lat_flip := lat_flip lats in
  let nlat := length lats in
  let nlon := length lons in
  let ntimes := length times in
  md ← metadata ds;
  let binary_data := replicate ntimes (replicate nlat (replicate nlon 0)) in
  binary_data ← frames_loop (ds_sst ds) lon_sort lat_flip (seq 0 ntimes)
                            binary_data;
  Some {| metadata_json := md; sst_data_bin := tofile binary_data |}.

End ProcessData.

(** ** convert_to_json.py *)

Module ConvertToJson.
Import Np.

Definition TIME_STEP : nat := 1.

Definition SENTINEL : Z := -999.

Definition lons_converted (lons : list Q) : list Q :=
  (fun lon => if Qgtb lon 180 then (lon - 360)%Q else lon) <$> lons.

Definition sort_idx (lons : list Q) : list nat :=
  argsort (lons_converted lons).

Definition lons_sorted (lons : list Q) : option (list Q) :=
  take_idx (lons_converted lons) (sort_idx lons).

(** The metadata dictionary; [min] and [max] raise on an empty list. *)
Definition metadata (lons lats : list Q) (times : list string) : option json :=
  lons_s ← lons_sorted lons;
  min_lon ← py_min lons_s;
  max_lon ← py_max lons_s;
  min_lat ← py_min lats;
  max_lat ← py_max lats;
  Some (JObj [
    ("lons", JArr (JNum <$> lons_s));
    ("lats", JArr (JNum <$> lats));
    ("times", JArr (JStr <$> time_labels times));
    ("bounds", JObj [
       ("minLon", JNum min_lon);
       ("maxLon", JNum max_lon);
       ("minLat", JNum min_lat);
       ("maxLat", JNum max_lat)]);
    ("valueRange", JObj [("min", JInt (-2)); ("max", JInt 32)])]).

(** The integer code of one cell of an array of format [f]: the product
    (rounded to [f]), [np.where], [np.round] and [astype(int)] at a single
    position. *)
Definition encode_cell (f : Ieee.format) (x : fval) : Z :=
  astype_int (if isnan x then Fin (inject_Z SENTINEL)
              else round (Ieee.fmul f x 100)).

(** The elementwise statements of the loop body on one 2-D array. *)
Definition scale_and_cast (f : Ieee.format) (a : list (list fval))
    : list (list Z) :=
  map2d astype_int
    (where_scalar (map2d isnan a) (Fin (inject_Z SENTINEL))
                  (map2d (fun x => round (Ieee.fmul f x 100)) a)).

(** The body of the loop for one time step, from the selected array on. *)
Definition sst_int (f : Ieee.format) (sst_data : Xr.block fval)
    (sort_idx : list nat) : option (Xr.block Z) :=
  sst_sorted ← Xr.take_axis1 sst_data sort_idx;
  Some (Xr.map_frames (scale_and_cast f) sst_sorted).

Record outputs : Type := {
  metadata_json : json;
  all_data : list (Xr.block Z)
}.

(** [convert_data()] on a dataset whose [sst] has format [f].  Each time
    step is selected by its label, [sst.sel(time=t)]. *)
Definition convert_data (f : Ieee.format) (ds : dataset) : option outputs :=
  let sst := stride TIME_STEP (ds_sst ds) in
  let lons := ds_lon ds in
  let lats := ds_lat ds in
  let times := stride TIME_STEP (ds_time ds) in
  let sort_idx := sort_idx lons in
  md ← metadata lons lats times;
  data ← mapM (fun t => sst_data ← Xr.sel_time times sst t;
                        sst_int f sst_data sort_idx)
              times;
  Some {| metadata_json := md; all_data := data |}.

End ConvertToJson.

(** ** sst_animated_map.py: download_data *)

Module SstAnimatedMap.

Definition DATA_URL : string :=
  "https://downloads.psl.noaa.gov/Datasets/noaa.ersst.v5/sst.mnmean.nc".
Definition DATA_FILE : string := "sst.mnmean.nc".

(** The content-length header as [int(...)] sees it. *)
Inductive content_length : Type :=
  | CLMissing
  | CLInt (n : Z)
  | CLMalformed.

Record response : Type := {
  resp_ok : bool;
  resp_content_length : content_length;
  resp_chunks : list (list Z)
}.

Inductive line : Type :=
  | Line (s : string)
  | Progress (downloaded total : Z).

(** The part of the outside world [download_data] can read or change: the
    files by path, the HTTP requests issued so far, and what was printed. *)
Record world : Type := {
  fs : gmap string (list Z);
  requests : list string;
  stdout : list line
}.

Inductive outcome : Type :=
  | Returned
  | Raised (exn : string).

Definition print (l : line) (w : world) : world :=
  {| fs := fs w; requests := requests w; stdout := stdout w ++ [l] |}.

Definition http_get (url : string) (w : world) : world :=
  {| fs := fs w; requests := requests w ++ [url]; stdout := stdout w |}.

(** [open(path, 'wb')]: the file is created, or emptied when it exists. *)
Definition open_wb (path : string) (w : world) : world :=
  {| fs := <[path := []]> (fs w); requests := requests w; stdout := stdout w |}.

(** [f.write(chunk)] on the file opened at [path]. *)
Definition write (path : string) (chunk : list Z) (w : world) : world :=
  {| fs := <[path := default [] (fs w !! path) ++ chunk]> (fs w);
     requests := requests w; stdout := stdout w |}.

(** The loop over [response.iter_content]; the state carries [downloaded]. *)
Definition write_chunks (total : Z) (chunks : list (list Z)) (w : world)
    : world :=
  (fold_left
     (fun (st : world * Z) chunk =>
        let w1 := write DATA_FILE chunk st.1 in
        let downloaded := st.2 + Z.of_nat (length chunk) in
        (if decide (total = 0) then w1 else print (Progress downloaded total) w1,
         downloaded))
     chunks (w, 0)).1.

(** [download_data()], run in world [w]; [server] is what [requests.get]
    meets: no answer (a connection error) or a response. *)
Definition download_data (server : string -> option response) (w : world)
    : outcome * world :=
  if decide (is_Some (fs w !! DATA_FILE)) then
    (Returned,
     print (Line "Data file 'sst.mnmean.nc' already exists, skipping download.") w)
  else
    let w := print (Line ("Downloading data from " +:+ DATA_URL +:+ "...")) w in
    let w := print (Line "This may take a few minutes (file is ~139MB)...") w in
    let w := http_get DATA_URL w in
    match server DATA_URL with
    | None => (Raised "ConnectionError", w)
    | Some resp =>
        if negb (resp_ok resp) then (Raised "HTTPError", w)
        else
          match resp_content_length resp with
          | CLMalformed => (Raised "ValueError", w)
          | cl =>
              let total := match cl with CLInt n => n | _ => 0 end in
              let w := open_wb DATA_FILE w in
              let w := write_chunks total (resp_chunks resp) w in
              (Returned, print (Line "Download complete: sst.mnmean.nc") w)
          end
    end.

Definition OUTPUT_FILE : string := "sst_animated_map.html".
Definition SPATIAL_SUBSAMPLE : nat := 1.
Definition TIME_STEP : nat := 1.

(** [isel(dim=slice(None, None, step))]: a zero step raises ValueError. *)
Definition isel_step {A} (step : nat) (a : list A) : option (list A) :=
  if decide (step = 0%nat) then None else Some (Np.stride step a).

(** The two subsampling statements of [load_and_process_data], for given
    values of the module constants.  The spatial step is applied to both
    grid dimensions (and their coordinates) only when it exceeds 1; the
    time step is always applied. *)
Definition subsample (spatial time_step : nat) (ds : dataset) : option dataset :=
  let sst :=
    if decide (1 < spatial)%nat then
      {| ds_lon := Np.stride spatial (ds_lon ds);
         ds_lat := Np.stride spatial (ds_lat ds);
         ds_time := ds_time ds;
         ds_sst :=
           (fun frame : list (list Np.fval) =>
              (fun row : list Np.fval => Np.stride spatial row)
                <$> Np.stride spatial frame) <$> ds_sst ds |}
    else ds in
  times ← isel_step time_step (ds_time sst);
  frames ← isel_step time_step (ds_sst sst);
  Some {| ds_lon := ds_lon sst; ds_lat := ds_lat sst;
          ds_time := times; ds_sst := frames |}.

(** [load_and_process_data()] applied to the opened dataset; the banner
    prints [ds.time.values[0]], which raises on an empty time axis. *)
Definition load_and_process_data (ds : dataset) : option dataset :=
  _ ← ds_time ds !! 0%nat;
  subsample SPATIAL_SUBSAMPLE TIME_STEP ds.

(** The arguments [create_animation] passes to plotly that depend on the
    data, with the value range and the axis ranges it fixes. *)
Record heatmap : Type := {
  hm_z : Xr.block Np.fval;
  hm_x : list Q;
  hm_y : list Q;
  hm_zmin : Z;
  hm_zmax : Z
}.

Record frame : Type := {
  fr_data : heatmap;
  fr_name : string;
  fr_title : string
}.

(** A slider step: [args[0] = [time_str]] names the frame to show. *)
Record slider_step : Type := {
  st_target : string;
  st_label : string
}.

Record figure : Type := {
  fig_data : heatmap;
  fig_frames : list frame;
  fig_steps : list slider_step;
  fig_title : string;
  fig_xrange : Q * Q;
  fig_yrange : Q * Q
}.

Definition make_heatmap (z : Xr.block Np.fval) (x y : list Q) : heatmap :=
  {| hm_z := z; hm_x := x; hm_y := y; hm_zmin := -2; hm_zmax := 32 |}.

(** [create_animation(sst, ds)]; only [sst] is read.  [None] stands for an
    exception.  The frame of a time step is selected by its label,
    [sst.sel(time=t)]; the initial frame by its position, [sst.isel(time=0)]. *)
Definition create_animation (sst : dataset) : option figure :=
  let lons := ds_lon sst in
  let lats := ds_lat sst in
  let times := ds_time sst in
  let lons_converted :=
    Np.where_ ((fun x => Np.Qgtb x 180) <$> lons)
              ((fun x => x - 360)%Q <$> lons) lons in
  let sort_idx := Np.argsort lons_converted in
  lons_sorted ← Np.take_idx lons_converted sort_idx;
  frames ←
    mapM (fun t : string =>
            sst_data ← Xr.sel_time times (ds_sst sst) t;
            sst_sorted ← Xr.take_axis1 sst_data sort_idx;
            let time_str := String.substring 0 7 t in
            Some {| fr_data := make_heatmap sst_sorted lons_sorted lats;
                    fr_name := time_str;
                    fr_title := "Sea Surface Temperature - " +:+ time_str |})
         times;
  first ← ds_sst sst !! 0%nat;
  initial_sst ← Np.take_cols first sort_idx;
  t0 ← times !! 0%nat;
  let initial_time := String.substring 0 7 t0 in
  let slider_steps :=
    (fun t => {| st_target := String.substring 0 7 t;
                 st_label := String.substring 0 7 t |}) <$> times in
  Some {| fig_data := make_heatmap (Xr.Block2 initial_sst) lons_sorted lats;
          fig_frames := frames;
          fig_steps := slider_steps;
          fig_title :=
            "NOAA ERSST v5 - Sea Surface Temperature (" +:+ initial_time +:+ ")";
          fig_xrange := (-180, 180)%Q;
          fig_yrange := (-90, 90)%Q |}.

(** A world in which the data file is already on disk, and a server that
    would answer with two chunks. *)
Definition sample_world : world := {|
  fs := {[ DATA_FILE := [67; 68; 70] ]};
  requests := [];
  stdout := []
|}.

Definition sample_server (url : string) : option response :=
  Some {| resp_ok := true; resp_content_length := CLInt 4;
          resp_chunks := [[1; 2]; [3; 4]] |}.

End SstAnimatedMap.

(** ** Orders used to state properties *)

(** The order of the floating-point values that are not NaN. *)
Definition fval_le (x y : Np.fval) : Prop :=
  match x, y with
  | Np.NaN, _ | _, Np.NaN => False
  | Np.NInf, _ => True
  | _, Np.PInf => True
  | Np.Fin a, Np.Fin b => (a <= b)%Q
  | _, _ => False
  end.

(** * Properties *)

(** ** Rounding and truncation *)

Section Rounding.
Import Np.
Local Open Scope Q_scope.

Lemma Qtrunc_nonneg q : 0 <= q -> Qtrunc q = Qfloor q.
Proof.
  intros H. unfold Qtrunc. apply Qle_bool_iff in H. now rewrite H.
Qed.

Lemma Qtrunc_inject_Z z : Qtrunc (inject_Z z) = z.
Proof.
  unfold Qtrunc. destruct (Qle_bool 0 (inject_Z z)).
  - apply Qfloor_Z.
  - apply Qceiling_Z.
Qed.

Lemma Qfloor_bounds q (lo hi : Z) :
  inject_Z lo <= q -> q <= inject_Z hi -> (lo <= Qfloor q <= hi)%Z.
Proof.
  intros Hlo Hhi. split.
  - rewrite <- (Qfloor_Z lo). now apply Qfloor_resp_le.
  - rewrite <- (Qfloor_Z hi). now apply Qfloor_resp_le.
Qed.

(** The rounded integer is within one half of the argument, and a tie goes
    to the even neighbour. *)
Lemma round_half_even_spec q :
  let z := round_half_even q in
  inject_Z z - (1 # 2) <= q <= inject_Z z + (1 # 2) /\
  (q == inject_Z z + (1 # 2) \/ q == inject_Z z - (1 # 2) -> Z.even z = true).
Proof.
  unfold round_half_even.
  pose proof (Qfloor_le q) as Hlo. pose proof (Qlt_floor q) as Hhi.
  rewrite inject_Z_plus in Hhi. change (inject_Z 1) with 1 in Hhi.
  set (f := Qfloor q) in *.
  destruct (Qcompare_spec (q - inject_Z f) (1 # 2)) as [He | Hl | Hg].
  - destruct (Z.even f) eqn:Hev; cbn zeta.
    + split; [lra | auto].
    + rewrite inject_Z_plus. change (inject_Z 1) with 1.
      split; [lra |]. intros _.
      rewrite Z.even_add, Hev. reflexivity.
  - cbn zeta. split; [lra |]. intros [H | H]; lra.
  - cbn zeta. rewrite inject_Z_plus. change (inject_Z 1) with 1.
    split; [lra |]. intros [H | H]; lra.
Qed.

Lemma inject_Z_lt_inv (a b : Z) : inject_Z a < inject_Z b -> (a < b)%Z.
Proof. now rewrite <- Zlt_Qlt. Qed.

(** Rounding hits an odd integer exactly on the open interval of radius one
    half around it. *)
Lemma round_half_even_odd q z :
  Z.even z = false ->
  round_half_even q = z <->
  inject_Z z - (1 # 2) < q < inject_Z z + (1 # 2).
Proof.
  intros Hodd. destruct (round_half_even_spec q) as [Hb Ht].
  cbn zeta in Hb, Ht. split.
  - intros <-.
    assert (~ q == inject_Z (round_half_even q) + (1 # 2)) as Hup by
      (intros E; rewrite Ht in Hodd; [discriminate | now left]).
    assert (~ q == inject_Z (round_half_even q) - (1 # 2)) as Hdn by
      (intros E; rewrite Ht in Hodd; [discriminate | now right]).
    lra.
  - intros [H1 H2].
    set (r := round_half_even q) in *.
    assert (inject_Z (r - 1) < inject_Z z) as Ha
      by (unfold Z.sub; rewrite inject_Z_plus, inject_Z_opp;
          change (inject_Z 1) with 1; lra).
    assert (inject_Z z < inject_Z (r + 1)) as Hc
      by (rewrite inject_Z_plus; change (inject_Z 1) with 1; lra).
    apply inject_Z_lt_inv in Ha, Hc. lia.
Qed.

Lemma round_half_even_mono_bounds q (lo hi : Z) :
  inject_Z lo <= q -> q <= inject_Z hi -> (lo <= round_half_even q <= hi)%Z.
Proof.
  intros Hlo Hhi. destruct (round_half_even_spec q) as [Hb _].
  cbn zeta in Hb. set (r := round_half_even q) in *.
  assert (inject_Z (lo - 1) < inject_Z r) as Ha
    by (unfold Z.sub; rewrite inject_Z_plus, inject_Z_opp;
          change (inject_Z 1) with 1; lra).
  assert (inject_Z r < inject_Z (hi + 1)) as Hc
    by (rewrite inject_Z_plus; change (inject_Z 1) with 1; lra).
  apply inject_Z_lt_inv in Ha, Hc. lia.
Qed.

(** Rounding to the nearest integer preserves order. *)
Lemma round_half_even_monotone a b :
  a <= b -> (round_half_even a <= round_half_even b)%Z.
Proof.
  intros Hab.
  destruct (round_half_even_spec a) as [[Ha1 Ha2] Hta].
  destruct (round_half_even_spec b) as [[Hb1 Hb2] Htb].
  cbn zeta in *.
  set (za := round_half_even a) in *. set (zb := round_half_even b) in *.
  destruct (Z_le_gt_dec za zb) as [Hle | Hgt]; [exact Hle | exfalso].
  assert (inject_Z (zb + 1) <= inject_Z za) as Hq
    by (rewrite <- Zle_Qle; lia).
  rewrite inject_Z_plus in Hq. change (inject_Z 1) with 1 in Hq.
  assert (a == inject_Z za - (1 # 2)) as Ea by lra.
  assert (b == inject_Z zb + (1 # 2)) as Eb by lra.
  assert (inject_Z za == inject_Z zb + 1) as Ez by lra.
  specialize (Hta (or_intror Ea)). specialize (Htb (or_introl Eb)).
  assert (za = zb + 1)%Z as Hz.
  { apply (proj1 (inject_Z_injective za (zb + 1)%Z)).
    rewrite inject_Z_plus. exact Ez. }
  rewrite Hz, Z.even_add, Htb in Hta. discriminate.
Qed.

End Rounding.


(** ** Rounding to an IEEE 754 binary format *)

Section IeeeRounding.
Import Np Ieee.
Local Open Scope Q_scope.

Lemma pow2_pos e : 0 < pow2 e.
Proof. apply Qpower_0_lt. reflexivity. Qed.

Lemma pow2_plus a b : pow2 (a + b) == pow2 a * pow2 b.
Proof. apply Qpower_plus. discriminate. Qed.

Lemma pow2_le a b : (a <= b)%Z -> pow2 a <= pow2 b.
Proof. intros H. apply Qpower_le_compat_l; [exact H | discriminate]. Qed.

Lemma pow2_lt a b : (a < b)%Z -> pow2 a < pow2 b.
Proof. intros H. apply Qpower_lt_compat_l; [exact H | reflexivity]. Qed.

Lemma pow2_lt_inv a b : pow2 a < pow2 b -> (a < b)%Z.
Proof. intros H. apply (Qpower_lt_compat_l_inv 2); [exact H | reflexivity]. Qed.

Lemma pow2_nonneg_Z k : (0 <= k)%Z -> pow2 k == inject_Z (2 ^ k).
Proof. intros H. unfold pow2. now rewrite Zpower_Qpower. Qed.

Lemma pow2_succ e : pow2 (e + 1) == 2 * pow2 e.
Proof. rewrite pow2_plus. change (pow2 1) with 2. ring. Qed.

Lemma pow2_div a b : pow2 a / pow2 b == pow2 (a - b).
Proof.
  pose proof (pow2_pos b) as Hb.
  replace a with ((a - b) + b)%Z at 1 by ring.
  rewrite pow2_plus. field. lra.
Qed.

(** [ilog2] brackets a positive number between two powers of two. *)
Lemma ilog2_spec q : 0 < q -> pow2 (ilog2 q) <= q < pow2 (ilog2 q + 1).
Proof.
  intros Hq. destruct q as [n d].
  assert (0 < n)%Z as Hn by (unfold Qlt in Hq; cbn in Hq; lia).
  unfold ilog2. cbn [Qnum Qden].
  set (a := Z.log2 n). set (b := Z.log2 (Z.pos d)).
  assert (0 <= a)%Z as Ha0 by apply Z.log2_nonneg.
  assert (0 <= b)%Z as Hb0 by apply Z.log2_nonneg.
  destruct (Z.log2_spec n Hn) as [Hn1 Hn2]. fold a in Hn1, Hn2.
  destruct (Z.log2_spec (Z.pos d) ltac:(lia)) as [Hd1 Hd2]. fold b in Hd1, Hd2.
  assert (n # d == inject_Z n / inject_Z (Z.pos d)) as Eq by apply Qmake_Qdiv.
  assert (0 < inject_Z (Z.pos d)) as Hdpos by (rewrite <- (Zlt_Qlt 0); lia).
  assert (pow2 a <= inject_Z n) as Q1
    by (rewrite pow2_nonneg_Z by lia; now rewrite <- Zle_Qle).
  assert (inject_Z n < pow2 (a + 1)) as Q2
    by (rewrite pow2_nonneg_Z by lia; rewrite <- Zlt_Qlt; now rewrite <- Z.add_1_r in Hn2).
  assert (pow2 b <= inject_Z (Z.pos d)) as Q3
    by (rewrite pow2_nonneg_Z by lia; now rewrite <- Zle_Qle).
  assert (inject_Z (Z.pos d) < pow2 (b + 1)) as Q4
    by (rewrite pow2_nonneg_Z by lia; rewrite <- Zlt_Qlt; now rewrite <- Z.add_1_r in Hd2).
  pose proof (pow2_pos a) as Pa. pose proof (pow2_pos b) as Pb.
  (* n/d < 2^(a-b+1) and 2^(a-b-1) < n/d *)
  assert (n # d < pow2 (a - b + 1)) as Hup.
  { rewrite Eq. apply Qlt_shift_div_r; [exact Hdpos |].
    apply Qlt_le_trans with (pow2 (a + 1)); [exact Q2 |].
    replace (a + 1)%Z with ((a - b + 1) + b)%Z by ring.
    rewrite pow2_plus. apply Qmult_le_l; [apply pow2_pos | exact Q3]. }
  assert (pow2 (a - b - 1) <= n # d) as Hlow.
  { rewrite Eq. apply Qle_shift_div_l; [exact Hdpos |].
    apply Qle_trans with (pow2 a); [| exact Q1].
    replace a with ((a - b - 1) + (b + 1))%Z at 2 by ring.
    rewrite pow2_plus. apply Qmult_le_l; [apply pow2_pos |].
    now apply Qlt_le_weak. }
  destruct (Qle_bool (pow2 (a - b)) (n # d)) eqn:E.
  - apply Qle_bool_iff in E. split; assumption.
  - assert (n # d < pow2 (a - b)) as Hlt.
    { destruct (Qlt_le_dec (n # d) (pow2 (a - b))) as [H | H]; [exact H |].
      apply Qle_bool_iff in H. congruence. }
    replace (a - b - 1 + 1)%Z with (a - b)%Z by ring. split; assumption.
Qed.

Lemma ilog2_lt q k : 0 < q -> q < pow2 k -> (ilog2 q < k)%Z.
Proof.
  intros Hq Hk. destruct (ilog2_spec q Hq) as [H1 _].
  apply pow2_lt_inv. now apply Qle_lt_trans with q.
Qed.

Lemma ilog2_le q k : 0 < q -> pow2 k <= q -> (k <= ilog2 q)%Z.
Proof.
  intros Hq Hk. destruct (ilog2_spec q Hq) as [_ H2].
  assert (k < ilog2 q + 1)%Z; [| lia].
  apply pow2_lt_inv. now apply Qle_lt_trans with q.
Qed.

Lemma ilog2_monotone a b : 0 < a -> a <= b -> (ilog2 a <= ilog2 b)%Z.
Proof.
  intros Ha Hab. apply ilog2_le; [lra |].
  destruct (ilog2_spec a Ha) as [H1 _]. lra.
Qed.

Lemma ulp_exp_monotone f a b :
  0 < a -> a <= b -> (ulp_exp f a <= ulp_exp f b)%Z.
Proof.
  intros Ha Hab. unfold ulp_exp.
  pose proof (ilog2_monotone a b Ha Hab). lia.
Qed.


Lemma round_half_even_comp a b :
  a == b -> round_half_even a = round_half_even b.
Proof.
  intros E. apply Z.le_antisymm; apply round_half_even_monotone; lra.
Qed.

Lemma round_half_even_inject_Z z : round_half_even (inject_Z z) = z.
Proof.
  unfold round_half_even. rewrite Qfloor_Z.
  assert ((inject_Z z - inject_Z z ?= 1 # 2) = Lt) as ->; [| reflexivity].
  rewrite <- Qlt_alt. lra.
Qed.

Lemma round_half_even_nonneg q : 0 <= q -> (0 <= round_half_even q)%Z.
Proof.
  intros H. rewrite <- (round_half_even_inject_Z 0).
  now apply round_half_even_monotone.
Qed.

(** The value of [round_mag], before normalisation of the fraction. *)
Lemma round_mag_value f q :
  round_mag f q ==
  inject_Z (round_half_even (q / pow2 (ulp_exp f q))) * pow2 (ulp_exp f q).
Proof. unfold round_mag. apply Qred_correct. Qed.

Lemma round_mag_nonneg f q : 0 <= q -> 0 <= round_mag f q.
Proof.
  intros H. rewrite round_mag_value.
  pose proof (pow2_pos (ulp_exp f q)) as Hu.
  apply Qmult_le_0_compat; [| lra].
  rewrite <- (Zle_Qle 0). apply round_half_even_nonneg.
  apply Qle_shift_div_l; [exact Hu | lra].
Qed.

(** Rounding moves a number by at most half a unit in the last place. *)
Lemma round_mag_error f q :
  Qabs (round_mag f q - q) <= pow2 (ulp_exp f q) / 2.
Proof.
  rewrite round_mag_value.
  set (u := pow2 (ulp_exp f q)).
  assert (0 < u) as Hu by apply pow2_pos.
  destruct (round_half_even_spec (q / u)) as [[H1 H2] _]. cbn zeta in H1, H2.
  set (z := inject_Z (round_half_even (q / u))) in *.
  assert (q == q / u * u) as Eq by (field; lra).
  assert ((z - (1 # 2)) * u <= q / u * u) as L1
    by (apply Qmult_le_compat_r; lra).
  assert (q / u * u <= (z + (1 # 2)) * u) as L2
    by (apply Qmult_le_compat_r; lra).
  set (x := q / u * u) in *. clearbody x z.
  assert (u / 2 == u * (1 # 2)) as -> by field.
  apply Qabs_Qle_condition. split; lra.
Qed.

(** A power of two that is a multiple of the unit in the last place. *)
Lemma pow2_multiple k e :
  (e <= k)%Z -> exists z, pow2 k == inject_Z z * pow2 e.
Proof.
  intros H. exists (2 ^ (k - e))%Z.
  rewrite <- pow2_nonneg_Z by lia. rewrite <- pow2_plus.
  now replace (k - e + e)%Z with k by ring.
Qed.

Lemma round_mag_below f q z :
  0 < q -> q <= inject_Z z * pow2 (ulp_exp f q) ->
  round_mag f q <= inject_Z z * pow2 (ulp_exp f q).
Proof.
  intros Hq H. rewrite round_mag_value.
  set (u := pow2 (ulp_exp f q)) in *.
  assert (0 < u) as Hu by apply pow2_pos.
  apply Qmult_le_compat_r; [| lra].
  rewrite <- Zle_Qle.
  apply Z.le_trans with (round_half_even (inject_Z z));
    [| rewrite round_half_even_inject_Z; lia].
  apply round_half_even_monotone.
  apply Qle_shift_div_r; [exact Hu | exact H].
Qed.

Lemma round_mag_above f q z :
  0 < q -> inject_Z z * pow2 (ulp_exp f q) <= q ->
  inject_Z z * pow2 (ulp_exp f q) <= round_mag f q.
Proof.
  intros Hq H. rewrite round_mag_value.
  set (u := pow2 (ulp_exp f q)) in *.
  assert (0 < u) as Hu by apply pow2_pos.
  apply Qmult_le_compat_r; [| lra].
  rewrite <- Zle_Qle.
  apply Z.le_trans with (round_half_even (inject_Z z));
    [rewrite round_half_even_inject_Z; lia |].
  apply round_half_even_monotone.
  apply Qle_shift_div_l; [exact Hu | exact H].
Qed.

(** Rounding of positive magnitudes preserves order. *)
Lemma round_mag_monotone f a b :
  (1 <= prec f)%Z -> 0 < a -> a <= b -> round_mag f a <= round_mag f b.
Proof.
  intros Hp Ha Hab.
  assert (0 < b) as Hb by lra.
  pose proof (ulp_exp_monotone f a b Ha Hab) as Hu.
  destruct (Z.eq_dec (ulp_exp f a) (ulp_exp f b)) as [E | Hne].
  - rewrite !round_mag_value, E.
    set (u := pow2 (ulp_exp f b)).
    assert (0 < u) as Hupos by apply pow2_pos.
    apply Qmult_le_compat_r; [| lra].
    rewrite <- Zle_Qle. apply round_half_even_monotone.
    apply Qmult_le_compat_r; [exact Hab |].
    apply Qlt_le_weak, Qinv_lt_0_compat, Hupos.
  - (* b lies in a higher binade: the power of two in between is kept *)
    assert (ulp_exp f a < ulp_exp f b)%Z as Hlt by lia.
    unfold ulp_exp in Hlt.
    assert (emin f < ilog2 b /\ ilog2 a < ilog2 b)%Z as [Hb1 Hb2] by lia.
    set (k := ilog2 b).
    destruct (ilog2_spec a Ha) as [_ Ha2].
    destruct (ilog2_spec b Hb) as [Hb3 _]. fold k in Hb3.
    assert (a <= pow2 k) as Hak.
    { apply Qlt_le_weak, Qlt_le_trans with (pow2 (ilog2 a + 1)); [exact Ha2 |].
      apply pow2_le. lia. }
    apply Qle_trans with (pow2 k).
    + destruct (pow2_multiple k (ulp_exp f a)) as [z Hz];
        [unfold ulp_exp; lia |].
      rewrite Hz. apply round_mag_below; [exact Ha | now rewrite <- Hz].
    + destruct (pow2_multiple k (ulp_exp f b)) as [z Hz];
        [unfold ulp_exp; fold k; lia |].
      rewrite Hz. apply round_mag_above; [exact Hb | now rewrite <- Hz].
Qed.


Lemma round_pos f q :
  0 < q ->
  round f q = if Qle_bool (pow2 (emax f + 1)) (round_mag f q)
              then PInf else Fin (round_mag f q).
Proof.
  intros H. unfold round.
  destruct (Qcompare_spec q 0) as [E | E | E]; [lra | lra | reflexivity].
Qed.

Lemma round_neg f q :
  q < 0 ->
  round f q = if Qle_bool (pow2 (emax f + 1)) (round_mag f (- q))
              then NInf else Fin (- round_mag f (- q)).
Proof.
  intros H. unfold round.
  destruct (Qcompare_spec q 0) as [E | E | E]; [lra | reflexivity | lra].
Qed.

Lemma round_zero f q : q == 0 -> round f q = Fin 0.
Proof.
  intros H. unfold round.
  destruct (Qcompare_spec q 0) as [E | E | E]; [reflexivity | lra | lra].
Qed.

Lemma round_not_nan f q : round f q <> NaN.
Proof.
  unfold round. destruct (q ?= 0);
    try destruct (Qle_bool _ _); discriminate.
Qed.

Lemma Qle_bool_false x y : Qle_bool x y = false -> y < x.
Proof.
  intros E. destruct (Qlt_le_dec y x) as [H | H]; [exact H |].
  apply Qle_bool_iff in H. congruence.
Qed.

(** Rounding preserves order, overflow to an infinity included. *)
Lemma round_monotone f a b :
  (1 <= prec f)%Z -> a <= b -> fval_le (round f a) (round f b).
Proof.
  intros Hp Hab.
  destruct (Q_dec a 0) as [[Ha | Ha] | Ha];
    destruct (Q_dec b 0) as [[Hb | Hb] | Hb]; try lra.
  - (* both negative *)
    rewrite (round_neg f a Ha), (round_neg f b Hb).
    pose proof (round_mag_monotone f (- b) (- a) Hp ltac:(lra) ltac:(lra)) as Hm.
    destruct (Qle_bool _ (round_mag f (- a))) eqn:Ea;
      destruct (Qle_bool _ (round_mag f (- b))) eqn:Eb; cbn; try exact I.
    + apply Qle_bool_iff in Eb. apply Qle_bool_false in Ea. lra.
    + lra.
  - rewrite (round_neg f a Ha), (round_pos f b Hb).
    pose proof (round_mag_nonneg f (- a) ltac:(lra)).
    pose proof (round_mag_nonneg f b ltac:(lra)).
    destruct (Qle_bool _ (round_mag f (- a)));
      destruct (Qle_bool _ (round_mag f b)); cbn; try exact I. lra.
  - rewrite (round_neg f a Ha), (round_zero f b Hb).
    pose proof (round_mag_nonneg f (- a) ltac:(lra)).
    destruct (Qle_bool _ (round_mag f (- a))); cbn; [exact I | lra].
  - (* both positive *)
    rewrite (round_pos f a Ha), (round_pos f b Hb).
    pose proof (round_mag_monotone f a b Hp Ha Hab) as Hm.
    destruct (Qle_bool _ (round_mag f a)) eqn:Ea;
      destruct (Qle_bool _ (round_mag f b)) eqn:Eb; cbn; try exact I.
    + apply Qle_bool_iff in Ea. apply Qle_bool_false in Eb. lra.
    + exact Hm.
  - rewrite (round_zero f a Ha), (round_pos f b Hb).
    pose proof (round_mag_nonneg f b ltac:(lra)).
    destruct (Qle_bool _ (round_mag f b)); cbn; [exact I | lra].
  - rewrite (round_zero f a Ha), (round_zero f b Hb). cbn. lra.
Qed.

(** Below [2^k], inside the exponent range, rounding gives a finite value
    at most [2^(k - 1 - prec)] away. *)
Lemma round_error f q k :
  (1 <= prec f)%Z -> (emin f < k <= emax f)%Z -> Qabs q < pow2 k ->
  exists r, round f q = Fin r /\ Qabs (r - q) <= pow2 (k - 1 - prec f).
Proof.
  intros Hp Hk Hq.
  assert (forall m, 0 < m -> m < pow2 k ->
            round_mag f m < pow2 (emax f + 1) /\
            Qabs (round_mag f m - m) <= pow2 (k - 1 - prec f)) as Hmag.
  { intros m Hm Hmk.
    pose proof (round_mag_error f m) as He.
    assert (ulp_exp f m <= k - prec f)%Z as Hu.
    { unfold ulp_exp. pose proof (ilog2_lt m k Hm Hmk). lia. }
    assert (pow2 (ulp_exp f m) / 2 <= pow2 (k - 1 - prec f)) as Hh.
    { apply Qle_shift_div_r; [reflexivity |].
      assert (pow2 (k - 1 - prec f) * 2 == pow2 (k - prec f)) as ->.
      { replace (k - prec f)%Z with ((k - 1 - prec f) + 1)%Z by ring.
        rewrite pow2_succ. ring. }
      now apply pow2_le. }
    split; [| lra].
    assert (pow2 (k - 1 - prec f) <= pow2 k) as Hs by (apply pow2_le; lia).
    assert (pow2 (k + 1) <= pow2 (emax f + 1)) as Ht by (apply pow2_le; lia).
    rewrite pow2_succ in Ht.
    apply Qabs_Qle_condition in He. lra. }
  destruct (Q_dec q 0) as [[Hneg | Hpos] | Hz].
  - rewrite (round_neg f q Hneg).
    rewrite Qabs_neg in Hq by lra.
    destruct (Hmag (- q) ltac:(lra) Hq) as [Hfin Herr].
    destruct (Qle_bool _ _) eqn:E; [apply Qle_bool_iff in E; lra |].
    eexists. split; [reflexivity |].
    assert (- round_mag f (- q) - q == - (round_mag f (- q) - - q)) as ->
      by ring.
    now rewrite Qabs_opp.
  - rewrite (round_pos f q Hpos).
    rewrite Qabs_pos in Hq by lra.
    destruct (Hmag q Hpos Hq) as [Hfin Herr].
    destruct (Qle_bool _ _) eqn:E; [apply Qle_bool_iff in E; lra |].
    eexists. split; [reflexivity | exact Herr].
  - rewrite (round_zero f q Hz). exists 0. split; [reflexivity |].
    assert (0 - q == 0) as -> by lra. cbn.
    apply Qlt_le_weak, pow2_pos.
Qed.

(** An integer below [2^24] in magnitude is a value of the format: rounding
    leaves it as it is. *)
Lemma round_mag_integer f z :
  at_least_binary32 f -> (0 < z < 2 ^ 24)%Z ->
  round_mag f (inject_Z z) == inject_Z z.
Proof.
  intros (Hp & Hlo & Hhi) Hz.
  assert (0 < inject_Z z) as Hq by (rewrite <- (Zlt_Qlt 0); lia).
  assert (ulp_exp f (inject_Z z) <= 0)%Z as Hu.
  { unfold ulp_exp.
    assert (ilog2 (inject_Z z) < 24)%Z; [| lia].
    apply ilog2_lt; [exact Hq |].
    rewrite pow2_nonneg_Z by lia. rewrite <- Zlt_Qlt. lia. }
  destruct (pow2_multiple 0 (ulp_exp f (inject_Z z)) Hu) as [w Hw].
  change (pow2 0) with 1 in Hw.
  assert (inject_Z z ==
          inject_Z (z * w) * pow2 (ulp_exp f (inject_Z z))) as E.
  { rewrite inject_Z_mult, <- Qmult_assoc, <- Hw. ring. }
  apply Qle_antisym.
  - rewrite E at 2. apply round_mag_below; [exact Hq |].
    rewrite <- E. apply Qle_refl.
  - rewrite E at 1. apply round_mag_above; [exact Hq |].
    rewrite <- E. apply Qle_refl.
Qed.

Lemma round_integer f z :
  at_least_binary32 f -> (- 2 ^ 24 < z < 2 ^ 24)%Z ->
  exists r, round f (inject_Z z) = Fin r /\ r == inject_Z z.
Proof.
  intros Hf Hz.
  assert (forall m, (0 < m < 2 ^ 24)%Z ->
            Qle_bool (pow2 (emax f + 1)) (round_mag f (inject_Z m)) = false)
    as Hfin.
  { intros m Hm. destruct (Qle_bool _ _) eqn:E; [| reflexivity].
    apply Qle_bool_iff in E. rewrite (round_mag_integer f m Hf Hm) in E.
    assert (inject_Z m < pow2 24) as Hlt
      by (rewrite pow2_nonneg_Z by lia; rewrite <- Zlt_Qlt; lia).
    assert (pow2 24 <= pow2 (emax f + 1)) as Hle
      by (apply pow2_le; destruct Hf as (_ & _ & ?); lia).
    lra. }
  destruct (Z.lt_trichotomy z 0) as [Hneg | [-> | Hpos]].
  - assert (inject_Z z < 0) as Hq by (change 0 with (inject_Z 0); rewrite <- Zlt_Qlt; lia).
    rewrite (round_neg f _ Hq).
    assert (- inject_Z z == inject_Z (- z)) as Eo by (now rewrite inject_Z_opp).
    assert (round_mag f (- inject_Z z) = round_mag f (inject_Z (- z))) as ->.
    { unfold round_mag, ulp_exp, ilog2. reflexivity. }
    rewrite (Hfin (- z)%Z) by lia. eexists. split; [reflexivity |].
    rewrite (round_mag_integer f (- z)%Z Hf) by lia.
    rewrite inject_Z_opp. ring.
  - exists 0. split; [reflexivity | reflexivity].
  - assert (0 < inject_Z z) as Hq by (rewrite <- (Zlt_Qlt 0); lia).
    rewrite (round_pos f _ Hq), (Hfin z) by lia.
    eexists. split; [reflexivity |]. apply round_mag_integer; [exact Hf | lia].
Qed.
End IeeeRounding.

(** ** The uint8 encoder of process_data.py, cell by cell *)

Section BinaryEncoder.
Import Np ProcessData.
Local Open Scope Q_scope.

Lemma encode_cell_fin v :
  encode_cell (Fin v) = (Qtrunc (clipped v) mod 256)%Z.
Proof. reflexivity. Qed.

Lemma clipped_range v : 0 <= clipped v <= 254.
Proof.
  unfold clipped.
  set (y := (v - SST_MIN) / SST_RANGE * 254).
  pose proof (Q.max_spec y 0) as Hmax.
  pose proof (Q.min_spec (Qmax y 0) 254) as Hmin.
  set (m := Qmax y 0) in *. set (c := Qmin m 254) in *.
  destruct Hmax as [[? ?] | [? ?]]; destruct Hmin as [[? ?] | [? ?]]; lra.
Qed.

Lemma clipped_in_domain v :
  SST_MIN <= v <= SST_MAX -> clipped v == (v + 2) * (254 # 34).
Proof.
  unfold clipped, SST_RANGE, SST_MIN, SST_MAX. intros [Hlo Hhi].
  set (y := (v - -2) / (32 - -2) * 254).
  assert (y == (v + 2) * (254 # 34)) as Ey by (unfold y; field).
  clearbody y.
  rewrite Q.max_l by lra. rewrite Q.min_l by lra. exact Ey.
Qed.

Lemma clipped_below v : v < SST_MIN -> clipped v == 0.
Proof.
  unfold clipped, SST_RANGE, SST_MIN, SST_MAX. intros Hlt.
  set (y := (v - -2) / (32 - -2) * 254).
  assert (y == (v + 2) * (254 # 34)) as Ey by (unfold y; field).
  clearbody y.
  rewrite Q.max_r by lra. rewrite Q.min_l by lra. reflexivity.
Qed.

Lemma clipped_above v : SST_MAX < v -> clipped v == 254.
Proof.
  unfold clipped, SST_RANGE, SST_MIN, SST_MAX. intros Hlt.
  set (y := (v - -2) / (32 - -2) * 254).
  assert (y == (v + 2) * (254 # 34)) as Ey by (unfold y; field).
  clearbody y.
  rewrite Q.max_l by lra. rewrite Q.min_r by lra. reflexivity.
Qed.

(** For a finite cell the cast is a plain floor: the clipped value is never
    negative and its integer part fits in 8 bits. *)
Lemma encode_cell_floor v :
  encode_cell (Fin v) = Qfloor (clipped v) /\
  (0 <= encode_cell (Fin v) <= 254)%Z.
Proof.
  rewrite encode_cell_fin.
  destruct (clipped_range v) as [H0 H1].
  rewrite Qtrunc_nonneg by assumption.
  assert (0 <= Qfloor (clipped v) <= 254)%Z as Hb
    by (apply Qfloor_bounds; assumption).
  rewrite Z.mod_small by lia. split; [reflexivity | exact Hb].
Qed.


Lemma encode_cell_ninf : encode_cell NInf = 0%Z.
Proof. vm_compute. reflexivity. Qed.

Lemma encode_cell_pinf : encode_cell PInf = 254%Z.
Proof. vm_compute. reflexivity. Qed.


Lemma encode_cell_not_nan x : x <> NaN -> (0 <= encode_cell x <= 254)%Z.
Proof.
  destruct x as [| | | v]; intros Hx.
  - congruence.
  - rewrite encode_cell_ninf. lia.
  - rewrite encode_cell_pinf. lia.
  - apply encode_cell_floor.
Qed.

Lemma encode_cell_sentinel x : encode_cell x = NODATA <-> x = NaN.
Proof.
  split.
  - intros E. destruct x as [| | | v]; [reflexivity | | |].
    + rewrite encode_cell_ninf in E. discriminate.
    + rewrite encode_cell_pinf in E. discriminate.
    + destruct (encode_cell_floor v) as [_ H]. unfold NODATA in E. lia.
  - intros ->. reflexivity.
Qed.

End BinaryEncoder.

(** ** Indexing and elementwise operations on arrays *)

Section Arrays.
Import Np.
Local Open Scope nat_scope.
Context {A B : Type}.

Lemma take_idx_length (a : list A) idx out :
  take_idx a idx = Some out -> length out = length idx.
Proof.
  intros H. apply mapM_Some in H. symmetry. eapply Forall2_length, H.
Qed.

Lemma take_idx_lookup (a : list A) idx out k i :
  take_idx a idx = Some out -> idx !! k = Some i -> out !! k = a !! i.
Proof.
  intros H Hk. apply mapM_Some in H.
  destruct (Forall2_lookup_l _ _ _ _ _ H Hk) as (y & Hy & E).
  now rewrite Hy, E.
Qed.

Lemma take_idx_is_Some (a : list A) idx :
  Forall (fun i => i < length a) idx -> is_Some (take_idx a idx).
Proof.
  intros H. apply mapM_is_Some. eapply Forall_impl; [exact H |].
  intros i Hi. now apply lookup_lt_is_Some.
Qed.

Lemma take_idx_fmap (f : A -> B) (a : list A) idx :
  take_idx (f <$> a) idx = (fun l : list A => f <$> l) <$> take_idx a idx.
Proof.
  unfold take_idx. induction idx as [| i idx IH]; [reflexivity |].
  cbn. rewrite list_lookup_fmap.
  destruct (a !! i); [| reflexivity]. cbn in *.
  rewrite IH. now destruct (mapM (fun i => a !! i) idx).
Qed.

Lemma take_cols_length (a : list (list A)) idx out :
  take_cols a idx = Some out -> length out = length a.
Proof.
  intros H. apply mapM_Some in H. symmetry. eapply Forall2_length, H.
Qed.

Lemma take_cols_lookup (a : list (list A)) idx out i row :
  take_cols a idx = Some out -> a !! i = Some row ->
  exists row', out !! i = Some row' /\ take_idx row idx = Some row'.
Proof.
  intros H Hi. apply mapM_Some in H.
  destruct (Forall2_lookup_l _ _ _ _ _ H Hi) as (y & Hy & E). eauto.
Qed.

Lemma take_cols_is_Some (a : list (list A)) idx n :
  Forall (fun row => length row = n) a -> Forall (fun j => j < n) idx ->
  is_Some (take_cols a idx).
Proof.
  intros Ha Hidx. apply mapM_is_Some. eapply Forall_impl; [exact Ha |].
  intros row <-. now apply take_idx_is_Some.
Qed.

Lemma cell_map2d (f : A -> B) (a : list (list A)) i j :
  cell (map2d f a) i j = f <$> cell a i j.
Proof.
  unfold cell, map2d. rewrite list_lookup_fmap.
  destruct (a !! i) as [row |]; [| reflexivity].
  cbn. apply list_lookup_fmap.
Qed.

Lemma map2d_map2d {C} (g : B -> C) (f : A -> B) (a : list (list A)) :
  map2d g (map2d f a) = map2d (fun x => g (f x)) a.
Proof.
  unfold map2d. rewrite <- list_fmap_compose. apply list_fmap_ext.
  intros _ row _. cbn. now rewrite <- list_fmap_compose.
Qed.

Lemma mask_assign_map2d (f : A -> B) (p : A -> bool) v (a : list (list A)) :
  mask_assign (map2d f a) (map2d p a) v =
  map2d (fun x => if p x then v else f x) a.
Proof.
  unfold mask_assign, map2d.
  rewrite zip_with_fmap_l, zip_with_fmap_r, zip_with_diag.
  apply list_fmap_ext. intros _ row _.
  now rewrite zip_with_fmap_l, zip_with_fmap_r, zip_with_diag.
Qed.

Lemma where_scalar_map2d (f : A -> B) (p : A -> bool) v (a : list (list A)) :
  where_scalar (map2d p a) v (map2d f a) =
  map2d (fun x => if p x then v else f x) a.
Proof.
  unfold where_scalar, map2d.
  rewrite zip_with_fmap_l, zip_with_fmap_r, zip_with_diag.
  apply list_fmap_ext. intros _ row _.
  now rewrite zip_with_fmap_l, zip_with_fmap_r, zip_with_diag.
Qed.

(** [np.where] over one array and a condition on its elements is a map. *)
Lemma where_fmap (p : A -> bool) (f : A -> A) (a : list A) :
  where_ (p <$> a) (f <$> a) a = (fun x => if p x then f x else x) <$> a.
Proof.
  unfold where_. induction a as [| x a IH]; [reflexivity |].
  cbn. now rewrite IH.
Qed.

End Arrays.

(** ** Sorting by key and [argsort] *)

Section Sorting.
Import Np.
Local Open Scope nat_scope.

Lemma insert_by_key_perm p l : insert_by_key p l ≡ₚ p :: l.
Proof.
  induction l as [| q l IH]; [reflexivity |].
  cbn. destruct (Qle_bool p.1 q.1); [reflexivity |].
  rewrite IH. apply Permutation_swap.
Qed.

Lemma sort_by_key_perm l : sort_by_key l ≡ₚ l.
Proof.
  induction l as [| p l IH]; [reflexivity |].
  cbn. now rewrite insert_by_key_perm, IH.
Qed.

Lemma insert_by_key_sorted p l :
  StronglySorted key_le l -> StronglySorted key_le (insert_by_key p l).
Proof.
  induction 1 as [| q l Hs IH Hq]; cbn.
  - repeat constructor.
  - destruct (Qle_bool p.1 q.1) eqn:E.
    + apply Qle_bool_iff in E. constructor; [now constructor |].
      constructor; [exact E |].
      eapply Forall_impl; [exact Hq |].
      intros r Hr. unfold key_le in *. now apply Qle_trans with q.1.
    + assert (key_le q p) as Hqp.
      { unfold key_le. destruct (Qlt_le_dec q.1 p.1) as [Hlt | Hle].
        - now apply Qlt_le_weak.
        - apply Qle_bool_iff in Hle. congruence. }
      constructor; [exact IH |].
      rewrite insert_by_key_perm. now constructor.
Qed.

Lemma sort_by_key_sorted l : StronglySorted key_le (sort_by_key l).
Proof.
  induction l as [| p l IH]; cbn; [constructor |].
  now apply insert_by_key_sorted.
Qed.

Lemma distinctb_cons x r :
  distinctb (x :: r) = true <->
  Forall (fun y => ~ (x == y)%Q) r /\ distinctb r = true.
Proof.
  cbn. rewrite andb_true_iff, forallb_forall, Forall_forall.
  split; intros [H1 H2]; (split; [| exact H2]); intros y Hy.
  - apply list_elem_of_In in Hy. specialize (H1 y Hy).
    apply negb_true_iff in H1. now apply Qeq_bool_neq.
  - apply list_elem_of_In in Hy. specialize (H1 y Hy).
    apply negb_true_iff. destruct (Qeq_bool x y) eqn:E; [| reflexivity].
    apply Qeq_bool_iff in E. contradiction.
Qed.

(** The meaning of [pairwise_distinct], by positions. *)
Lemma pairwise_distinct_lookup a :
  pairwise_distinct a <->
  forall i j x y, i <> j -> a !! i = Some x -> a !! j = Some y -> ~ (x == y)%Q.
Proof.
  unfold pairwise_distinct. induction a as [| z a IH].
  - split; [intros _ i j x y _ Hi; discriminate | reflexivity].
  - rewrite distinctb_cons, IH, Forall_lookup. split.
    + intros [Hz Ha] [| i] [| j] x y Hne Hi Hj; cbn in Hi, Hj.
      * congruence.
      * injection Hi as <-. eapply Hz, Hj.
      * injection Hj as <-. intros E. eapply Hz; [exact Hi |]. now symmetry.
      * eapply Ha; [| exact Hi | exact Hj]. congruence.
    + intros H. split.
      * intros j y Hj. apply (H 0 (S j) z y); [discriminate | reflexivity | exact Hj].
      * intros i j x y Hne Hi Hj. apply (H (S i) (S j) x y); [congruence | exact Hi | exact Hj].
Qed.

Lemma insert_by_key_strict p l :
  StronglySorted key_lt l -> Forall (fun q => ~ (p.1 == q.1)%Q) l ->
  StronglySorted key_lt (insert_by_key p l).
Proof.
  induction 1 as [| q l Hs IH Hq]; cbn; intros Hp.
  - repeat constructor.
  - apply Forall_cons in Hp as [Hpq Hp].
    destruct (Qle_bool p.1 q.1) eqn:E.
    + apply Qle_bool_iff in E.
      assert (key_lt p q) as Hlt.
      { unfold key_lt. apply Qle_lt_or_eq in E as [E | E]; [exact E | contradiction]. }
      constructor; [now constructor |].
      constructor; [exact Hlt |].
      eapply Forall_impl; [exact Hq |].
      intros r Hr. unfold key_lt in *. now apply Qlt_trans with q.1.
    + assert (key_lt q p) as Hqp.
      { unfold key_lt. destruct (Qlt_le_dec q.1 p.1) as [Hlt | Hle]; [exact Hlt |].
        apply Qle_bool_iff in Hle. congruence. }
      constructor; [now apply IH |].
      rewrite insert_by_key_perm. now constructor.
Qed.

Lemma sort_by_key_strict l :
  distinctb l.*1 = true -> StronglySorted key_lt (sort_by_key l).
Proof.
  induction l as [| p l IH]; cbn [sort_by_key]; intros Hd; [constructor |].
  rewrite fmap_cons in Hd. apply distinctb_cons in Hd as [Hp Hd].
  apply insert_by_key_strict; [now apply IH |].
  rewrite sort_by_key_perm. apply Forall_forall. intros q Hq.
  eapply (proj1 (Forall_forall _ _) Hp). now apply list_elem_of_fmap_2.
Qed.

(** A list sorted strictly by key is the only sorted arrangement of its
    elements. *)
Lemma sorted_by_key_unique l1 l2 :
  StronglySorted key_lt l1 -> StronglySorted key_le l2 -> l1 ≡ₚ l2 -> l1 = l2.
Proof.
  intros H1. revert l2.
  induction H1 as [| a l1 Hs IH Ha]; intros l2 H2 Hp.
  - now apply Permutation_nil_l in Hp.
  - destruct H2 as [| b l2 Hs2 Hb].
    + now apply Permutation_nil_r in Hp.
    + assert (a = b) as ->.
      { assert (a ∈ b :: l2) as Hin by (rewrite <- Hp; left).
        assert (b ∈ a :: l1) as Hin' by (rewrite Hp; left).
        apply elem_of_cons in Hin as [E | Hin]; [exact E |].
        apply elem_of_cons in Hin' as [E | Hin']; [now symmetry |].
        rewrite Forall_forall in Ha, Hb.
        specialize (Ha _ Hin'). specialize (Hb _ Hin).
        unfold key_lt, key_le in *. exfalso.
        apply (Qlt_irrefl a.1). now apply Qlt_le_trans with b.1. }
      f_equal. apply IH; [exact Hs2 |].
      now apply Permutation_cons_inv in Hp.
Qed.

Lemma sorted_keys_le (l : list (Q * nat)) :
  StronglySorted key_le l <-> StronglySorted Qle l.*1.
Proof.
  induction l as [| p l IH]; cbn.
  - split; constructor.
  - split; intros H; inversion H as [| ? ? Hs Hp]; subst;
      (constructor; [now apply IH |]).
    + apply Forall_forall. intros k Hk.
      apply list_elem_of_fmap in Hk as (q & -> & Hq).
      now apply (proj1 (Forall_forall _ _) Hp).
    + apply Forall_forall. intros q Hq.
      apply (proj1 (Forall_forall _ _) Hp). now apply list_elem_of_fmap_2.
Qed.


End Sorting.

Section Argsort.
Import Np.
Local Open Scope nat_scope.

Local Abbreviation keyed a := (zip a (seq 0 (length a))).
Local Abbreviation key_at a := (fun i : nat => (default 0%Q (a !! i), i)).

Lemma keyed_fmap (a : list Q) : keyed a = key_at a <$> seq 0 (length a).
Proof.
  apply list_eq. intros i.
  rewrite lookup_zip_with, list_lookup_fmap.
  destruct (decide (i < length a)) as [Hlt | Hge].
  - rewrite lookup_seq_lt by exact Hlt.
    destruct (lookup_lt_is_Some_2 a i Hlt) as [x Hx].
    rewrite Hx. cbn. now rewrite Hx.
  - rewrite lookup_seq_ge by lia. rewrite lookup_ge_None_2 by lia. reflexivity.
Qed.

Lemma keyed_Forall (a : list Q) :
  Forall (fun p : Q * nat => a !! p.2 = Some p.1) (keyed a).
Proof.
  apply Forall_lookup. intros i [x j] H.
  apply lookup_zip_with_Some in H as (x' & j' & E & Hx & Hj).
  injection E as -> ->. apply lookup_seq in Hj as [-> _]. exact Hx.
Qed.

Lemma take_idx_pairs (a : list Q) (ps : list (Q * nat)) :
  Forall (fun p : Q * nat => a !! p.2 = Some p.1) ps ->
  take_idx a ps.*2 = Some ps.*1.
Proof.
  intros H. apply mapM_Some. induction H as [| p ps Hp _ IH]; cbn.
  - constructor.
  - now constructor.
Qed.

Lemma pairs_of_take_idx (a : list Q) idx out :
  take_idx a idx = Some out -> zip out idx = key_at a <$> idx.
Proof.
  intros H. apply mapM_Some in H.
  induction H as [| i x idx out Hi _ IH]; [reflexivity |].
  cbn. now rewrite Hi, IH.
Qed.

Lemma argsort_perm (a : list Q) : argsort a ≡ₚ seq 0 (length a).
Proof.
  unfold argsort. rewrite sort_by_key_perm.
  rewrite snd_zip; [reflexivity |]. now rewrite length_seq.
Qed.

Lemma argsort_length (a : list Q) : length (argsort a) = length a.
Proof. now rewrite argsort_perm, length_seq. Qed.

Lemma argsort_take (a : list Q) :
  take_idx a (argsort a) = Some (sort_by_key (keyed a)).*1.
Proof.
  apply take_idx_pairs. rewrite sort_by_key_perm. apply keyed_Forall.
Qed.

(** The sort of the model meets the contract of [np.argsort]. *)
Lemma argsort_is_argsort (a : list Q) : is_argsort a (argsort a).
Proof.
  split; [apply argsort_perm |].
  eexists. split; [apply argsort_take |].
  apply sorted_keys_le, sort_by_key_sorted.
Qed.


(** On pairwise distinct values the contract of [np.argsort] has one
    solution, so the sorting algorithm does not matter. *)
Lemma argsort_unique (a : list Q) idx :
  pairwise_distinct a -> is_argsort a idx -> idx = argsort a.
Proof.
  intros Hd (Hperm & out & Htake & Hsorted).
  assert (length out = length idx) as Hlen by (eapply take_idx_length, Htake).
  assert (sort_by_key (keyed a) = zip out idx) as E.
  { apply sorted_by_key_unique.
    - apply sort_by_key_strict. rewrite fst_zip; [exact Hd |].
      now rewrite length_seq.
    - apply sorted_keys_le. rewrite fst_zip by lia. exact Hsorted.
    - rewrite sort_by_key_perm, keyed_fmap, (pairs_of_take_idx _ _ _ Htake).
      now rewrite Hperm. }
  unfold argsort. rewrite E. rewrite snd_zip by lia. reflexivity.
Qed.

Lemma StronglySorted_lookup_lt (R : relation Q) (l : list Q) k1 k2 x1 x2 :
  StronglySorted R l -> k1 < k2 -> l !! k1 = Some x1 -> l !! k2 = Some x2 ->
  R x1 x2.
Proof.
  intros H. revert k1 k2. induction H as [| y l Hs IH Hy]; intros k1 k2 Hlt H1 H2.
  - discriminate.
  - destruct k2 as [| k2]; [lia |]. cbn in H2.
    destruct k1 as [| k1]; cbn in H1.
    + injection H1 as ->.
      eapply (proj1 (Forall_lookup _ _) Hy), H2.
    + apply (IH k1 k2); [lia | exact H1 | exact H2].
Qed.


End Argsort.

(** ** Longitude conversion and latitude flip *)

Section Coordinates.
Import Np.
Local Open Scope Q_scope.

Local Abbreviation conv := (fun lon : Q => if Qgtb lon 180 then lon - 360 else lon).

Lemma Qgtb_spec x y : if Qgtb x y then y < x else x <= y.
Proof.
  unfold Qgtb. destruct (Qle_bool x y) eqn:E; cbn.
  - now apply Qle_bool_iff.
  - destruct (Qlt_le_dec y x) as [H | H]; [exact H |].
    apply Qle_bool_iff in H. congruence.
Qed.

(** The vectorised conversion of process_data.py is the per-element one of
    convert_to_json.py. *)
Lemma lons_converted_agree lons :
  ProcessData.lons_converted lons = ConvertToJson.lons_converted lons.
Proof.
  unfold ProcessData.lons_converted, ConvertToJson.lons_converted.
  apply (where_fmap (fun x => Qgtb x 180) (fun x => x - 360)).
Qed.





Lemma lat_flip_perm lats :
  ProcessData.lat_flip lats ≡ₚ seq 0 (length lats).
Proof.
  unfold ProcessData.lat_flip. rewrite argsort_perm. now rewrite length_fmap.
Qed.


End Coordinates.

(** ** The loop body of process_data.py on a whole frame *)

Section Frames.
Import Np ProcessData.
Local Open Scope nat_scope.

Lemma encode_frame_eq frame ls lf :
  encode_frame frame ls lf =
  (frame1 ← take_cols frame ls;
   frame2 ← take_idx frame1 lf;
   Some (map2d encode_cell frame2)).
Proof.
  unfold encode_frame.
  destruct (take_cols frame ls) as [f1 |]; [| reflexivity]. cbn.
  destruct (take_idx f1 lf) as [f2 |]; [| reflexivity]. cbn.
  now rewrite map2d_map2d, mask_assign_map2d.
Qed.

Lemma encode_frame_shape frame ls lf out :
  encode_frame frame ls lf = Some out ->
  length out = length lf /\ Forall (fun row => length row = length ls) out.
Proof.
  rewrite encode_frame_eq. intros H.
  destruct (take_cols frame ls) as [f1 |] eqn:E1; [| discriminate]. cbn in H.
  destruct (take_idx f1 lf) as [f2 |] eqn:E2; [| discriminate]. cbn in H.
  injection H as <-. unfold map2d. rewrite length_fmap. split.
  - eapply take_idx_length, E2.
  - apply Forall_fmap, Forall_lookup. intros i row Hi. cbn.
    rewrite length_fmap.
    assert (row ∈ f1) as Hin.
    { apply mapM_Some in E2.
      destruct (Forall2_lookup_r _ _ _ _ _ E2 Hi) as (k & _ & Hk).
      eapply list_elem_of_lookup_2, Hk. }
    apply list_elem_of_lookup_1 in Hin as [k Hk].
    apply mapM_Some in E1.
    destruct (Forall2_lookup_r _ _ _ _ _ E1 Hk) as (src & _ & Hsrc).
    eapply take_idx_length, Hsrc.
Qed.

Lemma encode_frame_is_Some frame ls lf n :
  Forall (fun row => length row = n) frame ->
  Forall (fun j => j < n) ls ->
  Forall (fun i => i < length frame) lf ->
  is_Some (encode_frame frame ls lf).
Proof.
  intros Hrows Hls Hlf. rewrite encode_frame_eq.
  destruct (take_cols_is_Some frame ls n Hrows Hls) as [f1 E1].
  rewrite E1. cbn.
  assert (is_Some (take_idx f1 lf)) as [f2 E2].
  { apply take_idx_is_Some.
    rewrite (take_cols_length _ _ _ E1). exact Hlf. }
  rewrite E2. cbn. eauto.
Qed.

(** Output cell [(i, j)] is the code of source cell
    [(lat_flip[i], lon_sort[j])]. *)
Lemma encode_frame_cell frame ls lf out i j i' j' :
  encode_frame frame ls lf = Some out ->
  lf !! i = Some i' -> ls !! j = Some j' ->
  cell out i j = encode_cell <$> cell frame i' j'.
Proof.
  rewrite encode_frame_eq. intros H Hi Hj.
  destruct (take_cols frame ls) as [f1 |] eqn:E1; [| discriminate]. cbn in H.
  destruct (take_idx f1 lf) as [f2 |] eqn:E2; [| discriminate]. cbn in H.
  injection H as <-. rewrite cell_map2d. f_equal.
  unfold cell. rewrite (take_idx_lookup _ _ _ _ _ E2 Hi).
  destruct (frame !! i') as [row |] eqn:Hrow.
  - destruct (take_cols_lookup _ _ _ _ _ E1 Hrow) as (row' & Hr' & Ht).
    rewrite Hr'. cbn. apply (take_idx_lookup _ _ _ _ _ Ht Hj).
  - apply lookup_ge_None in Hrow.
    rewrite lookup_ge_None_2; [reflexivity |].
    now rewrite (take_cols_length _ _ _ E1).
Qed.

End Frames.

(** ** The uint8 encoder of process_data.py on an array of a binary format *)

Section RoundedEncoder.
Import Np ProcessData.
Local Open Scope Q_scope.

Lemma at_least_binary32_binary32 : Ieee.at_least_binary32 Ieee.binary32.
Proof. unfold Ieee.at_least_binary32. cbn. lia. Qed.

Lemma at_least_binary32_binary64 : Ieee.at_least_binary32 Ieee.binary64.
Proof. unfold Ieee.at_least_binary32. cbn. lia. Qed.

Lemma rounded_not_nan f y : y <> NaN -> Ieee.rounded f y <> NaN.
Proof.
  destruct y as [| | | q]; cbn; intros H; try exact H. apply round_not_nan.
Qed.

(** A value that is not NaN is clipped to a finite value of [0, 254]. *)
Lemma clip_range x :
  x <> NaN -> exists c, clip x 0 254 = Fin c /\ 0 <= c <= 254.
Proof.
  destruct x as [| | | q]; intros Hx; [congruence | | |]; cbn;
    eexists; (split; [reflexivity |]).
  - split; discriminate.
  - split; discriminate.
  - pose proof (Q.max_spec q 0) as Hmax.
    pose proof (Q.min_spec (Qmax q 0) 254) as Hmin.
    set (m := Qmax q 0) in *. set (c := Qmin m 254) in *.
    destruct Hmax as [[? ?] | [? ?]]; destruct Hmin as [[? ?] | [? ?]]; lra.
Qed.

(** The three arithmetic steps keep a value that is not NaN away from
    NaN. *)
Lemma scaled_not_nan f x :
  x <> NaN ->
  Ieee.fmul f (Ieee.fdiv f (Ieee.fsub f x SST_MIN) SST_RANGE) 254 <> NaN.
Proof.
  intros Hx. unfold Ieee.fmul, Ieee.fdiv, Ieee.fsub.
  assert (forall y, y <> NaN -> Np.fdiv y SST_RANGE <> NaN) as Hdiv
    by (intros [| | | q] Hy; [congruence | | |]; discriminate).
  assert (forall y, y <> NaN -> Np.fmul y 254 <> NaN) as Hmul
    by (intros [| | | q] Hy; [congruence | | |]; discriminate).
  assert (Np.fsub x SST_MIN <> NaN) as Hsub
    by (destruct x; [congruence | | |]; discriminate).
  apply rounded_not_nan, Hmul, rounded_not_nan, Hdiv, rounded_not_nan, Hsub.
Qed.

Lemma encode_cell_in_not_nan f x :
  x <> NaN -> (0 <= encode_cell_in f x <= 254)%Z.
Proof.
  intros Hx. unfold encode_cell_in.
  destruct x as [| | | v] eqn:Ex; [congruence | | |]; cbn [isnan];
    rewrite <- Ex in *;
    destruct (clip_range _ (scaled_not_nan f x Hx)) as (c & -> & Hc);
    cbn [astype_uint8]; rewrite Qtrunc_nonneg by lra;
    assert (0 <= Qfloor c <= 254)%Z as Hb
      by (apply Qfloor_bounds;
          [change (inject_Z 0) with 0 | change (inject_Z 254) with 254]; lra);
    rewrite Z.mod_small by lia; exact Hb.
Qed.

Lemma encode_cell_in_range f x : (0 <= encode_cell_in f x <= 255)%Z.
Proof.
  destruct x as [| | | v] eqn:Ex.
  - cbn. unfold NODATA. lia.
  - pose proof (encode_cell_in_not_nan f NInf ltac:(discriminate)). lia.
  - pose proof (encode_cell_in_not_nan f PInf ltac:(discriminate)). lia.
  - pose proof (encode_cell_in_not_nan f (Fin v) ltac:(discriminate)). lia.
Qed.

Lemma encode_cell_in_sentinel f x : encode_cell_in f x = NODATA <-> x = NaN.
Proof.
  split.
  - intros E. destruct x as [| | | v]; [reflexivity | | |].
    + pose proof (encode_cell_in_not_nan f NInf ltac:(discriminate)).
      unfold NODATA in E. lia.
    + pose proof (encode_cell_in_not_nan f PInf ltac:(discriminate)).
      unfold NODATA in E. lia.
    + pose proof (encode_cell_in_not_nan f (Fin v) ltac:(discriminate)).
      unfold NODATA in E. lia.
  - intros ->. reflexivity.
Qed.

(** The loop body applies [encode_cell_in] to every cell of the reordered
    frame. *)
Lemma encode_frame_in_eq f frame ls lf :
  encode_frame_in f frame ls lf =
  (frame1 ← take_cols frame ls;
   frame2 ← take_idx frame1 lf;
   Some (map2d (encode_cell_in f) frame2)).
Proof.
  unfold encode_frame_in.
  destruct (take_cols frame ls) as [f1 |]; [| reflexivity]. cbn.
  destruct (take_idx f1 lf) as [f2 |]; [| reflexivity]. cbn.
  now rewrite map2d_map2d, mask_assign_map2d.
Qed.

(** *** Order and saturation *)

Lemma fval_le_not_nan x y : fval_le x y -> x <> NaN /\ y <> NaN.
Proof. destruct x, y; cbn; intros H; try contradiction; split; discriminate. Qed.

Lemma isnan_false x : x <> NaN -> isnan x = false.
Proof. destruct x; [congruence | | |]; reflexivity. Qed.

Lemma fval_le_ninf y : y <> NaN -> fval_le NInf y.
Proof. destruct y; cbn; intros H; [congruence | exact I | exact I | exact I]. Qed.

Lemma fval_le_pinf x : x <> NaN -> fval_le x PInf.
Proof. destruct x; cbn; intros H; [congruence | exact I | exact I | exact I]. Qed.

(** Rounding the result of an operation preserves order. *)
Lemma rounded_monotone f x y :
  (1 <= Ieee.prec f)%Z -> fval_le x y ->
  fval_le (Ieee.rounded f x) (Ieee.rounded f y).
Proof.
  intros Hp H. destruct (fval_le_not_nan x y H) as [Hx Hy].
  destruct x as [| | | a]; [congruence | | |].
  - apply fval_le_ninf, rounded_not_nan, Hy.
  - destruct y; cbn in H; try contradiction. exact I.
  - destruct y as [| | | b]; cbn in H; try contradiction.
    + apply fval_le_pinf, rounded_not_nan. discriminate.
    + cbn. now apply round_monotone.
Qed.

(** A value at or above an integer of the format stays there when it is
    rounded, and likewise below. *)
Lemma rounded_ge_integer f z y :
  Ieee.at_least_binary32 f -> (- 2 ^ 24 < z < 2 ^ 24)%Z ->
  fval_le (Fin (inject_Z z)) y -> fval_le (Fin (inject_Z z)) (Ieee.rounded f y).
Proof.
  intros Hf Hz H.
  pose proof (rounded_monotone f _ _ ltac:(destruct Hf; lia) H) as Hm.
  change (Ieee.rounded f (Fin (inject_Z z)))
    with (Ieee.round f (inject_Z z)) in Hm.
  destruct (round_integer f z Hf Hz) as (r & Er & Hr). rewrite Er in Hm.
  destruct (Ieee.rounded f y); cbn in Hm |- *; try contradiction;
    [exact I | lra].
Qed.

Lemma rounded_le_integer f z y :
  Ieee.at_least_binary32 f -> (- 2 ^ 24 < z < 2 ^ 24)%Z ->
  fval_le y (Fin (inject_Z z)) -> fval_le (Ieee.rounded f y) (Fin (inject_Z z)).
Proof.
  intros Hf Hz H.
  pose proof (rounded_monotone f _ _ ltac:(destruct Hf; lia) H) as Hm.
  change (Ieee.rounded f (Fin (inject_Z z)))
    with (Ieee.round f (inject_Z z)) in Hm.
  destruct (round_integer f z Hf Hz) as (r & Er & Hr). rewrite Er in Hm.
  destruct (Ieee.rounded f y); cbn in Hm |- *; try contradiction;
    [exact I | lra].
Qed.

(** The exact operations of the encoder preserve order. *)
Lemma fsub_monotone c x y : fval_le x y -> fval_le (Np.fsub x c) (Np.fsub y c).
Proof.
  destruct x, y; cbn; intros H; try contradiction; try exact I. lra.
Qed.

Lemma fdiv_range_monotone x y :
  fval_le x y -> fval_le (Np.fdiv x SST_RANGE) (Np.fdiv y SST_RANGE).
Proof.
  destruct x as [| | | a], y as [| | | b]; cbn; intros H;
    try contradiction; try exact I.
  change (fval_le (Fin (a / SST_RANGE)) (Fin (b / SST_RANGE))). cbn.
  assert (a / SST_RANGE == a * (1 # 34)) as ->
      by (unfold SST_RANGE, SST_MAX, SST_MIN; field).
  assert (b / SST_RANGE == b * (1 # 34)) as ->
      by (unfold SST_RANGE, SST_MAX, SST_MIN; field).
  lra.
Qed.

Lemma fmul_254_monotone x y :
  fval_le x y -> fval_le (Np.fmul x 254) (Np.fmul y 254).
Proof.
  destruct x as [| | | a], y as [| | | b]; cbn; intros H;
    try contradiction; try exact I. lra.
Qed.

(** The value handed to [np.clip], as a function of the cell. *)
Lemma scaled_monotone f x y :
  (1 <= Ieee.prec f)%Z -> fval_le x y ->
  fval_le
    (Ieee.fmul f (Ieee.fdiv f (Ieee.fsub f x SST_MIN) SST_RANGE) 254)
    (Ieee.fmul f (Ieee.fdiv f (Ieee.fsub f y SST_MIN) SST_RANGE) 254).
Proof.
  intros Hp H. unfold Ieee.fmul, Ieee.fdiv, Ieee.fsub.
  apply rounded_monotone, fmul_254_monotone; [exact Hp |].
  apply rounded_monotone, fdiv_range_monotone; [exact Hp |].
  apply rounded_monotone, fsub_monotone; [exact Hp | exact H].
Qed.

(** The cast of a clipped value is its integer part. *)
Lemma astype_clip x :
  x <> NaN ->
  exists c, clip x 0 254 = Fin c /\ 0 <= c <= 254 /\
            astype_uint8 (clip x 0 254) = Qfloor c.
Proof.
  intros Hx. destruct (clip_range x Hx) as (c & E & Hc).
  exists c. split; [exact E |]. split; [exact Hc |].
  rewrite E. cbn [astype_uint8]. rewrite Qtrunc_nonneg by lra.
  assert (0 <= Qfloor c <= 254)%Z as Hb
    by (apply Qfloor_bounds;
        [change (inject_Z 0) with 0 | change (inject_Z 254) with 254]; lra).
  now rewrite Z.mod_small by lia.
Qed.

Lemma clip_monotone x y a b :
  fval_le x y -> clip x 0 254 = Fin a -> clip y 0 254 = Fin b -> a <= b.
Proof.
  intros H Ea Eb.
  destruct x as [| | | p], y as [| | | q]; cbn in H; try contradiction;
    cbn in Ea, Eb; injection Ea as <-; injection Eb as <-;
    try apply Qle_refl; try discriminate.
  - apply Q.min_glb; [apply Q.le_max_r | discriminate].
  - apply Q.le_min_r.
  - apply Q.min_le_compat_r, Q.max_le_compat_r, H.
Qed.

Lemma encode_cell_in_monotone f x y :
  (1 <= Ieee.prec f)%Z -> fval_le x y ->
  (encode_cell_in f x <= encode_cell_in f y)%Z.
Proof.
  intros Hp H. destruct (fval_le_not_nan x y H) as [Hx Hy].
  pose proof (scaled_monotone f x y Hp H) as Hs.
  unfold encode_cell_in. rewrite !isnan_false by assumption.
  destruct (astype_clip _ (scaled_not_nan f x Hx)) as (ca & Ea & _ & ->).
  destruct (astype_clip _ (scaled_not_nan f y Hy)) as (cb & Eb & _ & ->).
  apply Qfloor_resp_le, (clip_monotone _ _ _ _ Hs Ea Eb).
Qed.

(** Bounds through the exact operations of the encoder. *)
Lemma fsub_min_le x a b :
  fval_le x (Fin a) -> a - SST_MIN <= b -> fval_le (Np.fsub x SST_MIN) (Fin b).
Proof. destruct x; cbn; intros H Hb; try contradiction; [exact I | lra]. Qed.

Lemma fsub_min_ge x a b :
  fval_le (Fin a) x -> b <= a - SST_MIN -> fval_le (Fin b) (Np.fsub x SST_MIN).
Proof. destruct x; cbn; intros H Hb; try contradiction; [exact I | lra]. Qed.

Lemma fdiv_range_le x a b :
  fval_le x (Fin a) -> a <= b * 34 -> fval_le (Np.fdiv x SST_RANGE) (Fin b).
Proof.
  destruct x as [| | | q]; cbn; intros H Hb; try contradiction; [exact I |].
  change (fval_le (Fin (q / SST_RANGE)) (Fin b)). cbn.
  assert (q / SST_RANGE == q * (1 # 34)) as ->
      by (unfold SST_RANGE, SST_MAX, SST_MIN; field).
  lra.
Qed.

Lemma fdiv_range_ge x a b :
  fval_le (Fin a) x -> b * 34 <= a -> fval_le (Fin b) (Np.fdiv x SST_RANGE).
Proof.
  destruct x as [| | | q]; cbn; intros H Hb; try contradiction; [exact I |].
  change (fval_le (Fin b) (Fin (q / SST_RANGE))). cbn.
  assert (q / SST_RANGE == q * (1 # 34)) as ->
      by (unfold SST_RANGE, SST_MAX, SST_MIN; field).
  lra.
Qed.

Lemma fmul_254_le x a b :
  fval_le x (Fin a) -> a * 254 <= b -> fval_le (Np.fmul x 254) (Fin b).
Proof. destruct x; cbn; intros H Hb; try contradiction; [exact I | lra]. Qed.

Lemma fmul_254_ge x a b :
  fval_le (Fin a) x -> b <= a * 254 -> fval_le (Fin b) (Np.fmul x 254).
Proof. destruct x; cbn; intros H Hb; try contradiction; [exact I | lra]. Qed.

Lemma encode_cell_in_saturates f :
  Ieee.at_least_binary32 f ->
  (forall x, fval_le x (Fin SST_MIN) -> encode_cell_in f x = 0%Z) /\
  (forall x, fval_le (Fin SST_MAX) x -> encode_cell_in f x = 254%Z).
Proof.
  intros Hf. split; intros x H; destruct (fval_le_not_nan _ _ H) as [Hx Hy].
  - assert (fval_le
              (Ieee.fmul f (Ieee.fdiv f (Ieee.fsub f x SST_MIN) SST_RANGE) 254)
              (Fin (inject_Z 0))) as Hs.
    { unfold Ieee.fmul, Ieee.fdiv, Ieee.fsub.
      apply rounded_le_integer; [exact Hf | lia |].
      apply (fmul_254_le _ (inject_Z 0)); [| discriminate].
      apply rounded_le_integer; [exact Hf | lia |].
      apply (fdiv_range_le _ (inject_Z 0)); [| discriminate].
      apply rounded_le_integer; [exact Hf | lia |].
      apply (fsub_min_le _ _ _ H). discriminate. }
    unfold encode_cell_in. rewrite isnan_false by exact Hx.
    destruct (astype_clip _ (scaled_not_nan f x Hx)) as (c & Ec & Hc & ->).
    pose proof (clip_monotone _ (Fin (inject_Z 0)) c 0 Hs Ec eq_refl) as Hle.
    rewrite (Qfloor_comp c 0) by lra. reflexivity.
  - assert (fval_le
              (Fin (inject_Z 254))
              (Ieee.fmul f (Ieee.fdiv f (Ieee.fsub f x SST_MIN) SST_RANGE) 254))
      as Hs.
    { unfold Ieee.fmul, Ieee.fdiv, Ieee.fsub.
      apply rounded_ge_integer; [exact Hf | lia |].
      apply (fmul_254_ge _ (inject_Z 1)); [| discriminate].
      apply rounded_ge_integer; [exact Hf | lia |].
      apply (fdiv_range_ge _ (inject_Z 34)); [| discriminate].
      apply rounded_ge_integer; [exact Hf | lia |].
      apply (fsub_min_ge _ _ _ H). discriminate. }
    unfold encode_cell_in. rewrite isnan_false by exact Hy.
    destruct (astype_clip _ (scaled_not_nan f x Hy)) as (c & Ec & Hc & ->).
    pose proof (clip_monotone (Fin (inject_Z 254)) _ 254 c Hs eq_refl Ec) as Hle.
    rewrite (Qfloor_comp c 254) by lra. reflexivity.
Qed.

(** *** The round trip inside the domain *)

(** Clipping to [0, 254] does not move a value away from a point of
    [0, 254]. *)
Lemma clip_close x y d :
  0 <= y <= 254 -> Qabs (x - y) <= d ->
  Qabs (Qmin (Qmax x 0) 254 - y) <= d.
Proof.
  intros Hy Hd. apply Qabs_Qle_condition in Hd. apply Qabs_Qle_condition.
  pose proof (Q.max_spec x 0) as Hmax.
  pose proof (Q.min_spec (Qmax x 0) 254) as Hmin.
  set (m := Qmax x 0) in *. set (c := Qmin m 254) in *.
  destruct Hmax as [[? ?] | [? ?]]; destruct Hmin as [[? ?] | [? ?]];
    split; lra.
Qed.

(** The value handed to [astype(np.uint8)] for a cell of the domain, and
    its distance to the exact scaled value: the three roundings add up to
    less than 1/26000 of a code. *)
Lemma scaled_in_domain f v :
  Ieee.at_least_binary32 f -> SST_MIN <= v <= SST_MAX ->
  exists c,
    clip (Ieee.fmul f (Ieee.fdiv f (Ieee.fsub f (Fin v) SST_MIN) SST_RANGE)
                    254) 0 254
      = Fin c /\
    0 <= c <= 254 /\
    Qabs (c - (v + 2) * (254 # 34)) <= 1 # 26000.
Proof.
  intros (Hp & Hlo & Hhi) Hv. unfold SST_MIN, SST_MAX in Hv.
  (* s: the rounded difference v - SST_MIN *)
  destruct (round_error f (v - SST_MIN) 6) as (s & Es & Hs);
    [lia | lia | |].
  { unfold SST_MIN. change (Ieee.pow2 6) with 64.
    apply Qabs_Qlt_condition. lra. }
  assert (Ieee.pow2 (6 - 1 - Ieee.prec f) <= 1 # 524288) as B1
    by (change (1 # 524288) with (Ieee.pow2 (-19)); apply pow2_le; lia).
  (* n: the rounded quotient s / SST_RANGE *)
  assert (s / SST_RANGE == s * (1 # 34)) as Eq2
    by (unfold SST_RANGE, SST_MAX, SST_MIN; field).
  destruct (round_error f (s / SST_RANGE) 1) as (n & En & Hn);
    [lia | lia | |].
  { rewrite Eq2. unfold SST_MIN in Hs. change (Ieee.pow2 1) with 2.
    apply Qabs_Qle_condition in Hs. apply Qabs_Qlt_condition. lra. }
  assert (Ieee.pow2 (1 - 1 - Ieee.prec f) <= 1 # 16777216) as B2
    by (change (1 # 16777216) with (Ieee.pow2 (-24)); apply pow2_le; lia).
  (* x: the rounded product n * 254 *)
  destruct (round_error f (n * 254) 8) as (x & Ex & Hx);
    [lia | lia | |].
  { change (Ieee.pow2 8) with 256. unfold SST_MIN in Hs.
    apply Qabs_Qle_condition in Hs, Hn. rewrite Eq2 in Hn.
    apply Qabs_Qlt_condition. lra. }
  assert (Ieee.pow2 (8 - 1 - Ieee.prec f) <= 1 # 131072) as B3
    by (change (1 # 131072) with (Ieee.pow2 (-17)); apply pow2_le; lia).
  exists (Qmin (Qmax x 0) 254). split.
  - unfold Ieee.fsub, Ieee.fdiv, Ieee.fmul. cbn [Np.fsub Ieee.rounded].
    rewrite Es.
    change (Np.fdiv (Fin s) SST_RANGE) with (Fin (s / SST_RANGE)).
    cbn [Ieee.rounded]. rewrite En. cbn [Np.fmul Ieee.rounded]. rewrite Ex.
    reflexivity.
  - assert (Qabs (x - (v + 2) * (254 # 34)) <= 1 # 26000) as Hxy.
    { unfold SST_MIN in Hs. rewrite Eq2 in Hn.
      apply Qabs_Qle_condition in Hs, Hn, Hx.
      apply Qabs_Qle_condition. split; lra. }
    split; [| apply clip_close; [lra | exact Hxy]].
    destruct (clip_range (Fin x) ltac:(discriminate)) as (c & E & Hc).
    injection E as <-. exact Hc.
Qed.

End RoundedEncoder.

(** ** The integer encoder of convert_to_json.py, cell by cell *)

Section JsonEncoder.
Import Np ConvertToJson.
Local Open Scope Q_scope.

Lemma astype_int_range x : (min_int64 <= astype_int x <= max_int64)%Z.
Proof.
  assert (min_int64 <= min_int64 <= max_int64)%Z as Hmin
    by (unfold min_int64, max_int64; lia).
  destruct x as [| | | q]; try exact Hmin.
  cbn. destruct (Z.leb_spec min_int64 (Qtrunc q));
    destruct (Z.leb_spec (Qtrunc q) max_int64); cbn; lia.
Qed.

Lemma astype_int_small (z : Z) :
  (min_int64 <= z <= max_int64)%Z -> astype_int (Fin (inject_Z z)) = z.
Proof.
  intros [H1 H2]. cbn. rewrite Qtrunc_inject_Z.
  apply Z.leb_le in H1, H2. now rewrite H1, H2.
Qed.

(** An integer that does not fit converts to -2^63. *)
Lemma astype_int_inject_Z (z : Z) :
  astype_int (Fin (inject_Z z)) = z \/
  astype_int (Fin (inject_Z z)) = min_int64.
Proof.
  cbn. rewrite Qtrunc_inject_Z.
  destruct ((min_int64 <=? z)%Z && (z <=? max_int64)%Z); auto.
Qed.

Lemma json_encode_cell_fin f v :
  encode_cell f (Fin v) = astype_int (round (Ieee.round f (v * 100))).
Proof. reflexivity. Qed.

Lemma json_encode_cell_range f x :
  (min_int64 <= encode_cell f x <= max_int64)%Z.
Proof. apply astype_int_range. Qed.

Lemma json_encode_cell_ninf f : encode_cell f NInf = min_int64.
Proof. reflexivity. Qed.

Lemma json_encode_cell_pinf f : encode_cell f PInf = min_int64.
Proof. reflexivity. Qed.

(** The code of a finite value whose product rounds to the finite [r]. *)
Lemma json_encode_cell_rounded f v r :
  Ieee.round f (v * 100) = Fin r ->
  encode_cell f (Fin v) = astype_int (Fin (inject_Z (round_half_even r))).
Proof. intros E. rewrite json_encode_cell_fin, E. reflexivity. Qed.

(** Below 4096 in magnitude the rounded product is within 2^-13 of the
    exact one. *)
Lemma product_rounded f q :
  Ieee.at_least_binary32 f -> Qabs q < 4096 ->
  exists r, Ieee.round f q = Fin r /\ Qabs (r - q) <= 1 # 8192.
Proof.
  intros (Hp & Hlo & Hhi) Hq.
  destruct (round_error f q 12) as (r & Er & Hr); [lia | lia | exact Hq |].
  exists r. split; [exact Er |].
  apply Qle_trans with (Ieee.pow2 (12 - 1 - Ieee.prec f)); [exact Hr |].
  change (1 # 8192) with (Ieee.pow2 (-13)). apply pow2_le. lia.
Qed.

(** A product that is at least [lo - 0.49] gives a code at least [lo],
    unless the conversion to a 64-bit integer fails. *)
Lemma json_encode_cell_ge f v (lo : Z) :
  Ieee.at_least_binary32 f -> (-4000 <= lo <= 4000)%Z ->
  inject_Z lo - (49 # 100) <= v * 100 ->
  encode_cell f (Fin v) = min_int64 \/ (lo <= encode_cell f (Fin v))%Z.
Proof.
  intros Hf Hb Hv.
  assert (-4000 <= inject_Z lo <= 4000) as Hq.
  { change (-4000) with (inject_Z (-4000)).
    change 4000 with (inject_Z 4000). rewrite <- !Zle_Qle. exact Hb. }
  destruct (product_rounded f (inject_Z lo - (49 # 100)) Hf)
    as (r0 & E0 & H0); [apply Qabs_Qlt_condition; lra |].
  pose proof (round_monotone f _ _ ltac:(destruct Hf; lia) Hv) as Hm.
  rewrite E0 in Hm. rewrite json_encode_cell_fin.
  destruct (Ieee.round f (v * 100)) as [| | | r] eqn:Er; cbn in Hm;
    try contradiction.
  - left. reflexivity.
  - cbn [round].
    assert (lo <= round_half_even r)%Z as Hz.
    { destruct (round_half_even_spec r) as [[_ H2] _]. cbn zeta in H2.
      apply Qabs_Qle_condition in H0.
      assert (inject_Z lo - 1 < inject_Z (round_half_even r)) as Hlt by lra.
      assert (inject_Z (lo - 1) < inject_Z (round_half_even r)) as Hlt'.
      { unfold Z.sub. rewrite inject_Z_plus. exact Hlt. }
      apply inject_Z_lt_inv in Hlt'. lia. }
    destruct (astype_int_inject_Z (round_half_even r)) as [-> | ->]; auto.
Qed.

(** A product that is at most [hi + 0.49] gives a code at most [hi]. *)
Lemma json_encode_cell_le f v (hi : Z) :
  Ieee.at_least_binary32 f -> (-4000 <= hi <= 4000)%Z ->
  v * 100 <= inject_Z hi + (49 # 100) ->
  (encode_cell f (Fin v) <= hi)%Z.
Proof.
  intros Hf Hb Hv.
  assert (-4000 <= inject_Z hi <= 4000) as Hq.
  { change (-4000) with (inject_Z (-4000)).
    change 4000 with (inject_Z 4000). rewrite <- !Zle_Qle. exact Hb. }
  assert (min_int64 <= hi)%Z as Hmin by (unfold min_int64; lia).
  destruct (product_rounded f (inject_Z hi + (49 # 100)) Hf)
    as (r0 & E0 & H0); [apply Qabs_Qlt_condition; lra |].
  pose proof (round_monotone f _ _ ltac:(destruct Hf; lia) Hv) as Hm.
  rewrite E0 in Hm. rewrite json_encode_cell_fin.
  destruct (Ieee.round f (v * 100)) as [| | | r] eqn:Er; cbn in Hm;
    try contradiction.
  - exact Hmin.
  - cbn [round].
    assert (round_half_even r <= hi)%Z as Hz.
    { destruct (round_half_even_spec r) as [[H1 _] _]. cbn zeta in H1.
      apply Qabs_Qle_condition in H0.
      assert (inject_Z (round_half_even r) < inject_Z hi + 1) as Hlt by lra.
      assert (inject_Z (round_half_even r) < inject_Z (hi + 1)) as Hlt'.
      { rewrite inject_Z_plus. exact Hlt. }
      apply inject_Z_lt_inv in Hlt'. lia. }
    destruct (astype_int_inject_Z (round_half_even r)) as [-> | ->]; lia.
Qed.

(** Between the two, the code is pinned. *)
Lemma json_encode_cell_in_range f v (lo hi : Z) :
  Ieee.at_least_binary32 f -> (-4000 <= lo)%Z -> (hi <= 4000)%Z ->
  inject_Z lo - (49 # 100) <= v * 100 <= inject_Z hi + (49 # 100) ->
  (lo <= encode_cell f (Fin v) <= hi)%Z.
Proof.
  intros Hf Hlo Hhi [H1 H2].
  assert (lo <= hi)%Z as Hlh.
  { assert (inject_Z (lo - 1) < inject_Z hi) as Hlt.
    { unfold Z.sub. rewrite inject_Z_plus.
      change (inject_Z (- (1))) with (-1). lra. }
    apply inject_Z_lt_inv in Hlt. lia. }
  pose proof (json_encode_cell_le f v hi Hf ltac:(lia) H2) as Hle.
  destruct (json_encode_cell_ge f v lo Hf ltac:(lia) H1) as [E | Hge];
    [| lia].
  (* the conversion cannot fail: the rounded product is small *)
  exfalso.
  assert (-4000 <= inject_Z lo /\ inject_Z hi <= 4000) as [Hq1 Hq2].
  { change (-4000) with (inject_Z (-4000)).
    change 4000 with (inject_Z 4000). rewrite <- !Zle_Qle. lia. }
  destruct (product_rounded f (v * 100) Hf) as (r & Er & Hr);
    [apply Qabs_Qlt_condition; lra |].
  rewrite (json_encode_cell_rounded f v r Er) in E.
  apply Qabs_Qle_condition in Hr.
  assert (-4001 <= round_half_even r <= 4001)%Z as Hb.
  { apply round_half_even_mono_bounds.
    - change (inject_Z (-4001)) with (-4001). lra.
    - change (inject_Z 4001) with 4001. lra. }
  rewrite astype_int_small in E by (unfold min_int64, max_int64; lia).
  unfold min_int64 in E. lia.
Qed.

End JsonEncoder.

(** ** The binary file: the frame loop and the flat layout *)

Section BinaryFile.
Import Np ProcessData.
Local Open Scope nat_scope.

(** A 3-D array of shape [(n, nlat, nlon)]. *)
Local Abbreviation shaped nlat nlon :=
  (Forall (fun frame : list (list _) =>
             length frame = nlat /\ Forall (fun row => length row = nlon) frame)).



(** The loop over [range(s, s + n)] fills exactly those slots. *)
Lemma frames_loop_seq sst ls lf n : forall s bd,
  length bd = s + n ->
  (forall t, s <= t < s + n ->
     exists frame scaled,
       sst !! t = Some frame /\ encode_frame frame ls lf = Some scaled) ->
  exists bd',
    frames_loop sst ls lf (seq s n) bd = Some bd' /\
    length bd' = length bd /\
    (forall t, t < s -> bd' !! t = bd !! t) /\
    (forall t, s <= t < s + n ->
       exists frame, sst !! t = Some frame /\
                     Some <$> bd' !! t = Some (encode_frame frame ls lf)).
Proof.
  induction n as [| n IH]; intros s bd Hlen Hok; cbn [seq frames_loop].
  - exists bd. split; [reflexivity |]. split; [reflexivity |].
    split; [reflexivity |]. intros t Ht. lia.
  - destruct (Hok s ltac:(lia)) as (frame & scaled & Hf & Hs).
    rewrite Hf. cbn. rewrite Hs. cbn.
    destruct (IH (S s) (<[s := scaled]> bd)) as (bd' & Hrun & Hl & Hlow & Hhigh).
    + rewrite length_insert. lia.
    + intros t Ht. apply Hok. lia.
    + exists bd'. split; [exact Hrun |].
      rewrite length_insert in Hl. split; [exact Hl |]. split.
      * intros t Ht. rewrite Hlow by lia.
        apply list_lookup_insert_ne. lia.
      * intros t Ht. destruct (decide (t = s)) as [-> | Hne].
        -- exists frame. split; [exact Hf |].
           rewrite Hlow by lia.
           rewrite list_lookup_insert_eq by lia. cbn. now rewrite Hs.
        -- apply Hhigh. lia.
Qed.

End BinaryFile.

(** ** process() as a whole *)

Section Process.
Import Np ProcessData.
Local Open Scope nat_scope.

Lemma perm_seq_bounds idx n :
  idx ≡ₚ seq 0 n -> length idx = n /\ Forall (fun i => i < n) idx.
Proof.
  intros H. split.
  - now rewrite H, length_seq.
  - rewrite H. apply Forall_seq. intros; lia.
Qed.

Lemma lon_sort_perm lons : lon_sort lons ≡ₚ seq 0 (length lons).
Proof.
  unfold lon_sort. rewrite argsort_perm.
  unfold lons_converted, where_.
  rewrite length_zip_with, !length_zip_with, !length_fmap.
  replace (length lons `min` (length lons `min` length lons)) with (length lons) by lia.
  reflexivity.
Qed.

Lemma lons_sorted_is_Some lons :
  exists out, lons_sorted lons = Some out /\ length out = length lons /\
              StronglySorted Qle out.
Proof.
  destruct (argsort_is_argsort (lons_converted lons)) as (_ & out & Ht & Hs).
  exists out. split; [exact Ht |]. split; [| exact Hs].
  rewrite (take_idx_length _ _ _ Ht).
  apply (perm_seq_bounds _ _ (lon_sort_perm lons)).
Qed.

Lemma lats_sorted_is_Some lats :
  exists out, lats_sorted lats = Some out /\ length out = length lats.
Proof.
  unfold lats_sorted.
  destruct (perm_seq_bounds _ _ (lat_flip_perm lats)) as [Hl Hb].
  destruct (take_idx_is_Some lats (lat_flip lats) Hb) as [out Ht].
  exists out. split; [exact Ht |].
  rewrite (take_idx_length _ _ _ Ht). exact Hl.
Qed.

(** The metadata dictionary, field by field, on a grid of at least two
    latitudes and two longitudes. *)
Lemma metadata_fields ds :
  2 <= length (ds_lat ds) -> 2 <= length (ds_lon ds) ->
  exists lons_s lats_s lon0 lon1 lonz lat0 lat1 latz,
    lons_sorted (ds_lon ds) = Some lons_s /\
    lats_sorted (ds_lat ds) = Some lats_s /\
    (lons_s !! 0 = Some lon0 /\ lons_s !! 1 = Some lon1 /\
     last lons_s = Some lonz) /\
    (lats_s !! 0 = Some lat0 /\ lats_s !! 1 = Some lat1 /\
     last lats_s = Some latz) /\
    metadata ds = Some (JObj [
      ("nlat", JInt (Z.of_nat (length (ds_lat ds))));
      ("nlon", JInt (Z.of_nat (length (ds_lon ds))));
      ("ntimes", JInt (Z.of_nat (length (ds_time ds))));
      ("times", JArr (JStr <$> time_labels (ds_time ds)));
      ("lats", JArr (JNum <$> lats_s));
      ("lons", JArr (JNum <$> lons_s));
      ("bounds", JObj [
         ("north", JNum (lat0 + Qabs (lat1 - lat0) / 2)%Q);
         ("south", JNum (latz - Qabs (lat1 - lat0) / 2)%Q);
         ("west", JNum (lon0 - Qabs (lon1 - lon0) / 2)%Q);
         ("east", JNum (lonz + Qabs (lon1 - lon0) / 2)%Q)]);
      ("encoding", JObj [
         ("min", JNum SST_MIN); ("max", JNum SST_MAX); ("nodata", JInt NODATA);
         ("description",
          JStr "uint8: 0-254 maps to -2°C to 32°C, 255 = no data")])]).
Proof.
  intros Hlat Hlon.
  destruct (lons_sorted_is_Some (ds_lon ds)) as (lons_s & El & Hll & _).
  destruct (lats_sorted_is_Some (ds_lat ds)) as (lats_s & Ea & Hla).
  destruct (lookup_lt_is_Some_2 lons_s 0 ltac:(lia)) as [lon0 H0].
  destruct (lookup_lt_is_Some_2 lons_s 1 ltac:(lia)) as [lon1 H1].
  destruct (lookup_lt_is_Some_2 lats_s 0 ltac:(lia)) as [lat0 G0].
  destruct (lookup_lt_is_Some_2 lats_s 1 ltac:(lia)) as [lat1 G1].
  destruct (lookup_lt_is_Some_2 lons_s (pred (length lons_s)) ltac:(lia))
    as [lonz Hz].
  destruct (lookup_lt_is_Some_2 lats_s (pred (length lats_s)) ltac:(lia))
    as [latz Gz].
  rewrite <- last_lookup in Hz, Gz.
  exists lons_s, lats_s, lon0, lon1, lonz, lat0, lat1, latz.
  split; [exact El |]. split; [exact Ea |].
  split; [auto |]. split; [auto |].
  unfold metadata. rewrite El, Ea. cbn.
  rewrite H0, H1, G0, G1. cbn. rewrite Hz, Gz. cbn. reflexivity.
Qed.

(** On a well-formed dataset with at least a 2 x 2 grid and one time stamp
    the run completes; the array written holds, frame by frame, what the
    loop body computes. *)
Lemma process_ok ds :
  wf_dataset ds ->
  2 <= length (ds_lat ds) -> 2 <= length (ds_lon ds) ->
  1 <= length (ds_time ds) ->
  exists md bd,
    metadata ds = Some md /\
    process ds = Some {| metadata_json := md; sst_data_bin := tofile bd |} /\
    length bd = length (ds_time ds) /\
    Forall (fun frame =>
              length frame = length (ds_lat ds) /\
              Forall (fun row => length row = length (ds_lon ds)) frame) bd /\
    forall t, t < length (ds_time ds) ->
      exists frame scaled,
        ds_sst ds !! t = Some frame /\
        encode_frame frame (lon_sort (ds_lon ds)) (lat_flip (ds_lat ds))
          = Some scaled /\
        bd !! t = Some scaled.
Proof.
  intros [Hn Hshape] Hlat Hlon Htime.
  destruct (metadata_fields ds Hlat Hlon)
    as (? & ? & ? & ? & ? & ? & ? & ? & _ & _ & _ & _ & Hmd).
  destruct (perm_seq_bounds _ _ (lon_sort_perm (ds_lon ds))) as [Hlsl Hlsb].
  destruct (perm_seq_bounds _ _ (lat_flip_perm (ds_lat ds))) as [Hlfl Hlfb].
  assert (forall t, 0 <= t < 0 + length (ds_time ds) ->
            exists frame scaled,
              ds_sst ds !! t = Some frame /\
              encode_frame frame (lon_sort (ds_lon ds)) (lat_flip (ds_lat ds))
                = Some scaled) as Hok.
  { intros t Ht.
    destruct (lookup_lt_is_Some_2 (ds_sst ds) t ltac:(lia)) as [frame Hf].
    destruct (proj1 (Forall_lookup _ _) Hshape t frame Hf) as [Hrows Hcols].
    destruct (encode_frame_is_Some frame (lon_sort (ds_lon ds))
                (lat_flip (ds_lat ds)) (length (ds_lon ds))) as [scaled Hs];
      [exact Hcols | exact Hlsb | now rewrite Hrows |].
    eauto. }
  destruct (frames_loop_seq (ds_sst ds) (lon_sort (ds_lon ds))
              (lat_flip (ds_lat ds)) (length (ds_time ds)) 0
              (replicate (length (ds_time ds))
                 (replicate (length (ds_lat ds))
                    (replicate (length (ds_lon ds)) 0%Z))))
    as (bd & Hrun & Hlen & _ & Hcells);
    [now rewrite length_replicate | exact Hok |].
  rewrite length_replicate in Hlen.
  assert (forall t, t < length (ds_time ds) ->
            exists frame scaled,
              ds_sst ds !! t = Some frame /\
              encode_frame frame (lon_sort (ds_lon ds)) (lat_flip (ds_lat ds))
                = Some scaled /\
              bd !! t = Some scaled) as Hall.
  { intros t Ht. destruct (Hcells t ltac:(lia)) as (frame & Hf & Hb).
    destruct (Hok t ltac:(lia)) as (frame' & scaled & Hf' & Hs).
    rewrite Hf in Hf'. injection Hf' as <-. rewrite Hs in Hb.
    exists frame, scaled. split; [exact Hf |]. split; [exact Hs |].
    destruct (bd !! t); cbn in Hb; congruence. }
  eexists. exists bd.
  split; [exact Hmd |]. split.
  - unfold process.
    destruct (lookup_lt_is_Some_2 (ds_time ds) 0 ltac:(lia)) as [t0 Ht0].
    rewrite Ht0. cbn. rewrite Hmd. cbn. rewrite Hrun. reflexivity.
  - split; [exact Hlen |]. split; [| exact Hall].
    apply Forall_lookup. intros t frame Hb.
    assert (t < length (ds_time ds)) as Ht
      by (rewrite <- Hlen; eapply lookup_lt_Some, Hb).
    destruct (Hall t Ht) as (src & scaled & _ & Hs & Hb').
    rewrite Hb in Hb'. injection Hb' as ->.
    destruct (encode_frame_shape _ _ _ _ Hs) as [H1 H2].
    rewrite H1, Hlfl. split; [reflexivity |]. now rewrite Hlsl in H2.
Qed.

End Process.

(** * The claims *)

(** ** Value encoding (process_data.py) *)

Section EncodingClaims.
Import Np.
Local Open Scope Q_scope.

Lemma decode_linear u : ProcessData.decode u == inject_Z u * (34 # 254) - 2.
Proof. unfold ProcessData.decode. field. Qed.

Lemma step_value : ProcessData.step == 34 # 254.
Proof. reflexivity. Qed.

(** C1, as stated, fails twice on a float32 array.  Outside the domain:
    40 degrees C is not NaN, it encodes to 254, which decodes to 32 degrees
    C, eight degrees away.  Inside the domain: 14886477/2^20 (about
    14.1968508 degrees C) is not NaN, the three rounded operations give
    120.99999 where the exact ratio is above 121, the code is 120, and it
    decodes to a value more than one step below the source value. *)
Lemma C1_counterexample :
  ~ (Fin 40 <> NaN ->
     Qabs (ProcessData.decode
             (ProcessData.encode_cell_in Ieee.binary32 (Fin 40)) - 40)
       <= ProcessData.step) /\
  ~ (Fin (14886477 # 1048576) <> NaN ->
     Qabs (ProcessData.decode
             (ProcessData.encode_cell_in Ieee.binary32
                (Fin (14886477 # 1048576)))
           - (14886477 # 1048576))
       <= ProcessData.step).
Proof.
  split; intros H; specialize (H ltac:(discriminate));
    vm_compute in H; apply H; reflexivity.
Qed.

(** C1, amended: on an array of format binary32 or wider, for every source
    value [v] inside the encoding domain [-2, 32] the code decodes, through
    [u/254*34 - 2], to a value that is less than one quantization step
    (34/254 degrees C) plus 0.00001 degrees C away from [v].  The margin
    covers the rounding of the three float operations, which can put the
    code one below the truncation of the exact ratio. *)
Theorem C1_roundtrip_in_domain f v :
  Ieee.at_least_binary32 f ->
  ProcessData.SST_MIN <= v <= ProcessData.SST_MAX ->
  Qabs (ProcessData.decode (ProcessData.encode_cell_in f (Fin v)) - v)
    < ProcessData.step + (1 # 100000).
Proof.
  intros Hf Hv.
  destruct (scaled_in_domain f v Hf Hv) as (c & Ec & Hc & Hd).
  unfold ProcessData.encode_cell_in. cbn [isnan]. rewrite Ec.
  cbn [astype_uint8]. rewrite Qtrunc_nonneg by lra.
  assert (0 <= Qfloor c <= 254)%Z as Hb
    by (apply Qfloor_bounds;
        [change (inject_Z 0) with 0 | change (inject_Z 254) with 254]; lra).
  rewrite Z.mod_small by lia.
  pose proof (Qfloor_le c) as Hlo. pose proof (Qlt_floor c) as Hhi.
  rewrite inject_Z_plus in Hhi. change (inject_Z 1) with 1 in Hhi.
  set (u := inject_Z (Qfloor c)) in *.
  rewrite decode_linear. fold u. rewrite step_value.
  apply Qabs_Qle_condition in Hd.
  apply Qabs_Qlt_condition. split; lra.
Qed.

Lemma C1_roundtrip_in_domain_witness :
  Qabs (ProcessData.decode
          (ProcessData.encode_cell_in Ieee.binary32 (Fin 15)) - 15)
    < ProcessData.step + (1 # 100000).
Proof.
  apply (C1_roundtrip_in_domain Ieee.binary32 15).
  - unfold Ieee.at_least_binary32. cbn. lia.
  - split; vm_compute; discriminate.
Defined.

(** C6: the encoder saturates.  Every finite value below -2 degrees C
    encodes to 0 and every finite value above 32 degrees C encodes to 254;
    so do minus and plus infinity. *)
Theorem C6_saturation :
  (forall v, v < ProcessData.SST_MIN -> ProcessData.encode_cell (Fin v) = 0%Z) /\
  (forall v, ProcessData.SST_MAX < v -> ProcessData.encode_cell (Fin v) = 254%Z) /\
  ProcessData.encode_cell NInf = 0%Z /\
  ProcessData.encode_cell PInf = 254%Z.
Proof.
  split; [| split; [| split; [apply encode_cell_ninf | apply encode_cell_pinf]]].
  - intros v Hv. destruct (encode_cell_floor v) as [-> _].
    rewrite (Qfloor_comp _ _ (clipped_below v Hv)). reflexivity.
  - intros v Hv. destruct (encode_cell_floor v) as [-> _].
    rewrite (Qfloor_comp _ _ (clipped_above v Hv)). reflexivity.
Qed.

Lemma C6_saturation_witness :
  ProcessData.encode_cell (Fin (-5)) = 0%Z /\
  ProcessData.encode_cell (Fin 40) = 254%Z.
Proof.
  split.
  - apply (proj1 C6_saturation (-5)). vm_compute. reflexivity.
  - apply (proj1 (proj2 C6_saturation) 40). vm_compute. reflexivity.
Defined.

End EncodingClaims.

(** ** Sentinels and code ranges *)

Section SentinelClaims.
Import Np.

(** C2: in the array the loop body of process_data.py produces, the cell at
    [(i, j)] is the sentinel 255 if and only if the source cell it is taken
    from, at [(lat_flip[i], lon_sort[j])], is NaN; a source cell that is not
    NaN gives a code in [0, 254]. *)
Theorem C2_sentinel_iff_nan frame ls lf out (i j i' j' : nat) x :
  ProcessData.encode_frame frame ls lf = Some out ->
  lf !! i = Some i' -> ls !! j = Some j' ->
  cell frame i' j' = Some x ->
  exists u, cell out i j = Some u /\
            (u = ProcessData.NODATA <-> x = NaN) /\
            (x <> NaN -> 0 <= u <= 254).
Proof.
  intros Henc Hi Hj Hx.
  exists (ProcessData.encode_cell x). split.
  - rewrite (encode_frame_cell _ _ _ _ _ _ _ _ Henc Hi Hj), Hx. reflexivity.
  - split; [apply encode_cell_sentinel | apply encode_cell_not_nan].
Qed.

Lemma C2_sentinel_iff_nan_witness :
  exists u,
    cell [[0; 255; 37]; [22; 14; 255]] 0 1 = Some u /\
    (u = ProcessData.NODATA <-> NaN = NaN) /\ (NaN <> NaN -> 0 <= u <= 254).
Proof.
  apply (C2_sentinel_iff_nan
           [[Fin 0; NaN; Fin 1]; [NaN; Fin 3; Fin (-5)]]
           [2%nat; 0%nat; 1%nat] [1%nat; 0%nat]
           [[0; 255; 37]; [22; 14; 255]] 0%nat 1%nat 1%nat 0%nat NaN);
    reflexivity.
Defined.

(** C3, as stated, fails for the JSON converter.  The float32 value
    nearest to -9.99 degrees C, -5237637/524288, is not NaN; its product by
    100 rounds to -999 in float32, and the code is -999, the sentinel. *)
Lemma C3_counterexample :
  ~ (Fin (-5237637 # 524288) <> NaN ->
     ConvertToJson.encode_cell Ieee.binary32 (Fin (-5237637 # 524288))
       <> ConvertToJson.SENTINEL).
Proof.
  intros H. apply H; [discriminate | vm_compute; reflexivity].
Qed.

(** C3, amended.  On an array of format binary32 or wider: every code of
    the binary converter lies in [0, 255] and the sentinel 255 is never the
    code of a value that is not NaN.  Every code of the JSON converter is a
    64-bit integer.  Its sentinel -999 is the code of every finite value
    from -9.9949 to -9.9851, and of no finite value at or below -9.9951 or
    at or above -9.9849 (in the two gaps of 0.0002 the rounding of the
    product decides); it is not the code of an infinity.  A value of the
    declared range [-2, 32] has a code in [-200, 3200], so it never meets
    the sentinel. *)
Theorem C3_code_ranges f :
  Ieee.at_least_binary32 f ->
  (forall x, 0 <= ProcessData.encode_cell_in f x <= 255 /\
             (x <> NaN ->
              ProcessData.encode_cell_in f x <> ProcessData.NODATA)) /\
  (forall x, min_int64 <= ConvertToJson.encode_cell f x <= max_int64) /\
  (forall v, (-99949 # 10000 <= v <= -99851 # 10000)%Q ->
             ConvertToJson.encode_cell f (Fin v) = ConvertToJson.SENTINEL) /\
  (forall v, (v <= -99951 # 10000 \/ -99849 # 10000 <= v)%Q ->
             ConvertToJson.encode_cell f (Fin v) <> ConvertToJson.SENTINEL) /\
  ConvertToJson.encode_cell f NInf <> ConvertToJson.SENTINEL /\
  ConvertToJson.encode_cell f PInf <> ConvertToJson.SENTINEL /\
  (forall v, (-2 <= v <= 32)%Q ->
             -200 <= ConvertToJson.encode_cell f (Fin v) <= 3200).
Proof.
  intros Hf.
  split; [| split; [| split; [| split; [| split; [| split]]]]].
  - intros x. split; [apply encode_cell_in_range |].
    intros Hx E. now apply encode_cell_in_sentinel in E.
  - apply json_encode_cell_range.
  - intros v Hv. unfold ConvertToJson.SENTINEL.
    assert (-999 <= ConvertToJson.encode_cell f (Fin v) <= -999); [| lia].
    apply json_encode_cell_in_range; [exact Hf | lia | lia |].
    change (inject_Z (-999)) with (-999)%Q. split; lra.
  - intros v [Hv | Hv]; unfold ConvertToJson.SENTINEL.
    + assert (ConvertToJson.encode_cell f (Fin v) <= -1000); [| lia].
      apply json_encode_cell_le; [exact Hf | lia |].
      change (inject_Z (-1000)) with (-1000)%Q. lra.
    + destruct (json_encode_cell_ge f v (-998) Hf) as [-> | H];
        [lia | | discriminate | lia].
      change (inject_Z (-998)) with (-998)%Q. lra.
  - discriminate.
  - discriminate.
  - intros v Hv.
    apply json_encode_cell_in_range; [exact Hf | lia | lia |].
    change (inject_Z (-200)) with (-200)%Q.
    change (inject_Z 3200) with 3200%Q. split; lra.
Qed.

Lemma C3_code_ranges_witness :
  ConvertToJson.encode_cell Ieee.binary32 (Fin (-999 # 100))
    = ConvertToJson.SENTINEL /\
  -200 <= ConvertToJson.encode_cell Ieee.binary32 (Fin 15) <= 3200 /\
  ProcessData.encode_cell_in Ieee.binary32 (Fin 15) <> ProcessData.NODATA.
Proof.
  destruct (C3_code_ranges Ieee.binary32) as (Hbin & _ & Hin & _ & _ & _ & Hdom).
  - unfold Ieee.at_least_binary32. cbn. lia.
  - split; [| split].
    + apply (Hin (-999 # 100)%Q). split; vm_compute; discriminate.
    + apply (Hdom 15%Q). split; discriminate.
    + apply (proj2 (Hbin (Fin 15))). discriminate.
Defined.

End SentinelClaims.

(** ** Coordinate reordering *)

Section CoordinateClaims.
Import Np.





End CoordinateClaims.

(** ** The binary file and the latitude flip *)

Section LayoutClaims.
Import Np ProcessData.
Local Open Scope nat_scope.



End LayoutClaims.

Section FileClaims.
Import Np ProcessData.
Local Open Scope nat_scope.

Lemma sample_ds_wf : wf_dataset sample_ds.
Proof. split; [reflexivity | repeat constructor]. Qed.



End FileClaims.

Section LatitudeClaims.
Import Np ProcessData.
Local Open Scope nat_scope.



End LatitudeClaims.

(** ** Metadata *)

Section MetadataClaims.
Import Np.
Local Open Scope nat_scope.

Lemma stride_one {A} (a : list A) : stride 1 a = a.
Proof.
  unfold stride. induction a as [| x a IH]; [reflexivity |].
  cbn. now rewrite IH.
Qed.

Lemma py_min_is_Some (a : list Q) : 1 <= length a -> is_Some (py_min a).
Proof. destruct a; cbn; [lia | eauto]. Qed.

Lemma py_max_is_Some (a : list Q) : 1 <= length a -> is_Some (py_max a).
Proof. destruct a; cbn; [lia | eauto]. Qed.

(** The metadata dictionary of convert_to_json.py, field by field. *)
Lemma json_metadata_fields lons lats times :
  1 <= length lons -> 1 <= length lats ->
  exists lons_s min_lon max_lon min_lat max_lat,
    ConvertToJson.lons_sorted lons = Some lons_s /\
    StronglySorted Qle lons_s /\
    (py_min lons_s = Some min_lon /\ py_max lons_s = Some max_lon) /\
    (py_min lats = Some min_lat /\ py_max lats = Some max_lat) /\
    ConvertToJson.metadata lons lats times = Some (JObj [
      ("lons", JArr (JNum <$> lons_s));
      ("lats", JArr (JNum <$> lats));
      ("times", JArr (JStr <$> time_labels times));
      ("bounds", JObj [
         ("minLon", JNum min_lon); ("maxLon", JNum max_lon);
         ("minLat", JNum min_lat); ("maxLat", JNum max_lat)]);
      ("valueRange", JObj [("min", JInt (-2)); ("max", JInt 32)])]).
Proof.
  intros Hlon Hlat.
  destruct (lons_sorted_is_Some lons) as (lons_s & El & Hl & Hs).
  assert (ConvertToJson.lons_sorted lons = Some lons_s) as El'.
  { unfold ConvertToJson.lons_sorted, ConvertToJson.sort_idx.
    rewrite <- lons_converted_agree. exact El. }
  destruct (py_min_is_Some lons_s ltac:(lia)) as [min_lon H1].
  destruct (py_max_is_Some lons_s ltac:(lia)) as [max_lon H2].
  destruct (py_min_is_Some lats Hlat) as [min_lat H3].
  destruct (py_max_is_Some lats Hlat) as [max_lat H4].
  exists lons_s, min_lon, max_lon, min_lat, max_lat.
  split; [exact El' |]. split; [exact Hs |].
  split; [auto |]. split; [auto |].
  unfold ConvertToJson.metadata. rewrite El'. cbn.
  rewrite H1. cbn. rewrite H2. cbn. rewrite H3. cbn. rewrite H4. reflexivity.
Qed.




End MetadataClaims.

(** ** download_data *)

Section DownloadClaims.
Import SstAnimatedMap.

(** C10: when the data file exists, [download_data] returns normally after
    printing one line; it issues no HTTP request and leaves every file as it
    was, whatever the server would have answered. *)
Theorem C10_download_skipped server (w : world) :
  is_Some (fs w !! DATA_FILE) ->
  exists w',
    download_data server w = (Returned, w') /\
    requests w' = requests w /\
    fs w' = fs w /\
    stdout w' =
      stdout w ++
      [Line "Data file 'sst.mnmean.nc' already exists, skipping download."].
Proof.
  intros Hex. unfold download_data.
  destruct (decide (is_Some (fs w !! DATA_FILE))) as [_ | Hno];
    [| contradiction].
  eexists. split; [reflexivity |]. cbn. auto.
Qed.

Lemma C10_download_skipped_witness :
  exists w',
    download_data sample_server sample_world = (Returned, w') /\
    requests w' = requests sample_world /\
    fs w' = fs sample_world /\
    stdout w' =
      stdout sample_world ++
      [Line "Data file 'sst.mnmean.nc' already exists, skipping download."].
Proof.
  apply (C10_download_skipped sample_server sample_world).
  exists [67; 68; 70]. reflexivity.
Defined.

(** For contrast: without the file the request is issued and the file is
    written. *)
Lemma download_when_missing :
  let w := {| fs := ∅; requests := []; stdout := [] |} in
  let r := download_data sample_server w in
  r.1 = Returned /\
  requests r.2 = [DATA_URL] /\
  fs r.2 !! DATA_FILE = Some [1; 2; 3; 4].
Proof. vm_compute. auto. Qed.

End DownloadClaims.

(** ** The scripts on the sample dataset *)

Section Samples.
Import Np.

(** The elementwise statements of convert_to_json.py apply [encode_cell]
    to every cell. *)
Lemma scale_and_cast_eq f a :
  ConvertToJson.scale_and_cast f a = map2d (ConvertToJson.encode_cell f) a.
Proof.
  unfold ConvertToJson.scale_and_cast.
  rewrite where_scalar_map2d, map2d_map2d. reflexivity.
Qed.

(** On a 2-D frame the loop body reorders the columns and encodes every
    cell. *)
Lemma sst_int_eq f frame idx :
  ConvertToJson.sst_int f (Xr.Block2 frame) idx =
  (sst_sorted ← take_cols frame idx;
   Some (Xr.Block2 (map2d (ConvertToJson.encode_cell f) sst_sorted))).
Proof.
  unfold ConvertToJson.sst_int. cbn [Xr.take_axis1].
  destruct (take_cols frame idx) as [sorted |]; [| reflexivity]. cbn.
  rewrite scale_and_cast_eq. reflexivity.
Qed.

(** The metadata [convert_data()] writes is the dictionary [metadata]
    builds from the coordinates and the subsampled time stamps. *)
Lemma convert_data_metadata f ds o :
  ConvertToJson.convert_data f ds = Some o ->
  ConvertToJson.metadata (ds_lon ds) (ds_lat ds)
    (stride ConvertToJson.TIME_STEP (ds_time ds))
  = Some (ConvertToJson.metadata_json o).
Proof.
  unfold ConvertToJson.convert_data. intros H.
  destruct (ConvertToJson.metadata _ _ _) as [md |]; [| discriminate].
  cbn in H. destruct (mapM _ _) as [data |]; [| discriminate].
  cbn in H. injection H as <-. reflexivity.
Qed.


Example convert_sample_data :
  ConvertToJson.all_data <$> ConvertToJson.convert_data Ieee.binary32 sample_ds
  = Some [Xr.Block2 [[200; 0; 100]; [500; 300; -999]];
          Xr.Block2 [[1200; 1000; 1100]; [-300; 1300; 4000]]].
Proof. vm_compute. reflexivity. Qed.

(** A time stamp that occurs twice selects both frames: the block is 3-D,
    [sst_data[:, sort_idx]] then indexes the latitudes, and with more
    longitudes than latitudes it raises IndexError. *)
Example convert_repeated_stamp :
  ConvertToJson.convert_data Ieee.binary32
    {| ds_lon := ds_lon sample_ds; ds_lat := ds_lat sample_ds;
       ds_time := ["1854-01-01T00:00:00.000000000";
                   "1854-01-01T00:00:00.000000000"];
       ds_sst := ds_sst sample_ds |} = None.
Proof. vm_compute. reflexivity. Qed.

(** With as many latitudes as longitudes the run completes, and each entry
    of the data holds both frames, their rows reordered. *)
Example convert_repeated_stamp_square :
  ConvertToJson.all_data <$>
    ConvertToJson.convert_data Ieee.binary32
      {| ds_lon := [0; 270]%Q; ds_lat := [-10; 10]%Q;
         ds_time := ["1854-01-01T00:00:00.000000000";
                     "1854-01-01T00:00:00.000000000"];
         ds_sst := [[[Fin 0; Fin 1]; [Fin 2; Fin 3]];
                    [[Fin 4; Fin 5]; [Fin 6; Fin 7]]] |}
  = Some [Xr.Block3 [[[200; 300]; [0; 100]]; [[600; 700]; [400; 500]]];
          Xr.Block3 [[[200; 300]; [0; 100]]; [[600; 700]; [400; 500]]]].
Proof. vm_compute. reflexivity. Qed.

(** Float32 rounding inside the domain: 14886477/2^20 (about 14.1968508)
    gets the code 120, which decodes more than one step below it, and
    15728639/2^20 (about 14.999999) gets the code 127, which decodes to 15,
    above it. *)
Example encode_cell_in_binary32 :
  ProcessData.encode_cell_in Ieee.binary32 (Fin (14886477 # 1048576)) = 120 /\
  (ProcessData.step
   < (14886477 # 1048576) - ProcessData.decode 120)%Q /\
  ProcessData.encode_cell_in Ieee.binary32 (Fin (15728639 # 1048576)) = 127 /\
  (15728639 # 1048576 < ProcessData.decode 127)%Q.
Proof. vm_compute. auto. Qed.

(** Float32 rounding of the product: -10480517/2^20 (the float32 nearest to
    -9.995) lies between -9.995 and -9.985 and gets the code -1000;
    13421773/2^29 (the float32 nearest to 0.025) gets the code 2; beyond
    the 64-bit range the code is -2^63. *)
Example json_encode_cell_binary32 :
  ConvertToJson.encode_cell Ieee.binary32 (Fin (-10480517 # 1048576)) = -1000 /\
  ConvertToJson.encode_cell Ieee.binary32 (Fin (13421773 # 536870912)) = 2 /\
  ConvertToJson.encode_cell Ieee.binary32 (Fin 92233718306963456) = - 2 ^ 63.
Proof. vm_compute. auto. Qed.

(** A grid with a single longitude: [lons_sorted[1]] raises. *)
Example process_single_column :
  ProcessData.process
    {| ds_lon := [0%Q]; ds_lat := [-10; 10]%Q;
       ds_time := ["1854-01-01T00:00:00.000000000"];
       ds_sst := [[[Fin 1]; [Fin 2]]] |} = None.
Proof. vm_compute. reflexivity. Qed.

(** Equal values keep their order in the model of [np.argsort]. *)
Example argsort_ties : argsort [3; 1; 2; 1]%Q = [1; 3; 2; 0]%nat.
Proof. vm_compute. reflexivity. Qed.

Example round_half_even_ties :
  round_half_even (5 # 2) = 2 /\ round_half_even (7 # 2) = 4 /\
  round_half_even (-5 # 2) = -2 /\ round_half_even (-9995 # 10) = -1000.
Proof. vm_compute. auto. Qed.

End Samples.

(** * Further properties of the scripts *)

(** ** Order preservation of the two encoders *)

Section EncoderOrder.
Import Np.
Local Open Scope Q_scope.

Lemma clipped_monotone a b :
  a <= b -> ProcessData.clipped a <= ProcessData.clipped b.
Proof.
  intros Hab. unfold ProcessData.clipped.
  apply Q.min_le_compat_r, Q.max_le_compat_r.
  unfold ProcessData.SST_RANGE, ProcessData.SST_MIN, ProcessData.SST_MAX.
  assert ((a - -2) / (32 - -2) * 254 == (a + 2) * (254 # 34)) as -> by field.
  assert ((b - -2) / (32 - -2) * 254 == (b + 2) * (254 # 34)) as -> by field.
  lra.
Qed.

(** X1: the uint8 encoder preserves order.  If [x] and [y] are not NaN and
    [x <= y] (infinities included) then the code of [x] is at most the code
    of [y]: a warmer cell never gets a smaller code. *)
Theorem binary_encoder_monotone x y :
  fval_le x y ->
  (ProcessData.encode_cell x <= ProcessData.encode_cell y)%Z.
Proof.
  destruct x as [| | | a], y as [| | | b]; intros H; cbn in H;
    try contradiction.
  - lia.
  - rewrite encode_cell_ninf, encode_cell_pinf. lia.
  - rewrite encode_cell_ninf. destruct (encode_cell_floor b) as [_ Hb]. lia.
  - lia.
  - rewrite encode_cell_pinf. destruct (encode_cell_floor a) as [_ Ha]. lia.
  - destruct (encode_cell_floor a) as [-> _].
    destruct (encode_cell_floor b) as [-> _].
    apply Qfloor_resp_le, clipped_monotone, H.
Qed.

Lemma binary_encoder_monotone_witness :
  (ProcessData.encode_cell (Fin 3) <= ProcessData.encode_cell PInf)%Z.
Proof.
  apply (binary_encoder_monotone (Fin 3) PInf). exact I.
Defined.

(** X2: the integer encoder of convert_to_json.py preserves order as long
    as the products stay clear of the 64-bit range.  On an array of format
    binary32 or wider, for [a <= b] whose products by 100 are at most 2^62
    in magnitude, the code of [a] is at most the code of [b].  (Near 2^63
    the rounded product can leave the range, and the code falls to
    -2^63.) *)
Theorem json_encoder_monotone f a b :
  Ieee.at_least_binary32 f ->
  Qabs (a * 100) <= inject_Z (2 ^ 62) ->
  Qabs (b * 100) <= inject_Z (2 ^ 62) ->
  a <= b ->
  (ConvertToJson.encode_cell f (Fin a) <= ConvertToJson.encode_cell f (Fin b))%Z.
Proof.
  intros Hf Ha Hb Hab.
  assert (1 <= Ieee.prec f)%Z as Hp by (destruct Hf; lia).
  assert (forall q, Qabs q <= inject_Z (2 ^ 62) ->
            exists r, Ieee.round f q = Fin r /\
                      (- 2 ^ 62 - 2 ^ 38 <= round_half_even r
                       <= 2 ^ 62 + 2 ^ 38)%Z) as Hfit.
  { intros q Hq. destruct Hf as (Hp' & Hlo & Hhi).
    change (inject_Z (2 ^ 62)) with 4611686018427387904 in Hq.
    destruct (round_error f q 63) as (r & Er & Hr); [lia | lia | |].
    { apply Qle_lt_trans with 4611686018427387904; [exact Hq |].
      rewrite pow2_nonneg_Z by lia. reflexivity. }
    exists r. split; [exact Er |].
    assert (Ieee.pow2 (63 - 1 - Ieee.prec f) <= 274877906944) as Hs.
    { apply Qle_trans with (Ieee.pow2 38); [apply pow2_le; lia |].
      rewrite pow2_nonneg_Z by lia. discriminate. }
    apply Qabs_Qle_condition in Hq, Hr.
    apply round_half_even_mono_bounds.
    - change (inject_Z (- 2 ^ 62 - 2 ^ 38)) with (-4611686293305294848). lra.
    - change (inject_Z (2 ^ 62 + 2 ^ 38)) with 4611686293305294848. lra. }
  destruct (Hfit _ Ha) as (ra & Ea & Hra).
  destruct (Hfit _ Hb) as (rb & Eb & Hrb).
  rewrite (json_encode_cell_rounded f a ra Ea).
  rewrite (json_encode_cell_rounded f b rb Eb).
  rewrite !astype_int_small by (unfold min_int64, max_int64; lia).
  apply round_half_even_monotone.
  pose proof (round_monotone f (a * 100) (b * 100) Hp ltac:(lra)) as Hm.
  rewrite Ea, Eb in Hm. exact Hm.
Qed.

Lemma json_encoder_monotone_witness :
  (ConvertToJson.encode_cell Ieee.binary32 (Fin (5 # 200))
   <= ConvertToJson.encode_cell Ieee.binary32 (Fin (7 # 200)))%Z.
Proof.
  apply (json_encoder_monotone Ieee.binary32 (5 # 200) (7 # 200)).
  - unfold Ieee.at_least_binary32. cbn. lia.
  - vm_compute. discriminate.
  - vm_compute. discriminate.
  - vm_compute. discriminate.
Defined.

End EncoderOrder.

(** ** Reordering loses nothing *)

Section Reordering.
Import Np.
Local Open Scope nat_scope.

Lemma mapM_Permutation {A B} (f : A -> option B) l l' out :
  l ≡ₚ l' -> mapM f l = Some out ->
  exists out', mapM f l' = Some out' /\ out ≡ₚ out'.
Proof.
  intros Hp. revert out.
  induction Hp as [| x l l' _ IH | x y l | l l' l'' _ IH1 _ IH2]; intros out H.
  - exists out. split; [exact H | reflexivity].
  - cbn in H |- *. destruct (f x) as [b |]; [| discriminate]. cbn in H |- *.
    destruct (mapM f l) as [bs |] eqn:E; [| discriminate].
    cbn in H. injection H as <-.
    destruct (IH bs eq_refl) as (bs' & -> & Hbs). cbn.
    exists (b :: bs'). split; [reflexivity | now constructor].
  - cbn in H |- *.
    destruct (f y) as [b |]; [| discriminate]. cbn in H |- *.
    destruct (f x) as [c |]; [| discriminate]. cbn in H |- *.
    destruct (mapM f l) as [bs |]; [| discriminate]. cbn in H |- *.
    injection H as <-. exists (c :: b :: bs). split; [reflexivity | constructor].
  - destruct (IH1 out H) as (out1 & H1 & P1).
    destruct (IH2 out1 H1) as (out2 & H2 & P2).
    exists out2. split; [exact H2 | now transitivity out1].
Qed.

Lemma take_idx_seq {A} (a : list A) : take_idx a (seq 0 (length a)) = Some a.
Proof.
  apply mapM_Some, Forall2_same_length_lookup_2; [now rewrite length_seq |].
  intros i x y Hx Hy. apply lookup_seq in Hx as [-> _]. exact Hy.
Qed.

(** Indexing with a permutation of the positions rearranges the array. *)
Lemma take_idx_perm {A} (a : list A) idx out :
  idx ≡ₚ seq 0 (length a) -> take_idx a idx = Some out -> out ≡ₚ a.
Proof.
  intros Hp H.
  destruct (mapM_Permutation _ _ _ _ Hp H) as (out' & H' & P).
  pose proof (take_idx_seq a) as Hs. unfold take_idx in Hs.
  rewrite Hs in H'. injection H' as <-. exact P.
Qed.

Lemma lons_converted_length lons :
  length (ProcessData.lons_converted lons) = length lons.
Proof.
  rewrite lons_converted_agree. unfold ConvertToJson.lons_converted.
  apply length_fmap.
Qed.

(** For any longitudes, duplicates allowed, the sorted array is an
    ascending rearrangement of the converted ones. *)
Lemma longitudes_sorted_general lons :
  exists out,
    ProcessData.lons_sorted lons = Some out /\
    out ≡ₚ ProcessData.lons_converted lons /\
    StronglySorted Qle out.
Proof.
  destruct (lons_sorted_is_Some lons) as (out & Ht & _ & Hs).
  exists out. split; [exact Ht |]. split; [| exact Hs].
  apply (take_idx_perm _ (ProcessData.lon_sort lons)); [| exact Ht].
  rewrite lons_converted_length. apply lon_sort_perm.
Qed.

(** X3: for longitudes in [0, 360] every converted longitude lies in
    (-180, 180] and equals the source longitude or the source longitude
    minus 360; the sorted array is an ascending rearrangement of the
    converted ones (duplicates allowed), so it stays in (-180, 180], the
    x-axis range of the animation. *)
Theorem longitudes_in_range lons :
  Forall (fun x => 0 <= x <= 360)%Q lons ->
  Forall2 (fun x y => (y == x \/ y == x - 360) /\ -180 < y <= 180)%Q
          lons (ProcessData.lons_converted lons) /\
  exists out,
    ProcessData.lons_sorted lons = Some out /\
    out ≡ₚ ProcessData.lons_converted lons /\
    StronglySorted Qle out /\
    Forall (fun y => -180 < y <= 180)%Q out.
Proof.
  intros Hdom.
  assert (Forall2 (fun x y => (y == x \/ y == x - 360) /\ -180 < y <= 180)%Q
            lons (ProcessData.lons_converted lons)) as Hconv.
  { rewrite lons_converted_agree. unfold ConvertToJson.lons_converted.
    apply Forall2_fmap_r, Forall_Forall2_diag.
    eapply Forall_impl; [exact Hdom |]. intros x Hx.
    unfold compose. cbn beta in Hx |- *.
    pose proof (Qgtb_spec x 180) as Hs.
    destruct (Qgtb x 180); cbn in Hs; (split; [| split; lra]);
      [right | left]; reflexivity. }
  split; [exact Hconv |].
  destruct (lons_sorted_is_Some lons) as (out & Ht & _ & Hs).
  assert (out ≡ₚ ProcessData.lons_converted lons) as Hp.
  { apply (take_idx_perm _ (ProcessData.lon_sort lons)); [| exact Ht].
    rewrite lons_converted_length. apply lon_sort_perm. }
  exists out. split; [exact Ht |]. split; [exact Hp |]. split; [exact Hs |].
  rewrite Hp. apply Forall_lookup. intros i y Hy.
  destruct (Forall2_lookup_r _ _ _ _ _ Hconv Hy) as (x & _ & _ & Hr).
  exact Hr.
Qed.

Lemma longitudes_in_range_witness :
  exists out,
    ProcessData.lons_sorted [0; 180; 270; 270; 360]%Q = Some out /\
    out ≡ₚ ProcessData.lons_converted [0; 180; 270; 270; 360]%Q /\
    StronglySorted Qle out /\
    Forall (fun y => -180 < y <= 180)%Q out.
Proof.
  apply (longitudes_in_range [0; 180; 270; 270; 360]%Q).
  repeat constructor; discriminate.
Defined.

End Reordering.

(** ** When process() completes, and what the file then holds *)

Section ProcessRuns.
Import Np ProcessData.
Local Open Scope nat_scope.

Lemma metadata_Some_dims ds md :
  metadata ds = Some md -> 2 <= length (ds_lat ds) /\ 2 <= length (ds_lon ds).
Proof.
  unfold metadata. intros H.
  destruct (lons_sorted_is_Some (ds_lon ds)) as (lons_s & El & Hll & _).
  destruct (lats_sorted_is_Some (ds_lat ds)) as (lats_s & Ea & Hla).
  rewrite El, Ea in H. cbn in H.
  destruct (lons_s !! 0) as [lon0 |]; [| discriminate]. cbn in H.
  destruct (lons_s !! 1) as [lon1 |] eqn:H1; [| discriminate]. cbn in H.
  destruct (lats_s !! 0) as [lat0 |]; [| discriminate]. cbn in H.
  destruct (lats_s !! 1) as [lat1 |] eqn:G1; [| discriminate].
  apply lookup_lt_Some in H1, G1. lia.
Qed.

Lemma process_Some_dims ds o :
  process ds = Some o ->
  1 <= length (ds_time ds) /\ 2 <= length (ds_lat ds) /\
  2 <= length (ds_lon ds).
Proof.
  intros H. unfold process in H.
  destruct (ds_time ds !! 0) as [t0 |] eqn:Ht; [| discriminate].
  cbn in H. apply lookup_lt_Some in Ht.
  destruct (metadata ds) as [md |] eqn:Hmd; [| discriminate].
  destruct (metadata_Some_dims ds md Hmd). lia.
Qed.

(** X4: on a well-formed dataset [process()] completes if and only if there
    is at least one time stamp and the grid has at least two latitudes and
    two longitudes; otherwise it raises (the banner reads [times[0]], the
    bounds read [lons_sorted[1]] and [lats_sorted[1]]). *)
Theorem process_completes_iff ds :
  wf_dataset ds ->
  is_Some (process ds) <->
  1 <= length (ds_time ds) /\ 2 <= length (ds_lat ds) /\
  2 <= length (ds_lon ds).
Proof.
  intros Hwf. split.
  - intros [o H]. apply (process_Some_dims ds o H).
  - intros (Ht & Hlat & Hlon).
    destruct (process_ok ds Hwf Hlat Hlon Ht) as (md & bd & _ & Hrun & _).
    rewrite Hrun. eauto.
Qed.

Lemma process_completes_iff_witness :
  is_Some (process sample_ds) <->
  1 <= length (ds_time sample_ds) /\ 2 <= length (ds_lat sample_ds) /\
  2 <= length (ds_lon sample_ds).
Proof. apply (process_completes_iff sample_ds). apply sample_ds_wf. Defined.

Lemma mjoin_map2d {A B} (f : A -> B) (a : list (list A)) :
  mjoin (map2d f a) = f <$> mjoin a.
Proof.
  unfold map2d. induction a as [| row a IH]; [reflexivity |].
  csimpl. now rewrite IH, fmap_app.
Qed.

Lemma take_cols_perm {A} (a : list (list A)) idx out n :
  idx ≡ₚ seq 0 n -> Forall (fun row => length row = n) a ->
  take_cols a idx = Some out -> mjoin out ≡ₚ mjoin a.
Proof.
  intros Hp Ha H. apply mapM_Some in H.
  induction H as [| row row' a out Hrow _ IH]; [reflexivity |].
  apply Forall_cons in Ha as [Hlen Ha]. cbn.
  rewrite (IH Ha). apply Permutation_app_tail.
  apply (take_idx_perm row idx); [now rewrite Hlen | exact Hrow].
Qed.

Lemma encode_frame_perm frame ls lf out :
  ls ≡ₚ seq 0 (length ls) -> lf ≡ₚ seq 0 (length frame) ->
  Forall (fun row => length row = length ls) frame ->
  encode_frame frame ls lf = Some out ->
  mjoin out ≡ₚ encode_cell <$> mjoin frame.
Proof.
  intros Hls Hlf Hshape. rewrite encode_frame_eq. intros H.
  destruct (take_cols frame ls) as [f1 |] eqn:E1; [| discriminate]. cbn in H.
  destruct (take_idx f1 lf) as [f2 |] eqn:E2; [| discriminate]. cbn in H.
  injection H as <-. rewrite mjoin_map2d. apply fmap_Permutation.
  rewrite <- (take_cols_perm frame ls f1 _ Hls Hshape E1).
  apply join_Permutation, (take_idx_perm f1 lf); [| exact E2].
  now rewrite (take_cols_length _ _ _ E1).
Qed.

Lemma process_bytes_perm ds o :
  wf_dataset ds -> process ds = Some o ->
  sst_data_bin o ≡ₚ encode_cell <$> tofile (ds_sst ds).
Proof.
  intros Hwf Hrun.
  destruct (process_Some_dims ds o Hrun) as (Ht & Hlat & Hlon).
  destruct (process_ok ds Hwf Hlat Hlon Ht)
    as (md & bd & _ & Hrun' & Hlen & _ & Hall).
  rewrite Hrun in Hrun'. injection Hrun' as ->. cbn [sst_data_bin].
  destruct Hwf as [Hn Hshape].
  destruct (perm_seq_bounds _ _ (lon_sort_perm (ds_lon ds))) as [Hlsl _].
  assert (Forall2 (fun frame scaled =>
                     mjoin scaled ≡ₚ encode_cell <$> mjoin frame)
                  (ds_sst ds) bd) as HF.
  { apply Forall2_same_length_lookup_2; [lia |].
    intros t frame scaled Hf Hb.
    assert (t < length (ds_time ds)) as Hlt
      by (rewrite <- Hn; eapply lookup_lt_Some, Hf).
    destruct (Hall t Hlt) as (frame' & scaled' & Hf' & Hs & Hb').
    rewrite Hf in Hf'. injection Hf' as <-.
    rewrite Hb in Hb'. injection Hb' as <-.
    destruct (proj1 (Forall_lookup _ _) Hshape t frame Hf) as [Hrows Hcols].
    apply (encode_frame_perm frame (lon_sort (ds_lon ds))
             (lat_flip (ds_lat ds))); [| | | exact Hs].
    - rewrite Hlsl. apply lon_sort_perm.
    - rewrite Hrows. apply lat_flip_perm.
    - now rewrite Hlsl. }
  unfold tofile. clear -HF.
  induction HF as [| frame scaled sst bd Hfr _ IH]; [reflexivity |].
  cbn. rewrite !join_app, fmap_app, IH, Hfr. reflexivity.
Qed.



End ProcessRuns.

Section MissingCells.
Import Np ProcessData.
Local Open Scope nat_scope.

Lemma nodata_count_fmap (cells : list fval) :
  length (filter (fun u => u = NODATA) (encode_cell <$> cells)) =
  length (filter (fun x => isnan x = true) cells).
Proof.
  induction cells as [| x cells IH]; [reflexivity |].
  rewrite fmap_cons, !filter_cons.
  destruct (decide (encode_cell x = NODATA)) as [E | E];
    destruct (decide (isnan x = true)) as [N | N]; cbn; rewrite ?IH; try reflexivity.
  - apply encode_cell_sentinel in E. subst x. now contradict N.
  - destruct x; try discriminate. now contradict E.
Qed.

(** X6: sst_data.bin has exactly as many 255 bytes as the dataset has NaN
    cells. *)
Theorem nodata_count_preserved ds o :
  wf_dataset ds -> process ds = Some o ->
  length (filter (fun u => u = NODATA) (sst_data_bin o)) =
  length (filter (fun x => isnan x = true) (tofile (ds_sst ds))).
Proof.
  intros Hwf Hrun.
  rewrite (process_bytes_perm ds o Hwf Hrun).
  apply nodata_count_fmap.
Qed.

Lemma nodata_count_preserved_witness :
  exists o, process sample_ds = Some o /\
    length (filter (fun u => u = NODATA) (sst_data_bin o)) =
    length (filter (fun x => isnan x = true) (tofile (ds_sst sample_ds))).
Proof.
  destruct (process sample_ds) as [o |] eqn:E; [| discriminate].
  exists o. split; [reflexivity |].
  apply (nodata_count_preserved sample_ds o); [apply sample_ds_wf | exact E].
Defined.

End MissingCells.

(** ** Bounds written to the metadata *)

Section Bounds.
Import Np.
Local Open Scope Q_scope.

Lemma sorted_opp_le (l : list Q) :
  StronglySorted Qle (Qopp <$> l) -> StronglySorted (fun x y => y <= x) l.
Proof.
  induction l as [| x l IH]; cbn; intros H; [constructor |].
  inversion H as [| ? ? Hs Hx]; subst. constructor; [now apply IH |].
  apply Forall_forall. intros y Hy.
  pose proof (proj1 (Forall_forall _ _) Hx (- y)
                (list_elem_of_fmap_2 Qopp l y Hy)) as Hle.
  lra.
Qed.

Lemma sorted_first_last (R : relation Q) (l : list Q) a z :
  (forall x, R x x) -> StronglySorted R l -> l !! 0%nat = Some a -> last l = Some z ->
  Forall (fun x => R a x /\ R x z) l.
Proof.
  intros Hrefl Hs Ha Hz. apply Forall_lookup. intros i x Hi.
  rewrite last_lookup in Hz.
  assert (i < length l)%nat as Hlt by (eapply lookup_lt_Some, Hi).
  split.
  - destruct i as [| i].
    + rewrite Ha in Hi. injection Hi as ->. apply Hrefl.
    + apply (StronglySorted_lookup_lt R l 0 (S i) a x Hs); [lia | exact Ha | exact Hi].
  - destruct (decide (i = pred (length l))) as [-> | Hne].
    + rewrite Hz in Hi. injection Hi as ->. apply Hrefl.
    + apply (StronglySorted_lookup_lt R l i (pred (length l)) x z Hs);
        [lia | exact Hi | exact Hz].
Qed.

Lemma half_abs_nonneg d : 0 <= Qabs d / 2.
Proof.
  apply Qle_shift_div_l; [reflexivity |].
  rewrite Qmult_0_l. apply Qabs_nonneg.
Qed.

Lemma lats_sorted_descending_le lats :
  exists out, ProcessData.lats_sorted lats = Some out /\
              out ≡ₚ lats /\ StronglySorted (fun x y => y <= x) out.
Proof.
  destruct (lats_sorted_is_Some lats) as (out & Ht & _).
  exists out. split; [exact Ht |]. split.
  - apply (take_idx_perm lats (ProcessData.lat_flip lats));
      [apply lat_flip_perm | exact Ht].
  - apply sorted_opp_le.
    destruct (argsort_is_argsort (Qopp <$> lats)) as (_ & neg & Hn & Hs).
    rewrite take_idx_fmap in Hn.
    unfold ProcessData.lats_sorted, ProcessData.lat_flip in Ht.
    rewrite Ht in Hn. cbn in Hn. injection Hn as <-. exact Hs.
Qed.

(** X7: whenever process_data.py writes its metadata, the box given under
    "bounds" contains every cell centre: all latitudes lie between "south"
    and "north" and all converted longitudes between "west" and "east". *)
Theorem binary_bounds_contain_grid ds md :
  ProcessData.metadata ds = Some md ->
  exists north south west east,
    json_get "bounds" md = Some (JObj [
      ("north", JNum north); ("south", JNum south);
      ("west", JNum west); ("east", JNum east)]) /\
    Forall (fun lat => south <= lat <= north) (ds_lat ds) /\
    Forall (fun lon => west <= lon <= east)
           (ProcessData.lons_converted (ds_lon ds)).
Proof.
  intros Hmd.
  destruct (metadata_Some_dims ds md Hmd) as [Hlat Hlon].
  destruct (metadata_fields ds Hlat Hlon)
    as (lons_s & lats_s & lon0 & lon1 & lonz & lat0 & lat1 & latz &
        El & Ea & (H0 & _ & Hz) & (G0 & _ & Gz) & E).
  rewrite E in Hmd. injection Hmd as <-.
  exists (lat0 + Qabs (lat1 - lat0) / 2), (latz - Qabs (lat1 - lat0) / 2),
    (lon0 - Qabs (lon1 - lon0) / 2), (lonz + Qabs (lon1 - lon0) / 2).
  split; [reflexivity |].
  pose proof (half_abs_nonneg (lat1 - lat0)) as Hhlat.
  pose proof (half_abs_nonneg (lon1 - lon0)) as Hhlon.
  set (hlat := Qabs (lat1 - lat0) / 2) in *.
  set (hlon := Qabs (lon1 - lon0) / 2) in *.
  clearbody hlat hlon.
  split.
  - destruct (lats_sorted_descending_le (ds_lat ds)) as (out & Ea' & Hp & Hs).
    rewrite Ea in Ea'. injection Ea' as <-.
    rewrite <- Hp.
    eapply Forall_impl;
      [apply (sorted_first_last (fun x y => y <= x) lats_s lat0 latz
                Qle_refl Hs G0 Gz) |].
    cbn beta. intros lat [? ?]. split; lra.
  - destruct (longitudes_sorted_general (ds_lon ds)) as (out & El' & Hp & Hs).
    rewrite El in El'. injection El' as <-.
    rewrite <- Hp.
    eapply Forall_impl;
      [apply (sorted_first_last Qle lons_s lon0 lonz Qle_refl Hs H0 Hz) |].
    cbn beta. intros lon [? ?]. split; lra.
Qed.

End Bounds.

Section BoundsJson.
Import Np.
Local Open Scope Q_scope.

Lemma binary_bounds_contain_grid_witness :
  exists md north south west east,
    ProcessData.metadata sample_ds = Some md /\
    json_get "bounds" md = Some (JObj [
      ("north", JNum north); ("south", JNum south);
      ("west", JNum west); ("east", JNum east)]) /\
    Forall (fun lat => south <= lat <= north) (ds_lat sample_ds) /\
    Forall (fun lon => west <= lon <= east)
           (ProcessData.lons_converted (ds_lon sample_ds)).
Proof.
  destruct (ProcessData.metadata sample_ds) as [md |] eqn:E; [| discriminate].
  destruct (binary_bounds_contain_grid sample_ds md E)
    as (n & s & w & e & H).
  exists md, n, s, w, e. split; [reflexivity | exact H].
Defined.

Lemma fold_min_spec (r : list Q) : forall x,
  let m := fold_left (fun m y => if Qgtb m y then y else m) r x in
  (m = x \/ m ∈ r) /\ m <= x /\ Forall (fun y => m <= y) r.
Proof.
  induction r as [| y r IH]; intros x; cbn.
  - split; [now left |]. split; [apply Qle_refl | constructor].
  - pose proof (Qgtb_spec x y) as Hs.
    destruct (Qgtb x y).
    + destruct (IH y) as (Hin & Hle & Hall). cbn zeta in *.
      split; [right; destruct Hin as [-> | Hin]; [left | now right] |].
      split; [lra |]. constructor; assumption.
    + destruct (IH x) as (Hin & Hle & Hall). cbn zeta in *.
      split; [destruct Hin as [-> | Hin]; [now left | right; now right] |].
      split; [exact Hle |]. constructor; [lra | exact Hall].
Qed.

Lemma fold_max_spec (r : list Q) : forall x,
  let m := fold_left (fun m y => if Qgtb y m then y else m) r x in
  (m = x \/ m ∈ r) /\ x <= m /\ Forall (fun y => y <= m) r.
Proof.
  induction r as [| y r IH]; intros x; cbn.
  - split; [now left |]. split; [apply Qle_refl | constructor].
  - pose proof (Qgtb_spec y x) as Hs.
    destruct (Qgtb y x).
    + destruct (IH y) as (Hin & Hle & Hall). cbn zeta in *.
      split; [right; destruct Hin as [-> | Hin]; [left | now right] |].
      split; [lra |]. constructor; assumption.
    + destruct (IH x) as (Hin & Hle & Hall). cbn zeta in *.
      split; [destruct Hin as [-> | Hin]; [now left | right; now right] |].
      split; [exact Hle |]. constructor; [lra | exact Hall].
Qed.

(** Python's [min] and [max] return an element of the list that bounds all
    the others. *)
Lemma py_min_spec a m :
  py_min a = Some m -> m ∈ a /\ Forall (fun y => m <= y) a.
Proof.
  destruct a as [| x r]; [discriminate |]. cbn. intros [= <-].
  destruct (fold_min_spec r x) as (Hin & Hle & Hall). cbn zeta in *.
  split; [destruct Hin as [-> | Hin]; [left | now right] |].
  constructor; assumption.
Qed.

Lemma py_max_spec a m :
  py_max a = Some m -> m ∈ a /\ Forall (fun y => y <= m) a.
Proof.
  destruct a as [| x r]; [discriminate |]. cbn. intros [= <-].
  destruct (fold_max_spec r x) as (Hin & Hle & Hall). cbn zeta in *.
  split; [destruct Hin as [-> | Hin]; [left | now right] |].
  constructor; assumption.
Qed.

Lemma json_metadata_empty lons lats times :
  lons = [] \/ lats = [] -> ConvertToJson.metadata lons lats times = None.
Proof.
  intros [-> | ->].
  - reflexivity.
  - unfold ConvertToJson.metadata.
    destruct (ConvertToJson.lons_sorted lons) as [lons_s |]; [| reflexivity].
    cbn. destruct (py_min lons_s); [| reflexivity]. cbn.
    destruct (py_max lons_s); reflexivity.
Qed.

(** X8: whenever convert_to_json.py writes its metadata, "minLat" and
    "maxLat" are latitudes of the grid and "minLon" and "maxLon" are
    converted longitudes of the grid, and they bound all the others: the
    box is tight, without the half-cell margin of the binary converter.  On
    an empty latitude or longitude array nothing is written ([min]
    raises). *)
Theorem json_bounds_are_extremes lons lats times :
  (forall md,
     ConvertToJson.metadata lons lats times = Some md ->
     exists min_lon max_lon min_lat max_lat,
       json_get "bounds" md = Some (JObj [
         ("minLon", JNum min_lon); ("maxLon", JNum max_lon);
         ("minLat", JNum min_lat); ("maxLat", JNum max_lat)]) /\
       (min_lon ∈ ConvertToJson.lons_converted lons /\
        max_lon ∈ ConvertToJson.lons_converted lons /\
        Forall (fun lon => min_lon <= lon <= max_lon)
               (ConvertToJson.lons_converted lons)) /\
       (min_lat ∈ lats /\ max_lat ∈ lats /\
        Forall (fun lat => min_lat <= lat <= max_lat) lats)) /\
  (lons = [] \/ lats = [] -> ConvertToJson.metadata lons lats times = None).
Proof.
  split.
  - intros md H. unfold ConvertToJson.metadata in H.
    destruct (ConvertToJson.lons_sorted lons) as [lons_s |] eqn:El;
      [| discriminate]. cbn in H.
    destruct (py_min lons_s) as [min_lon |] eqn:H1; [| discriminate]. cbn in H.
    destruct (py_max lons_s) as [max_lon |] eqn:H2; [| discriminate]. cbn in H.
    destruct (py_min lats) as [min_lat |] eqn:H3; [| discriminate]. cbn in H.
    destruct (py_max lats) as [max_lat |] eqn:H4; [| discriminate]. cbn in H.
    injection H as <-.
    exists min_lon, max_lon, min_lat, max_lat. split; [reflexivity |].
    apply py_min_spec in H1 as [I1 A1]. apply py_max_spec in H2 as [I2 A2].
    apply py_min_spec in H3 as [I3 A3]. apply py_max_spec in H4 as [I4 A4].
    assert (lons_s ≡ₚ ConvertToJson.lons_converted lons) as Hp.
    { destruct (longitudes_sorted_general lons) as (out & El' & Hp & _).
      unfold ConvertToJson.lons_sorted, ConvertToJson.sort_idx in El.
      unfold ProcessData.lons_sorted, ProcessData.lon_sort in El'.
      rewrite lons_converted_agree in El', Hp.
      rewrite El in El'. injection El' as <-. exact Hp. }
    rewrite <- Hp. split; [| split; [exact I3 | split; [exact I4 |]]].
    + split; [exact I1 |]. split; [exact I2 |].
      apply Forall_forall. intros x Hx.
      split; [apply (proj1 (Forall_forall _ _) A1 x Hx)
             | apply (proj1 (Forall_forall _ _) A2 x Hx)].
    + apply Forall_forall. intros x Hx.
      split; [apply (proj1 (Forall_forall _ _) A3 x Hx)
             | apply (proj1 (Forall_forall _ _) A4 x Hx)].
  - apply json_metadata_empty.
Qed.

Lemma json_bounds_are_extremes_witness :
  ConvertToJson.metadata [] [1; 2] ["1854-01-01"] = None /\
  exists md min_lon max_lon min_lat max_lat,
    ConvertToJson.metadata (ds_lon sample_ds) (ds_lat sample_ds)
      (ds_time sample_ds) = Some md /\
    json_get "bounds" md = Some (JObj [
      ("minLon", JNum min_lon); ("maxLon", JNum max_lon);
      ("minLat", JNum min_lat); ("maxLat", JNum max_lat)]).
Proof.
  split.
  - apply (proj2 (json_bounds_are_extremes [] [1; 2] ["1854-01-01"])).
    now left.
  - destruct (ConvertToJson.metadata (ds_lon sample_ds) (ds_lat sample_ds)
                (ds_time sample_ds)) as [md |] eqn:E; [| discriminate].
    destruct (proj1 (json_bounds_are_extremes _ _ _) md E)
      as (a & b & c & d & H & _).
    exists md, a, b, c, d. split; [reflexivity | exact H].
Defined.

End BoundsJson.

(** ** Selection of a time step by label *)

Section LabelSelection.
Context {A : Type}.
Implicit Types (times : list string) (sst : list (list (list A))).
Local Open Scope nat_scope.

Lemma frames_at_cons t0 times f0 sst t :
  Xr.frames_at (t0 :: times) (f0 :: sst) t =
  if decide (t0 = t) then f0 :: Xr.frames_at times sst t
  else Xr.frames_at times sst t.
Proof.
  unfold Xr.frames_at.
  change (zip (t0 :: times) (f0 :: sst)) with ((t0, f0) :: zip times sst).
  rewrite filter_cons. cbn [fst].
  destruct (decide (t0 = t)); reflexivity.
Qed.

Lemma frames_at_absent times sst t :
  t ∉ times -> Xr.frames_at times sst t = [].
Proof.
  revert sst.
  induction times as [| t0 ts IH]; intros sst Hnot; [reflexivity |].
  destruct sst as [| f0 fs]; [reflexivity |].
  apply not_elem_of_cons in Hnot as [Hne Hnot].
  rewrite frames_at_cons, decide_False by congruence. apply IH, Hnot.
Qed.

(** A label that occurs once selects the frame at its position. *)
Lemma frames_at_lookup times sst i t frame :
  NoDup times -> times !! i = Some t -> sst !! i = Some frame ->
  Xr.frames_at times sst t = [frame].
Proof.
  revert sst i. induction times as [| t0 ts IH]; intros sst i Hnd Ht Hf;
    [discriminate |].
  destruct sst as [| f0 fs]; [discriminate |].
  apply NoDup_cons in Hnd as [Hnot Hnd]. rewrite frames_at_cons.
  destruct i as [| i]; cbn in Ht, Hf.
  - injection Ht as ->. injection Hf as ->.
    rewrite decide_True by reflexivity.
    now rewrite (frames_at_absent ts fs t Hnot).
  - assert (t0 <> t) as Hne.
    { intros ->. apply Hnot. eapply list_elem_of_lookup_2, Ht. }
    rewrite decide_False by exact Hne. exact (IH fs i Hnd Ht Hf).
Qed.

Lemma sel_time_lookup times sst i t frame :
  NoDup times -> times !! i = Some t -> sst !! i = Some frame ->
  Xr.sel_time times sst t = Some (Xr.Block2 frame).
Proof.
  intros Hnd Ht Hf. unfold Xr.sel_time.
  now rewrite (frames_at_lookup times sst i t frame Hnd Ht Hf).
Qed.

End LabelSelection.

(** ** convert_data() as a whole *)

Section ConvertRuns.
Import Np ConvertToJson.
Local Open Scope nat_scope.

Lemma sort_idx_perm lons : sort_idx lons ≡ₚ seq 0 (length lons).
Proof.
  unfold sort_idx. rewrite <- lons_converted_agree. apply lon_sort_perm.
Qed.

Lemma sample_ds_times_NoDup : NoDup (ds_time sample_ds).
Proof.
  apply NoDup_cons. split; [| apply NoDup_singleton].
  apply not_elem_of_cons. split; [discriminate | apply not_elem_of_nil].
Qed.

Lemma sst_int_is_Some f frame idx n :
  Forall (fun row => length row = n) frame -> Forall (fun j => j < n) idx ->
  is_Some (sst_int f (Xr.Block2 frame) idx).
Proof.
  intros Hrows Hidx. rewrite sst_int_eq.
  destruct (take_cols_is_Some frame idx n Hrows Hidx) as [sorted E].
  rewrite E. cbn. eauto.
Qed.

Lemma sst_int_block2 f frame idx b :
  sst_int f (Xr.Block2 frame) idx = Some b ->
  exists sorted, take_cols frame idx = Some sorted /\
                 b = Xr.Block2 (map2d (encode_cell f) sorted).
Proof.
  rewrite sst_int_eq. intros H.
  destruct (take_cols frame idx) as [sorted |]; [| discriminate].
  cbn in H. injection H as <-. eauto.
Qed.

Lemma sst_int_cell f frame idx out i j j' :
  sst_int f (Xr.Block2 frame) idx = Some (Xr.Block2 out) ->
  idx !! j = Some j' ->
  cell out i j = encode_cell f <$> cell frame i j'.
Proof.
  intros H Hj.
  destruct (sst_int_block2 _ _ _ _ H) as (sorted & E & Eb).
  injection Eb as ->. rewrite cell_map2d. f_equal. unfold cell.
  destruct (frame !! i) as [row |] eqn:Hrow.
  - destruct (take_cols_lookup _ _ _ _ _ E Hrow) as (row' & Hr' & Ht).
    rewrite Hr'. cbn. apply (take_idx_lookup _ _ _ _ _ Ht Hj).
  - apply lookup_ge_None in Hrow.
    rewrite lookup_ge_None_2; [reflexivity |].
    now rewrite (take_cols_length _ _ _ E).
Qed.

Lemma sst_int_shape f frame idx b :
  sst_int f (Xr.Block2 frame) idx = Some b ->
  exists out, b = Xr.Block2 out /\ length out = length frame /\
              Forall (fun row => length row = length idx) out.
Proof.
  intros H.
  destruct (sst_int_block2 _ _ _ _ H) as (sorted & E & ->).
  eexists. split; [reflexivity |]. unfold map2d. rewrite length_fmap.
  split; [eapply take_cols_length, E |].
  apply Forall_fmap, Forall_lookup. intros i row Hi. cbn. rewrite length_fmap.
  apply mapM_Some in E.
  destruct (Forall2_lookup_r _ _ _ _ _ E Hi) as (src & _ & Hsrc).
  eapply take_idx_length, Hsrc.
Qed.

Lemma convert_data_Some_dims f ds o :
  convert_data f ds = Some o ->
  1 <= length (ds_lat ds) /\ 1 <= length (ds_lon ds).
Proof.
  unfold convert_data, TIME_STEP. rewrite !stride_one. intros H.
  destruct (metadata (ds_lon ds) (ds_lat ds) (ds_time ds)) as [md |] eqn:E;
    [| discriminate].
  destruct (ds_lon ds) as [| x lons] eqn:Elon.
  - rewrite (json_metadata_empty [] (ds_lat ds) (ds_time ds)
               (or_introl eq_refl)) in E. discriminate.
  - destruct (ds_lat ds) as [| y lats] eqn:Elat.
    + rewrite (json_metadata_empty (x :: lons) [] (ds_time ds)
                 (or_intror eq_refl)) in E. discriminate.
    + cbn. lia.
Qed.

(** X9: on a well-formed dataset whose time stamps are pairwise distinct,
    [convert_data()] completes if and only if the grid has at least one
    latitude and one longitude (an empty time axis is accepted, unlike in
    process_data.py). *)
Theorem convert_data_completes_iff f ds :
  wf_dataset ds -> NoDup (ds_time ds) ->
  is_Some (convert_data f ds) <->
  1 <= length (ds_lat ds) /\ 1 <= length (ds_lon ds).
Proof.
  intros [Hn Hshape] Hnd. split.
  - intros [o H]. apply (convert_data_Some_dims f ds o H).
  - unfold convert_data, TIME_STEP. rewrite !stride_one.
    intros [Hlat Hlon].
    destruct (json_metadata_fields (ds_lon ds) (ds_lat ds) (ds_time ds)
                Hlon Hlat) as (? & ? & ? & ? & ? & _ & _ & _ & _ & E).
    rewrite E. cbn.
    destruct (perm_seq_bounds _ _ (sort_idx_perm (ds_lon ds))) as [_ Hb].
    assert (is_Some (mapM (fun t =>
                             sst_data ← Xr.sel_time (ds_time ds) (ds_sst ds) t;
                             sst_int f sst_data (sort_idx (ds_lon ds)))
                          (ds_time ds))) as [data Hd].
    { apply mapM_is_Some, Forall_lookup. intros k t Hk. cbn.
      destruct (lookup_lt_is_Some_2 (ds_sst ds) k) as [frame Hf].
      { apply lookup_lt_Some in Hk. lia. }
      rewrite (sel_time_lookup _ _ k t frame Hnd Hk Hf). cbn.
      destruct (proj1 (Forall_lookup _ _) Hshape k frame Hf) as [_ Hcols].
      eapply sst_int_is_Some; eassumption. }
    rewrite Hd. cbn. eauto.
Qed.

Lemma convert_data_completes_iff_witness :
  is_Some (convert_data Ieee.binary32 sample_ds) <->
  1 <= length (ds_lat sample_ds) /\ 1 <= length (ds_lon sample_ds).
Proof.
  apply (convert_data_completes_iff Ieee.binary32 sample_ds).
  - apply sample_ds_wf.
  - apply sample_ds_times_NoDup.
Defined.

(** X10: what [convert_data()] writes under "data" for a well-formed
    dataset with pairwise distinct time stamps and pairwise distinct
    converted longitudes (so that [np.argsort] has one possible result).
    There is one 2-D frame per time stamp, each of nlat rows of nlon
    columns; the cell of time [t], row [i] and column [j] is the code of
    source cell [(i, sort_idx[j])] of frame [t], and column [j] is
    labelled, in the "lons" array, with the converted longitude of source
    column [sort_idx[j]].  Rows keep the source latitude order: nothing is
    flipped. *)
Theorem convert_data_layout f ds o :
  wf_dataset ds -> NoDup (ds_time ds) ->
  pairwise_distinct (lons_converted (ds_lon ds)) ->
  convert_data f ds = Some o ->
  (forall idx, is_argsort (lons_converted (ds_lon ds)) idx ->
               idx = sort_idx (ds_lon ds)) /\
  length (all_data o) = length (ds_time ds) /\
  Forall (fun b =>
            exists frame,
              b = Xr.Block2 frame /\
              length frame = length (ds_lat ds) /\
              Forall (fun row => length row = length (ds_lon ds)) frame)
         (all_data o) /\
  exists lons_s,
    lons_sorted (ds_lon ds) = Some lons_s /\
    json_get "lons" (metadata_json o) = Some (JArr (JNum <$> lons_s)) /\
    json_get "lats" (metadata_json o) = Some (JArr (JNum <$> ds_lat ds)) /\
    forall t i j,
      t < length (ds_time ds) -> i < length (ds_lat ds) ->
      j < length (ds_lon ds) ->
      exists j' frame x out,
        sort_idx (ds_lon ds) !! j = Some j' /\
        lons_s !! j = lons_converted (ds_lon ds) !! j' /\
        ds_sst ds !! t = Some frame /\
        cell frame i j' = Some x /\
        all_data o !! t = Some (Xr.Block2 out) /\
        cell out i j = Some (encode_cell f x).
Proof.
  intros Hwf Hnd Hdist Hrun.
  split; [intros idx Hidx; now apply argsort_unique |].
  destruct (convert_data_Some_dims f ds o Hrun) as [Hlat Hlon].
  destruct Hwf as [Hn Hshape].
  unfold convert_data, TIME_STEP in Hrun. rewrite !stride_one in Hrun.
  destruct (json_metadata_fields (ds_lon ds) (ds_lat ds) (ds_time ds)
              Hlon Hlat)
    as (lons_s & mlo & mhi & mla & mha & El & _ & _ & _ & E).
  rewrite E in Hrun. cbn in Hrun.
  destruct (mapM _ _) as [data |] eqn:Hd; [| discriminate].
  cbn in Hrun. injection Hrun as <-. cbn [all_data metadata_json].
  apply mapM_Some in Hd.
  destruct (perm_seq_bounds _ _ (sort_idx_perm (ds_lon ds))) as [Hil Hib].
  assert (length data = length (ds_time ds)) as Hlen
    by (symmetry; apply (Forall2_length _ _ _ Hd)).
  assert (forall t b, data !! t = Some b ->
            exists frame, ds_sst ds !! t = Some frame /\
                          sst_int f (Xr.Block2 frame) (sort_idx (ds_lon ds))
                            = Some b)
    as Hframes.
  { intros t b Ht.
    destruct (Forall2_lookup_r _ _ _ _ _ Hd Ht) as (s & Hs & Hrun).
    destruct (lookup_lt_is_Some_2 (ds_sst ds) t) as [frame Hf].
    { apply lookup_lt_Some in Hs. lia. }
    rewrite (sel_time_lookup _ _ t s frame Hnd Hs Hf) in Hrun. cbn in Hrun.
    eauto. }
  split; [exact Hlen |]. split.
  - apply Forall_lookup. intros t b Ht.
    destruct (Hframes t b Ht) as (frame & Hf & Hs).
    destruct (sst_int_shape _ _ _ _ Hs) as (out & -> & H1 & H2).
    destruct (proj1 (Forall_lookup _ _) Hshape t frame Hf) as [Hrows _].
    exists out. split; [reflexivity |]. rewrite H1, Hrows.
    split; [reflexivity |]. now rewrite Hil in H2.
  - exists lons_s. split; [exact El |]. split; [reflexivity |].
    split; [reflexivity |].
    intros t i j Ht Hi Hj.
    destruct (lookup_lt_is_Some_2 data t ltac:(lia)) as [b Hb].
    destruct (Hframes t b Hb) as (frame & Hf & Hs).
    destruct (sst_int_shape _ _ _ _ Hs) as (out & -> & _ & _).
    destruct (lookup_lt_is_Some_2 (sort_idx (ds_lon ds)) j ltac:(lia))
      as [j' Hj'].
    pose proof (proj1 (Forall_lookup _ _) Hib j j' Hj') as Bj. cbn in Bj.
    destruct (proj1 (Forall_lookup _ _) Hshape t frame Hf) as [Hrows Hcols].
    destruct (lookup_lt_is_Some_2 frame i ltac:(lia)) as [row Hrow].
    pose proof (proj1 (Forall_lookup _ _) Hcols i row Hrow) as Hrl. cbn in Hrl.
    destruct (lookup_lt_is_Some_2 row j' ltac:(lia)) as [x Hx].
    assert (cell frame i j' = Some x) as Hc
      by (unfold cell; rewrite Hrow; exact Hx).
    exists j', frame, x, out. split; [exact Hj' |].
    split; [apply (take_idx_lookup _ _ _ _ _ El Hj') |].
    split; [exact Hf |]. split; [exact Hc |]. split; [exact Hb |].
    rewrite (sst_int_cell _ _ _ _ _ _ _ Hs Hj'), Hc. reflexivity.
Qed.

Lemma convert_data_layout_witness :
  exists o, convert_data Ieee.binary32 sample_ds = Some o /\
            length (all_data o) = length (ds_time sample_ds).
Proof.
  destruct (convert_data Ieee.binary32 sample_ds) as [o |] eqn:E;
    [| discriminate].
  exists o. split; [reflexivity |].
  apply (convert_data_layout Ieee.binary32 sample_ds o);
    [apply sample_ds_wf | apply sample_ds_times_NoDup | reflexivity | exact E].
Defined.

End ConvertRuns.

(** ** download_data: the download itself *)

Section Download.
Import SstAnimatedMap.

Lemma write_chunks_fold total chunks : forall (st : world * Z) content,
  fs st.1 !! DATA_FILE = Some content ->
  let r :=
    fold_left
      (fun (st : world * Z) chunk =>
         let w1 := write DATA_FILE chunk st.1 in
         let downloaded := st.2 + Z.of_nat (length chunk) in
         (if decide (total = 0) then w1 else print (Progress downloaded total) w1,
          downloaded))
      chunks st in
  fs r.1 = <[DATA_FILE := content ++ mjoin chunks]> (fs st.1) /\
  requests r.1 = requests st.1.
Proof.
  induction chunks as [| chunk chunks IH]; intros st content Hc; cbn zeta.
  - cbn. rewrite app_nil_r. split; [| reflexivity].
    symmetry. now apply insert_id.
  - cbn [fold_left].
    set (st' := (if decide (total = 0) then write DATA_FILE chunk st.1
                 else print (Progress (st.2 + Z.of_nat (length chunk)) total)
                        (write DATA_FILE chunk st.1),
                 st.2 + Z.of_nat (length chunk))).
    assert (fs st'.1 = <[DATA_FILE := content ++ chunk]> (fs st.1) /\
            requests st'.1 = requests st.1) as [Hfs Hreq].
    { unfold st'. cbn [fst]. destruct (decide (total = 0)); cbn;
        rewrite Hc; cbn; split; reflexivity. }
    destruct (IH st' (content ++ chunk)) as [H1 H2].
    { rewrite Hfs. apply lookup_insert_eq. }
    cbn zeta in H1, H2. rewrite H1, H2, Hfs, Hreq.
    split; [| reflexivity].
    rewrite insert_insert_eq. cbn [mjoin list_join]. now rewrite <- app_assoc.
Qed.

Lemma write_chunks_spec total chunks (w : world) :
  fs (write_chunks total chunks (open_wb DATA_FILE w)) =
    <[DATA_FILE := mjoin chunks]> (fs w) /\
  requests (write_chunks total chunks (open_wb DATA_FILE w)) = requests w.
Proof.
  unfold write_chunks.
  destruct (write_chunks_fold total chunks (open_wb DATA_FILE w, 0) [])
    as [H1 H2].
  { cbn. apply lookup_insert_eq. }
  cbn zeta in H1, H2. rewrite H1, H2. cbn.
  split; [apply insert_insert_eq | reflexivity].
Qed.

(** X11: when the data file is missing and the server answers with a
    success status and a well-formed (or absent) content-length, the
    function returns normally, exactly one request has been issued, to
    DATA_URL, and the data file holds the chunks of the body in order
    (it is created empty when the body has no chunk). *)
Theorem download_writes_body server (w : world) resp :
  fs w !! DATA_FILE = None ->
  server DATA_URL = Some resp ->
  resp_ok resp = true ->
  resp_content_length resp <> CLMalformed ->
  exists w',
    download_data server w = (Returned, w') /\
    fs w' = <[DATA_FILE := mjoin (resp_chunks resp)]> (fs w) /\
    requests w' = requests w ++ [DATA_URL].
Proof.
  intros Hno Hsrv Hok Hcl. unfold download_data.
  destruct (decide (is_Some (fs w !! DATA_FILE))) as [[c Hc] | _];
    [congruence |].
  rewrite Hsrv, Hok. cbn [negb].
  set (w0 := http_get DATA_URL _).
  assert (fs w0 = fs w /\ requests w0 = requests w ++ [DATA_URL]) as [Hf Hr]
    by (split; reflexivity).
  destruct (write_chunks_spec
              match resp_content_length resp with CLInt n => n | _ => 0 end
              (resp_chunks resp) w0) as [H1 H2].
  destruct (resp_content_length resp) as [| n |]; [| | congruence];
    (eexists; split; [reflexivity |]; cbn [fs requests print];
     split; [rewrite H1; f_equal; exact Hf | rewrite H2; exact Hr]).
Qed.

Lemma download_writes_body_witness :
  exists w',
    download_data sample_server {| fs := ∅; requests := []; stdout := [] |}
      = (Returned, w') /\
    fs w' = <[DATA_FILE := [1; 2; 3; 4]]> ∅ /\
    requests w' = [DATA_URL].
Proof.
  apply (download_writes_body sample_server
           {| fs := ∅; requests := []; stdout := [] |}
           {| resp_ok := true; resp_content_length := CLInt 4;
              resp_chunks := [[1; 2]; [3; 4]] |});
    [reflexivity | reflexivity | reflexivity | discriminate].
Defined.

(** X12: when the data file is missing and the request fails (no answer,
    an error status, or a content-length that is not a number), the
    function raises after one request and leaves the filesystem as it was:
    no empty or partial data file is created. *)
Theorem download_failure_leaves_files server (w : world) :
  fs w !! DATA_FILE = None ->
  (server DATA_URL = None \/
   exists resp, server DATA_URL = Some resp /\
                (resp_ok resp = false \/
                 resp_content_length resp = CLMalformed)) ->
  exists exn w',
    download_data server w = (Raised exn, w') /\
    fs w' = fs w /\
    requests w' = requests w ++ [DATA_URL].
Proof.
  intros Hno Hfail. unfold download_data.
  destruct (decide (is_Some (fs w !! DATA_FILE))) as [[c Hc] | _];
    [congruence |].
  destruct Hfail as [-> | (resp & -> & Hbad)].
  - do 2 eexists. split; [reflexivity |]. split; reflexivity.
  - destruct (resp_ok resp) eqn:Hok; cbn [negb].
    + destruct Hbad as [Hbad | Hbad]; [discriminate |]. rewrite Hbad.
      do 2 eexists. split; [reflexivity |]. split; reflexivity.
    + do 2 eexists. split; [reflexivity |]. split; reflexivity.
Qed.

Lemma download_failure_leaves_files_witness :
  exists exn w',
    download_data (fun _ => None) {| fs := ∅; requests := []; stdout := [] |}
      = (Raised exn, w') /\
    fs w' = ∅ /\ requests w' = [] ++ [DATA_URL].
Proof.
  apply (download_failure_leaves_files (fun _ => None)
           {| fs := ∅; requests := []; stdout := [] |});
    [reflexivity | now left].
Defined.

(** X13: in every case (file present or not, any server) [download_data]
    changes no file other than the data file, issues at most one request,
    to DATA_URL, and only adds to what was printed. *)
Theorem download_touches_only_data_file server (w : world) :
  let w' := (download_data server w).2 in
  (forall path, path <> DATA_FILE -> fs w' !! path = fs w !! path) /\
  (requests w' = requests w \/ requests w' = requests w ++ [DATA_URL]) /\
  stdout w `prefix_of` stdout w'.
Proof.
  cbn zeta. unfold download_data.
  destruct (decide (is_Some (fs w !! DATA_FILE))) as [_ | _].
  - cbn. split; [reflexivity |]. split; [now left |]. now eexists.
  - set (w0 := http_get DATA_URL _).
    assert (fs w0 = fs w /\ requests w0 = requests w ++ [DATA_URL] /\
            stdout w `prefix_of` stdout w0) as (Hf & Hr & Hp).
    { split; [reflexivity |]. split; [reflexivity |].
      cbn. rewrite <- app_assoc. now eexists. }
    assert ((forall path, path <> DATA_FILE -> fs w0 !! path = fs w !! path) /\
            (requests w0 = requests w \/
             requests w0 = requests w ++ [DATA_URL]) /\
            stdout w `prefix_of` stdout w0) as Hfail.
    { split; [intros path _; now rewrite Hf |]. split; [now right | exact Hp]. }
    destruct (server DATA_URL) as [resp |]; [| exact Hfail].
    destruct (resp_ok resp); cbn [negb]; [| exact Hfail].
    assert (forall total,
              stdout w0 `prefix_of`
                stdout (write_chunks total (resp_chunks resp)
                          (open_wb DATA_FILE w0))) as Hout.
    { intros total. unfold write_chunks.
      assert (forall chunks (st : world * Z),
                stdout st.1 `prefix_of`
                stdout (fold_left
                  (fun (st : world * Z) chunk =>
                     let w1 := write DATA_FILE chunk st.1 in
                     let downloaded := st.2 + Z.of_nat (length chunk) in
                     (if decide (total = 0) then w1
                      else print (Progress downloaded total) w1, downloaded))
                  chunks st).1) as Hfold.
      { induction chunks as [| chunk chunks IH]; intros st; [reflexivity |].
        cbn [fold_left]. etransitivity; [| apply IH].
        cbn [fst]. destruct (decide (total = 0)); cbn;
          [reflexivity | now eexists]. }
      apply (Hfold (resp_chunks resp) (open_wb DATA_FILE w0, 0)). }
    assert (forall total,
              let w1 := print (Line "Download complete: sst.mnmean.nc")
                          (write_chunks total (resp_chunks resp)
                             (open_wb DATA_FILE w0)) in
              (forall path, path <> DATA_FILE -> fs w1 !! path = fs w !! path) /\
              (requests w1 = requests w \/
               requests w1 = requests w ++ [DATA_URL]) /\
              stdout w `prefix_of` stdout w1) as Hdone.
    { intros total. cbn zeta. cbn [fs requests stdout print].
      destruct (write_chunks_spec total (resp_chunks resp) w0) as [H1 H2].
      rewrite H1, H2. split.
      - intros path Hne. rewrite lookup_insert_ne by congruence.
        now rewrite Hf.
      - split; [right; exact Hr |].
        etransitivity; [exact Hp |].
        etransitivity; [apply (Hout total) |]. now eexists. }
    destruct (resp_content_length resp) as [| n |];
      [apply (Hdone 0) | apply (Hdone n) | exact Hfail].
Qed.

(** X14: a run that returns normally leaves the data file on disk, so a
    second run, against any server, issues no request and changes no file:
    the download happens at most once. *)
Theorem download_twice_downloads_once server (w w' : world) :
  download_data server w = (Returned, w') ->
  forall server', exists w'',
    download_data server' w' = (Returned, w'') /\
    fs w'' = fs w' /\ requests w'' = requests w'.
Proof.
  intros Hrun server'.
  assert (is_Some (fs w' !! DATA_FILE)) as Hfile.
  { unfold download_data in Hrun.
    destruct (decide (is_Some (fs w !! DATA_FILE))) as [Hex | _].
    - injection Hrun as <-. exact Hex.
    - destruct (server DATA_URL) as [resp |]; [| discriminate].
      destruct (resp_ok resp); cbn [negb] in Hrun; [| discriminate].
      destruct (resp_content_length resp) as [| n |]; [| | discriminate];
        injection Hrun as <-; cbn [fs print];
        match goal with
        | |- context [write_chunks ?t ?c (open_wb DATA_FILE ?w0)] =>
            destruct (write_chunks_spec t c w0) as [H1 _]; rewrite H1
        end; rewrite lookup_insert_eq; eauto. }
  unfold download_data.
  destruct (decide (is_Some (fs w' !! DATA_FILE))) as [_ | Hno];
    [| contradiction].
  eexists. split; [reflexivity |]. split; reflexivity.
Qed.

Lemma download_twice_downloads_once_witness :
  exists w' w'',
    download_data sample_server {| fs := ∅; requests := []; stdout := [] |}
      = (Returned, w') /\
    download_data (fun _ => None) w' = (Returned, w'') /\
    fs w'' = fs w' /\ requests w'' = requests w'.
Proof.
  assert (download_data sample_server
            {| fs := ∅; requests := []; stdout := [] |}
          = (Returned,
             (download_data sample_server
                {| fs := ∅; requests := []; stdout := [] |}).2)) as E
    by reflexivity.
  destruct (download_twice_downloads_once sample_server _ _ E (fun _ => None))
    as (w'' & H).
  eexists. exists w''. split; [exact E | exact H].
Defined.

End Download.

Section DownloadFrame.
Import SstAnimatedMap.

Lemma download_touches_only_data_file_witness :
  let w := {| fs := {[ "notes.txt" := [1; 2] ]}; requests := []; stdout := [] |} in
  fs (download_data sample_server w).2 !! "notes.txt" = fs w !! "notes.txt".
Proof.
  cbn zeta.
  apply (download_touches_only_data_file sample_server
           {| fs := {[ "notes.txt" := [1; 2] ]}; requests := []; stdout := [] |}).
  discriminate.
Defined.

End DownloadFrame.

(** ** load_and_process_data: subsampling *)

Section Subsampling.
Import Np SstAnimatedMap.
Local Open Scope nat_scope.

Lemma stride_from_lookup {A} (step : nat) (a : list A) :
  1 <= step -> forall skip i,
  stride_from step skip a !! i = a !! (skip + i * step).
Proof.
  intros Hstep. induction a as [| x a IH]; intros skip i; [reflexivity |].
  cbn [stride_from]. destruct skip as [| k].
  - destruct i as [| i]; [reflexivity |].
    cbn [lookup list_lookup]. rewrite IH.
    replace (0 + S i * step) with (S (step - 1 + i * step)) by lia.
    reflexivity.
  - rewrite IH. reflexivity.
Qed.

(** [a[::step]] keeps the elements at positions 0, step, 2 step, ... *)
Lemma stride_lookup {A} (step : nat) (a : list A) i :
  1 <= step -> stride step a !! i = a !! (i * step).
Proof. intros H. unfold stride. now rewrite stride_from_lookup. Qed.

Lemma stride_lt_length {A} (step : nat) (a : list A) i :
  1 <= step -> i < length (stride step a) <-> i * step < length a.
Proof.
  intros H. rewrite <- !lookup_lt_is_Some. now rewrite stride_lookup.
Qed.

Lemma stride_length_same {A B} (step : nat) (a : list A) (b : list B) :
  length a = length b ->
  length (stride step a) = length (stride step b).
Proof.
  unfold stride. generalize 0 as skip. revert b.
  induction a as [| x a IH]; intros [| y b] skip Hl; try discriminate;
    [reflexivity |].
  cbn [stride_from]. injection Hl as Hl.
  destruct skip; cbn [length]; [f_equal |]; now apply IH.
Qed.

(** X15: the subsampling of [load_and_process_data] for any values of the
    module constants.  With a time step of at least 1 the result is a
    well-formed dataset; with [k] the spatial step when it exceeds 1 and 1
    otherwise, the new cell [(t, i, j)] is the old cell
    [(t * TIME_STEP, i * k, j * k)] and the coordinates are subsampled the
    same way, so data and coordinates stay aligned.  A zero time step
    raises. *)
Theorem subsample_keeps_alignment spatial time_step ds :
  wf_dataset ds ->
  subsample spatial 0 ds = None /\
  (1 <= time_step ->
   exists sst,
     subsample spatial time_step ds = Some sst /\
     wf_dataset sst /\
     let k := if decide (1 < spatial) then spatial else 1 in
     (forall t, ds_time sst !! t = ds_time ds !! (t * time_step)) /\
     (forall i, ds_lat sst !! i = ds_lat ds !! (i * k)) /\
     (forall j, ds_lon sst !! j = ds_lon ds !! (j * k)) /\
     (forall t i j,
        (ds_sst sst !! t ≫= fun frame => cell frame i j) =
        (ds_sst ds !! (t * time_step) ≫= fun frame => cell frame (i * k) (j * k)))).
Proof.
  intros [Hn Hshape]. split; [reflexivity |]. intros Hts.
  unfold subsample, isel_step.
  destruct (decide (time_step = 0)) as [-> | _]; [lia |]. cbn.
  eexists. split; [reflexivity |].
  unfold wf_dataset.
  destruct (decide (1 < spatial)) as [Hs | Hs]; cbn [ds_lon ds_lat ds_time ds_sst].
  - split; [| split; [| split; [| split]]].
    + split.
      * apply stride_length_same. now rewrite length_fmap.
      * apply Forall_lookup. intros t frame Ht.
        rewrite stride_lookup, list_lookup_fmap in Ht by lia.
        destruct (ds_sst ds !! (t * time_step)) as [src |] eqn:Hsrc;
          [| discriminate].
        cbn in Ht. injection Ht as <-.
        destruct (proj1 (Forall_lookup _ _) Hshape _ _ Hsrc) as [Hrows Hcols].
        rewrite length_fmap. split; [now apply stride_length_same |].
        apply Forall_fmap, Forall_lookup. intros i row Hi. cbn.
        rewrite stride_lookup in Hi by lia.
        apply stride_length_same.
        apply (proj1 (Forall_lookup _ _) Hcols _ _ Hi).
    + intros t. apply stride_lookup. lia.
    + intros i. apply stride_lookup. lia.
    + intros j. apply stride_lookup. lia.
    + intros t i j. rewrite stride_lookup, list_lookup_fmap by lia.
      destruct (ds_sst ds !! (t * time_step)) as [src |]; [| reflexivity].
      cbn. unfold cell. rewrite list_lookup_fmap, stride_lookup by lia.
      destruct (src !! (i * spatial)) as [row |]; [| reflexivity].
      cbn. apply stride_lookup. lia.
  - split; [| split; [| split; [| split]]].
    + split.
      * now apply stride_length_same.
      * apply Forall_lookup. intros t frame Ht.
        rewrite stride_lookup in Ht by lia.
        apply (proj1 (Forall_lookup _ _) Hshape _ _ Ht).
    + intros t. apply stride_lookup. lia.
    + intros i. now rewrite Nat.mul_1_r.
    + intros j. now rewrite Nat.mul_1_r.
    + intros t i j. rewrite stride_lookup by lia.
      now rewrite !Nat.mul_1_r.
Qed.

Lemma subsample_keeps_alignment_witness :
  exists sst,
    subsample 2 1 sample_ds = Some sst /\
    wf_dataset sst /\ ds_lon sst = [0; 270]%Q.
Proof.
  destruct (proj2 (subsample_keeps_alignment 2 1 sample_ds sample_ds_wf))
    as (sst & E & Hwf & _); [lia |].
  exists sst. split; [exact E |]. split; [exact Hwf |].
  vm_compute in E. injection E as <-. reflexivity.
Defined.

(** X16: with the constants of the script (no spatial subsampling, time
    step 1) [load_and_process_data] hands the dataset over unchanged, and
    it raises exactly when the time axis is empty. *)
Theorem load_and_process_data_identity ds :
  (1 <= length (ds_time ds) ->
   load_and_process_data ds =
     Some {| ds_lon := ds_lon ds; ds_lat := ds_lat ds;
             ds_time := ds_time ds; ds_sst := ds_sst ds |}) /\
  (ds_time ds = [] -> load_and_process_data ds = None).
Proof.
  unfold load_and_process_data, subsample, isel_step,
    SPATIAL_SUBSAMPLE, TIME_STEP.
  split.
  - intros Ht.
    destruct (lookup_lt_is_Some_2 (ds_time ds) 0 Ht) as [t0 H0].
    rewrite H0. cbn. now rewrite !stride_one.
  - intros ->. reflexivity.
Qed.

Lemma load_and_process_data_identity_witness :
  load_and_process_data sample_ds = Some sample_ds.
Proof.
  apply (proj1 (load_and_process_data_identity sample_ds)). cbn. lia.
Defined.

End Subsampling.

(** ** create_animation *)

Section Animation.
Import Np SstAnimatedMap.
Local Open Scope nat_scope.

(** The frame [create_animation] builds for time stamp [t] from the data
    of that time step. *)
Local Abbreviation frame_of sst lons_s t z :=
  {| fr_data := make_heatmap z lons_s (ds_lat sst);
     fr_name := String.substring 0 7 t;
     fr_title := "Sea Surface Temperature - " +:+ String.substring 0 7 t |}.

(** X17: on a well-formed dataset with pairwise distinct time stamps and
    pairwise distinct converted longitudes (so that [np.argsort] has one
    possible result), [create_animation] completes exactly when there is
    at least one time stamp.  The figure then has one frame and one slider
    step per time stamp, in order; frame [t] is named by the YYYY-MM label
    of stamp [t] and slider step [t] targets that name; the heatmap of
    frame [t] has the sorted longitudes as x, the latitudes in source order
    as y and, as z, the 2-D source frame with its columns reordered by
    [sort_idx] (values untouched, NaN included); the initial heatmap of the
    figure is that of frame 0. *)
Theorem create_animation_structure sst :
  wf_dataset sst -> NoDup (ds_time sst) ->
  pairwise_distinct (ProcessData.lons_converted (ds_lon sst)) ->
  (is_Some (create_animation sst) <-> 1 <= length (ds_time sst)) /\
  (forall idx, is_argsort (ProcessData.lons_converted (ds_lon sst)) idx ->
               idx = ProcessData.lon_sort (ds_lon sst)) /\
  forall fig,
    create_animation sst = Some fig ->
    exists lons_s,
      ProcessData.lons_sorted (ds_lon sst) = Some lons_s /\
      length (fig_frames fig) = length (ds_time sst) /\
      fr_name <$> fig_frames fig = time_labels (ds_time sst) /\
      st_target <$> fig_steps fig = fr_name <$> fig_frames fig /\
      st_label <$> fig_steps fig = fr_name <$> fig_frames fig /\
      (forall t fr,
         fig_frames fig !! t = Some fr ->
         hm_x (fr_data fr) = lons_s /\
         hm_y (fr_data fr) = ds_lat sst /\
         exists src z,
           ds_sst sst !! t = Some src /\
           take_cols src (ProcessData.lon_sort (ds_lon sst)) = Some z /\
           hm_z (fr_data fr) = Xr.Block2 z) /\
      fr_data <$> fig_frames fig !! 0 = Some (fig_data fig).
Proof.
  intros [Hn Hshape] Hnd Hdist.
  destruct (lons_sorted_is_Some (ds_lon sst)) as (lons_s & El & _ & _).
  destruct (perm_seq_bounds _ _ (lon_sort_perm (ds_lon sst))) as [_ Hb].
  set (body := fun t : string =>
         sst_data ← Xr.sel_time (ds_time sst) (ds_sst sst) t;
         sst_sorted ← Xr.take_axis1 sst_data
                        (ProcessData.lon_sort (ds_lon sst));
         Some (frame_of sst lons_s t sst_sorted)).
  assert (forall k t src,
            ds_time sst !! k = Some t -> ds_sst sst !! k = Some src ->
            body t =
            (z ← take_cols src (ProcessData.lon_sort (ds_lon sst));
             Some (frame_of sst lons_s t (Xr.Block2 z)))) as Hbody.
  { intros k t src Hk Hsrc. unfold body.
    rewrite (sel_time_lookup _ _ k t src Hnd Hk Hsrc). cbn.
    destruct (take_cols src _); reflexivity. }
  assert (is_Some (mapM body (ds_time sst))) as [frames Hfr].
  { apply mapM_is_Some, Forall_lookup. intros k t Hk.
    destruct (lookup_lt_is_Some_2 (ds_sst sst) k) as [src Hsrc].
    { apply lookup_lt_Some in Hk. lia. }
    change (is_Some (body t)). rewrite (Hbody k t src Hk Hsrc).
    destruct (proj1 (Forall_lookup _ _) Hshape k src Hsrc) as [_ Hcols].
    destruct (take_cols_is_Some src _ _ Hcols Hb) as [z Hz].
    rewrite Hz. cbn. eauto. }
  assert (create_animation sst =
          (first ← ds_sst sst !! 0;
           initial_sst ← take_cols first (ProcessData.lon_sort (ds_lon sst));
           t0 ← ds_time sst !! 0;
           Some {| fig_data :=
                     make_heatmap (Xr.Block2 initial_sst) lons_s (ds_lat sst);
                   fig_frames := frames;
                   fig_steps :=
                     (fun t => {| st_target := String.substring 0 7 t;
                                  st_label := String.substring 0 7 t |})
                       <$> ds_time sst;
                   fig_title :=
                     "NOAA ERSST v5 - Sea Surface Temperature ("
                       +:+ String.substring 0 7 t0 +:+ ")";
                   fig_xrange := (-180, 180)%Q;
                   fig_yrange := (-90, 90)%Q |})) as Hca.
  { unfold create_animation.
    change (take_idx _ _) with (ProcessData.lons_sorted (ds_lon sst)).
    rewrite El. cbn [mbind option_bind].
    change (mapM _ _) with (mapM body (ds_time sst)).
    rewrite Hfr. reflexivity. }
  apply mapM_Some in Hfr.
  assert (length frames = length (ds_time sst)) as Hlen
    by (symmetry; apply (Forall2_length _ _ _ Hfr)).
  assert (forall t fr, frames !! t = Some fr ->
            exists s src z,
              ds_time sst !! t = Some s /\ ds_sst sst !! t = Some src /\
              take_cols src (ProcessData.lon_sort (ds_lon sst)) = Some z /\
              fr = frame_of sst lons_s s (Xr.Block2 z)) as Hframe.
  { intros t fr Ht.
    destruct (Forall2_lookup_r _ _ _ _ _ Hfr Ht) as (s & Hs & Hrun).
    destruct (lookup_lt_is_Some_2 (ds_sst sst) t) as [src Hsrc].
    { apply lookup_lt_Some in Hs. lia. }
    rewrite (Hbody t s src Hs Hsrc) in Hrun.
    destruct (take_cols src _) as [z |] eqn:Hz; [| discriminate].
    cbn in Hrun. injection Hrun as <-. exists s, src, z.
    split; [exact Hs |]. split; [exact Hsrc |]. split; [exact Hz |].
    reflexivity. }
  split; [| split; [intros idx Hidx; now apply argsort_unique |]].
  - rewrite Hca. split.
    + intros [fig H].
      destruct (ds_sst sst !! 0) as [first |] eqn:H0; [| discriminate].
      apply lookup_lt_Some in H0. lia.
    + intros Ht.
      destruct (lookup_lt_is_Some_2 (ds_sst sst) 0 ltac:(lia)) as [first H0].
      destruct (lookup_lt_is_Some_2 (ds_time sst) 0 Ht) as [t0 Ht0].
      destruct (proj1 (Forall_lookup _ _) Hshape 0 first H0) as [_ Hcols].
      destruct (take_cols_is_Some first _ _ Hcols Hb) as [z Hz].
      rewrite H0. cbn. rewrite Hz. cbn. rewrite Ht0. cbn. eauto.
  - intros fig Hfig. rewrite Hca in Hfig.
    destruct (ds_sst sst !! 0) as [first |] eqn:H0; [| discriminate].
    cbn in Hfig.
    destruct (take_cols first _) as [z0 |] eqn:Hz0; [| discriminate].
    cbn in Hfig.
    destruct (ds_time sst !! 0) as [t0 |] eqn:Ht0; [| discriminate].
    cbn in Hfig. injection Hfig as <-.
    cbn [fig_frames fig_steps fig_data].
    assert (fr_name <$> frames = time_labels (ds_time sst)) as Hnames.
    { apply list_eq. intros t. unfold time_labels.
      rewrite !list_lookup_fmap.
      destruct (frames !! t) as [fr |] eqn:Ht.
      - destruct (Hframe t fr Ht) as (s & src & z & Hs & _ & _ & ->).
        rewrite Hs. reflexivity.
      - apply lookup_ge_None in Ht.
        rewrite lookup_ge_None_2 by lia. reflexivity. }
    exists lons_s. split; [exact El |]. split; [exact Hlen |].
    split; [exact Hnames |].
    rewrite Hnames. unfold time_labels. rewrite <- !list_fmap_compose.
    split; [reflexivity |]. split; [reflexivity |]. split.
    + intros t fr Ht.
      destruct (Hframe t fr Ht) as (s & src & z & _ & Hsrc & Hz & ->).
      cbn. split; [reflexivity |]. split; [reflexivity |]. eauto.
    + destruct (lookup_lt_is_Some_2 frames 0 ltac:(apply lookup_lt_Some in Ht0; lia))
        as [f0 Hf0].
      rewrite Hf0. cbn.
      destruct (Hframe 0 f0 Hf0) as (s & src & z & _ & Hsrc & Hz & ->).
      rewrite H0 in Hsrc. injection Hsrc as <-.
      rewrite Hz0 in Hz. injection Hz as <-. reflexivity.
Qed.

Lemma create_animation_structure_witness :
  exists fig,
    create_animation sample_ds = Some fig /\
    fr_name <$> fig_frames fig = ["1854-01"; "1854-02"] /\
    st_target <$> fig_steps fig = fr_name <$> fig_frames fig.
Proof.
  destruct (create_animation_structure sample_ds sample_ds_wf
              sample_ds_times_NoDup eq_refl) as (Hok & _ & Hfig).
  destruct (proj2 Hok) as [fig E]; [cbn; lia |].
  destruct (Hfig fig E) as (lons_s & _ & _ & Hnames & Htargets & _).
  exists fig. split; [exact E |]. split; [exact Hnames | exact Htargets].
Defined.

End Animation.

(** ** Saturation and order on an array of a binary format *)

Section FloatEncoder.
Import Np.
Local Open Scope Q_scope.

(** X18: the saturation of the uint8 encoder survives the rounding of the
    float operations.  On an array of format binary32 or wider every finite
    value at or below -2 degrees C encodes to 0 and every finite value at
    or above 32 degrees C encodes to 254; so do minus and plus infinity. *)
Theorem float_encoder_saturates f :
  Ieee.at_least_binary32 f ->
  (forall v, v <= ProcessData.SST_MIN ->
             ProcessData.encode_cell_in f (Fin v) = 0%Z) /\
  (forall v, ProcessData.SST_MAX <= v ->
             ProcessData.encode_cell_in f (Fin v) = 254%Z) /\
  ProcessData.encode_cell_in f NInf = 0%Z /\
  ProcessData.encode_cell_in f PInf = 254%Z.
Proof.
  intros Hf. destruct (encode_cell_in_saturates f Hf) as [Hlo Hhi].
  split; [| split; [| split]].
  - intros v Hv. apply Hlo. exact Hv.
  - intros v Hv. apply Hhi. exact Hv.
  - apply Hlo. exact I.
  - apply Hhi. exact I.
Qed.

Lemma float_encoder_saturates_witness :
  ProcessData.encode_cell_in Ieee.binary32 (Fin (-5)) = 0%Z /\
  ProcessData.encode_cell_in Ieee.binary32 (Fin 40) = 254%Z.
Proof.
  destruct (float_encoder_saturates Ieee.binary32) as (Hlo & Hhi & _).
  - unfold Ieee.at_least_binary32. cbn. lia.
  - split; [apply (Hlo (-5)) | apply (Hhi 40)]; vm_compute; discriminate.
Defined.

(** X19: the uint8 encoder preserves order on an array of any binary
    format.  If [x] and [y] are not NaN and [x <= y] (infinities included)
    then the code of [x] is at most the code of [y]: each of the three
    rounded operations, the clipping and the truncation preserve order. *)
Theorem float_encoder_monotone f x y :
  (1 <= Ieee.prec f)%Z -> fval_le x y ->
  (ProcessData.encode_cell_in f x <= ProcessData.encode_cell_in f y)%Z.
Proof. intros Hp H. now apply encode_cell_in_monotone. Qed.

Lemma float_encoder_monotone_witness :
  (ProcessData.encode_cell_in Ieee.binary32 (Fin 3)
   <= ProcessData.encode_cell_in Ieee.binary32 PInf)%Z.
Proof.
  apply (float_encoder_monotone Ieee.binary32 (Fin 3) PInf).
  - cbn. lia.
  - exact I.
Defined.

End FloatEncoder.
